(** * find-pwned-password: SHA-1 digest engine and sorted-record lookup

    A shallow embedding of [sha1.c], [find-pwned.c] (binary corpus, 24-byte
    records) and [find-pwned-password-hash.c] (text corpus, 63-byte records),
    followed by the properties proved about them.

    Conventions.
    - A C unsigned integer of width [w] is a [Z] in [0, 2^w); every operation
      that can leave that range is followed by its wrap-around.
    - A C byte buffer is a [list Z] of bytes; a pointer that may be [NULL] is
      an [option].
    - The host is little-endian, as [sha1.c] and the packed record of
      [find-pwned.c] assume. *)

From Stdlib Require Import ZArith List Lia ZifyNat Bool String Ascii Uint63.
Import ListNotations.
Local Open Scope Z_scope.

(** ** Buffers *)

Module Mem.

(** [buf[i]], reading 0 outside the buffer. *)
Definition load (buf : list Z) (i : Z) : Z := nth (Z.to_nat i) buf 0.

(** [memcpy(&dst[off], src, n)]: the caller keeps [off + n] inside [dst] and
    [n] inside [src]. *)
Definition memcpy (dst : list Z) (off : Z) (src : list Z) (n : Z) : list Z :=
  firstn (Z.to_nat off) dst ++ firstn (Z.to_nat n) src
    ++ skipn (Z.to_nat (off + n)) dst.

(** [memset(&dst[off], c, n)]. *)
Definition memset (dst : list Z) (off : Z) (c : Z) (n : Z) : list Z :=
  firstn (Z.to_nat off) dst ++ repeat c (Z.to_nat n)
    ++ skipn (Z.to_nat (off + n)) dst.

(** [dst[off] = c]. *)
Definition store (dst : list Z) (off : Z) (c : Z) : list Z :=
  firstn (Z.to_nat off) dst ++ c :: skipn (Z.to_nat (off + 1)) dst.

End Mem.

(** ** sha1.h, sha1.c *)

Module Sha1.

Definition SHA1_BINARY_BYTES : Z := 0x14.
Definition SHA1_BINARY_WORDS : Z := 5.
Definition SHA1_TEXT_BYTES : Z := SHA1_BINARY_BYTES * 2 + 1.
Definition SHA1_BLOCK_BYTES : Z := 0x40.
Definition SHA1_FLAG_UPPER_CASE : Z := 0x0001.
Definition SHA1_FLAGS_DEFAULT : Z := 0.

(** Wrap-around of [uint32_t], [uint64_t] and [uint8_t]. *)
Definition u32 (x : Z) : Z := Z.land x 0xFFFFFFFF.
Definition u64 (x : Z) : Z := Z.land x 0xFFFFFFFFFFFFFFFF.
Definition u8 (x : Z) : Z := Z.land x 0xFF.

(** [sha1_t]. *)
Record sha1_t : Type := mk_sha1 {
  h : list Z;        (* uint32_t h[5] *)
  block : list Z;    (* uint8_t block[64] *)
  bytes : Z;         (* uint64_t *)
  blocks : Z;        (* uint32_t *)
  flags : Z          (* uint32_t *)
}.

Definition SHA1_INIT_FLAGS (_flags : Z) : sha1_t :=
  {| h := [0x67452301; 0xEFCDAB89; 0x98BADCFE; 0x10325476; 0xC3D2E1F0];
     block := repeat 0 64;
     bytes := 0;
     blocks := 0;
     flags := _flags |}.

Definition SHA1_INIT : sha1_t := SHA1_INIT_FLAGS SHA1_FLAGS_DEFAULT.

Definition sha1_initialized : sha1_t := SHA1_INIT.

Definition ROTATE_LEFT (_x _c : Z) : Z :=
  Z.lor (u32 (Z.shiftl (u32 _x) _c)) (Z.shiftr (u32 _x) (0x20 - _c)).

Definition sha1_init_flags (sha1 : option sha1_t) (flags0 : Z)
  : option sha1_t :=
  match sha1 with
  | Some _ =>
      Some {| h := h sha1_initialized;
              block := block sha1_initialized;
              bytes := bytes sha1_initialized;
              blocks := blocks sha1_initialized;
              flags := flags0 |}
  | None => None
  end.

Definition sha1_init (sha1 : option sha1_t) : option sha1_t :=
  sha1_init_flags sha1 SHA1_FLAGS_DEFAULT.

(** The first loop of [sha1_hash_block]: [w[i]] for [i < 16]. *)
Definition load_word (block_data : list Z) (i : Z) : Z :=
  u32 (Z.shiftl (Mem.load block_data (4 * i + 0)) 0x18
       + Z.shiftl (Mem.load block_data (4 * i + 1)) 0x10
       + Z.shiftl (Mem.load block_data (4 * i + 2)) 0x08
       + Z.shiftl (Mem.load block_data (4 * i + 3)) 0x00).

(** The second loop: [w] holds [w[0..i)], the next [n] words are appended. *)
Fixpoint expand (n : nat) (i : Z) (w : list Z) : list Z :=
  match n with
  | O => w
  | S n' =>
      let k := Z.lxor (Z.lxor (Z.lxor (Mem.load w (i - 0x03))
                                      (Mem.load w (i - 0x08)))
                              (Mem.load w (i - 0x0E)))
                      (Mem.load w (i - 0x10)) in
      expand n' (i + 1) (w ++ [ROTATE_LEFT k 1])
  end.

Definition schedule (block_data : list Z) : list Z :=
  expand 64 0x10 (map (fun i => load_word block_data (Z.of_nat i)) (seq 0 16)).

(** [~b] on [uint32_t]. *)
Definition not32 (b : Z) : Z := u32 (Z.lnot b).

(** One iteration of the third loop. *)
Definition round (w : list Z) (i : Z) (v : Z * Z * Z * Z * Z)
  : Z * Z * Z * Z * Z :=
  let '(a, b, c, d, e) := v in
  let '(f, k) :=
    if i <? 0x14 then
      (Z.lor (Z.land b c) (Z.land (not32 b) d), 0x5A827999)
    else if i <? 0x28 then
      (Z.lxor (Z.lxor b c) d, 0x6ED9EBA1)
    else if i <? 0x3C then
      (Z.lor (Z.lor (Z.land b c) (Z.land b d)) (Z.land c d), 0x8F1BBCDC)
    else
      (Z.lxor (Z.lxor b c) d, 0xCA62C1D6) in
  let temp := ROTATE_LEFT a 5 in
  let temp := u32 (temp + u32 (u32 (u32 (f + e) + k) + Mem.load w i)) in
  (temp, a, ROTATE_LEFT b 30, c, d).

Fixpoint rounds (n : nat) (w : list Z) (i : Z) (v : Z * Z * Z * Z * Z)
  : Z * Z * Z * Z * Z :=
  match n with
  | O => v
  | S n' => rounds n' w (i + 1) (round w i v)
  end.

Definition sha1_hash_block (h0 : list Z) (block_data : list Z) : list Z :=
  let a := Mem.load h0 0 in
  let b := Mem.load h0 1 in
  let c := Mem.load h0 2 in
  let d := Mem.load h0 3 in
  let e := Mem.load h0 4 in
  let w := schedule block_data in
  let '(a', b', c', d', e') := rounds 80 w 0 (a, b, c, d, e) in
  [u32 (a + a'); u32 (b + b'); u32 (c + c'); u32 (d + d'); u32 (e + e')].

(** The [while (size >= SHA1_BLOCK_BYTES)] loop of [sha1_update]; [fuel]
    bounds the number of iterations and [b] is the data not yet consumed. *)
Fixpoint update_loop (fuel : nat) (s : sha1_t) (b : list Z) (size : Z)
  : sha1_t * list Z * Z :=
  match fuel with
  | O => (s, b, size)
  | S fuel' =>
      if SHA1_BLOCK_BYTES <=? size then
        let blk := Mem.memcpy (block s) 0 b SHA1_BLOCK_BYTES in
        let s' := {| h := sha1_hash_block (h s) blk;
                     block := blk;
                     bytes := u64 (bytes s + SHA1_BLOCK_BYTES);
                     blocks := u32 (blocks s + 1);
                     flags := flags s |} in
        update_loop fuel' s' (skipn (Z.to_nat SHA1_BLOCK_BYTES) b)
                    (size - SHA1_BLOCK_BYTES)
      else (s, b, size)
  end.

(** Body of [sha1_update] once the pointers are known to be non-null and
    [size] non-zero. *)
Definition update_body (s : sha1_t) (b : list Z) (size : Z) : sha1_t :=
  let bytes_used_in_block := bytes s mod SHA1_BLOCK_BYTES in
  let bytes_free_in_block := SHA1_BLOCK_BYTES - bytes_used_in_block in
  if size <? bytes_free_in_block then
    {| h := h s;
       block := Mem.memcpy (block s) bytes_used_in_block b size;
       bytes := u64 (bytes s + size);
       blocks := blocks s;
       flags := flags s |}
  else
    let blk := Mem.memcpy (block s) bytes_used_in_block b bytes_free_in_block in
    let b1 := skipn (Z.to_nat bytes_free_in_block) b in
    let size1 := size - bytes_free_in_block in
    let s1 := {| h := sha1_hash_block (h s) blk;
                 block := blk;
                 bytes := u64 (bytes s + bytes_free_in_block);
                 blocks := u32 (blocks s + 1);
                 flags := flags s |} in
    let '(s2, b2, size2) := update_loop (Z.to_nat size1) s1 b1 size1 in
    if 0 <? size2 then
      {| h := h s2;
         block := Mem.memcpy (block s2) 0 b2 size2;
         bytes := u64 (bytes s2 + size2);
         blocks := blocks s2;
         flags := flags s2 |}
    else s2.

(** [sha1_update(sha1, data, size)]; [data] points to at least [size]
    readable bytes. *)
Definition sha1_update (sha1 : option sha1_t) (data : option (list Z))
  (size : Z) : option sha1_t :=
  match sha1, data with
  | Some s, Some b => if size =? 0 then Some s else Some (update_body s b size)
  | _, _ => sha1
  end.

(** The eight stores of the bit count at the end of the block. *)
Definition store_bits (blk : list Z) (bits : Z) : list Z :=
  let blk := Mem.store blk (SHA1_BLOCK_BYTES - 8) (Z.land (Z.shiftr bits 0x38) 0xFF) in
  let blk := Mem.store blk (SHA1_BLOCK_BYTES - 7) (Z.land (Z.shiftr bits 0x30) 0xFF) in
  let blk := Mem.store blk (SHA1_BLOCK_BYTES - 6) (Z.land (Z.shiftr bits 0x28) 0xFF) in
  let blk := Mem.store blk (SHA1_BLOCK_BYTES - 5) (Z.land (Z.shiftr bits 0x20) 0xFF) in
  let blk := Mem.store blk (SHA1_BLOCK_BYTES - 4) (Z.land (Z.shiftr bits 0x18) 0xFF) in
  let blk := Mem.store blk (SHA1_BLOCK_BYTES - 3) (Z.land (Z.shiftr bits 0x10) 0xFF) in
  let blk := Mem.store blk (SHA1_BLOCK_BYTES - 2) (Z.land (Z.shiftr bits 0x08) 0xFF) in
  Mem.store blk (SHA1_BLOCK_BYTES - 1) (Z.land (Z.shiftr bits 0x00) 0xFF).

Definition sha1_end (sha1 : option sha1_t) : option sha1_t :=
  match sha1 with
  | None => None
  | Some s =>
      let bytes_used_in_block := bytes s mod SHA1_BLOCK_BYTES in
      let blk := Mem.store (block s) bytes_used_in_block 0x80 in
      let bytes_used_in_block := bytes_used_in_block + 1 in
      let '(h1, blk1, blocks1, used1) :=
        if SHA1_BLOCK_BYTES - 8 <? bytes_used_in_block then
          let blk' := Mem.memset blk bytes_used_in_block 0
                        (SHA1_BLOCK_BYTES - bytes_used_in_block) in
          (sha1_hash_block (h s) blk', blk', u32 (blocks s + 1), 0)
        else (h s, blk, blocks s, bytes_used_in_block) in
      let blk2 := Mem.memset blk1 used1 0 ((SHA1_BLOCK_BYTES - 8) - used1) in
      let bits := u64 (8 * bytes s) in
      let blk3 := store_bits blk2 bits in
      Some {| h := sha1_hash_block h1 blk3;
              block := blk3;
              bytes := bytes s;
              blocks := u32 (blocks1 + 1);
              flags := flags s |}
  end.

(** The byte view [(const uint8_t* ) &sha1->h[0]] on a little-endian host. *)
Definition word_bytes (x : Z) : list Z :=
  [Z.land x 0xFF; Z.land (Z.shiftr x 8) 0xFF;
   Z.land (Z.shiftr x 16) 0xFF; Z.land (Z.shiftr x 24) 0xFF].

Definition hash_bytes (h0 : list Z) : list Z := flat_map word_bytes h0.

Definition tohex_of (flags0 : Z) : string :=
  if Z.land flags0 SHA1_FLAG_UPPER_CASE =? 0
  then "0123456789abcdef"%string else "0123456789ABCDEF"%string.

Definition hexchar (tohex : string) (i : Z) : ascii :=
  match String.get (Z.to_nat i) tohex with
  | Some c => c
  | None => Ascii.zero
  end.

(** The loop of [sha1_text] from index [i], for [n] iterations. *)
Fixpoint text_loop (n : nat) (tohex : string) (hash : list Z) (i : Z)
  : string :=
  match n with
  | O => EmptyString
  | S n' =>
      let x := Mem.load hash (Z.lxor i 3) in
      String (hexchar tohex (Z.land (Z.shiftr x 4) 0x0F))
        (String (hexchar tohex (Z.land (Z.shiftr x 0) 0x0F))
           (text_loop n' tohex hash (i + 1)))
  end.

(** [sha1_text]: the NUL-terminated text written to the output buffer.  The
    source reads [sha1->flags] before its null test, so a [NULL] state has no
    defined result. *)
Definition sha1_text (sha1 : option sha1_t) : option string :=
  match sha1 with
  | None => None
  | Some s =>
      Some (text_loop (Z.to_nat SHA1_BINARY_BYTES) (tohex_of (flags s))
              (hash_bytes (h s)) 0)
  end.

(** [sha1_buffer_flags]: the local [sha1_t] is uninitialised stack memory,
    overwritten by [sha1_init_flags]. *)
Definition sha1_buffer_flags (data : option (list Z)) (size : Z) (flags0 : Z)
  : option string :=
  sha1_text
    (sha1_end
       (sha1_update (sha1_init_flags (Some sha1_initialized) flags0)
          data size)).

Definition sha1_buffer (data : option (list Z)) (size : Z) : option string :=
  sha1_buffer_flags data size SHA1_FLAGS_DEFAULT.

End Sha1.


(** ** C strings *)

Module CStr.

(** The characters of a C string, as unsigned bytes (the terminating NUL is
    what [Mem.load] reads past the end). *)
Definition chars (s : string) : list Z :=
  map (fun c => Z.of_nat (nat_of_ascii c)) (list_ascii_of_string s).

Definition strlen (s : string) : Z := Z.of_nat (String.length s).

(** [tolower] and [toupper] of the C locale. *)
Definition tolower (c : Z) : Z :=
  if (65 <=? c) && (c <=? 90) then c + 32 else c.

Definition toupper (c : Z) : Z :=
  if (97 <=? c) && (c <=? 122) then c - 32 else c.

Definition map_chars (f : Z -> Z) (s : string) : string :=
  string_of_list_ascii
    (map (fun c => ascii_of_nat (Z.to_nat (f (Z.of_nat (nat_of_ascii c)))))
       (list_ascii_of_string s)).

(** A string written in lower case, and in upper case. *)
Definition lower (s : string) : string := map_chars tolower s.
Definition upper (s : string) : string := map_chars toupper s.

(** [memcmp(a, b, n)]: the difference of the first pair of bytes that
    differ. *)
Fixpoint memcmp (a b : list Z) (n : nat) : Z :=
  match n with
  | O => 0
  | S n' =>
      let x := hd 0 a in
      let y := hd 0 b in
      if x =? y then memcmp (tl a) (tl b) n' else x - y
  end.

(** [strncasecmp(s1, s2, n)]. *)
Fixpoint strncasecmp (s1 s2 : list Z) (n : nat) : Z :=
  match n with
  | O => 0
  | S n' =>
      let c1 := tolower (hd 0 s1) in
      let c2 := tolower (hd 0 s2) in
      if c1 =? c2 then
        if c1 =? 0 then 0 else strncasecmp (tl s1) (tl s2) n'
      else c1 - c2
  end.

Definition isspace (c : Z) : bool := (c =? 32) || ((9 <=? c) && (c <=? 13)).
Definition isdigit (c : Z) : bool := (48 <=? c) && (c <=? 57).

Fixpoint skip_space (s : list Z) : list Z :=
  match s with
  | c :: r => if isspace c then skip_space r else s
  | [] => []
  end.

Fixpoint digits (s : list Z) (acc : Z) : Z :=
  match s with
  | c :: r => if isdigit c then digits r (10 * acc + (c - 48)) else acc
  | [] => acc
  end.

(** Wrap-around of [int]. *)
Definition s32 (x : Z) : Z := (x + 2 ^ 31) mod 2 ^ 32 - 2 ^ 31.

(** [atoi(s)]: blanks, an optional sign, decimal digits.  C leaves a value
    that does not fit an [int] undefined; here it is truncated to 32 bits. *)
Definition atoi (s : list Z) : Z :=
  match skip_space s with
  | 45 :: r => s32 (- digits r 0)
  | 43 :: r => s32 (digits r 0)
  | r => s32 (digits r 0)
  end.

End CStr.

(** ** Program runs

    A function of the programs that prints, calls [exit] or updates a global
    is a state transformer over the globals it touches; its outcome is the
    value it returns, the status passed to [exit], or undefined behaviour. *)

Module Run.

Inductive outcome (A : Type) : Type :=
| Value (a : A)
| Exited (code : Z)
| Undefined.

Arguments Value {A} a.
Arguments Exited {A} code.
Arguments Undefined {A}.

Definition M (St A : Type) : Type := St -> St * outcome A.

Definition ret {St A : Type} (a : A) : M St A := fun s => (s, Value a).

Definition bind {St A B : Type} (m : M St A) (k : A -> M St B) : M St B :=
  fun s =>
    match m s with
    | (s', Value a) => k a s'
    | (s', Exited code) => (s', Exited code)
    | (s', Undefined) => (s', Undefined)
    end.

(** [exit(code)]. *)
Definition exit {St A : Type} (code : Z) : M St A := fun s => (s, Exited code).

Definition undefined {St A : Type} : M St A := fun s => (s, Undefined).

(** The exit status of a run of [main]. *)
Definition status (o : outcome Z) : option Z :=
  match o with
  | Value a => Some a
  | Exited code => Some code
  | Undefined => None
  end.

End Run.

Notation "x <- m ;; k" := (Run.bind m (fun x => k))
  (at level 61, m at next level, right associativity).

(** ** The search loop

    [find_hash] of [find-pwned.c] (lines 542-564) and [find_hash] of
    [find-pwned-password-hash.c] (lines 357-389) run the same loop over
    [lo], [hi] and [mid]; they differ in how record [mid] is compared with
    the target and in how its count is read.  The loop is written once, over
    those two operations. *)

Module Bisect.

Record bounds : Type := mk_bounds { lo : Z; hi : Z; mid : Z }.

(** What a search gives: the returned [int] and the value left in [*count],
    or a read outside the mapped file. *)
Inductive result : Type :=
| Ret (found : Z) (count : Z)
| Fault.

Inductive step : Type :=
| Continue (s : bounds)
| Exit (r : result).

Section Loop.

(** [cmp_at mid] compares the target with record [mid]; [None] when the
    record lies outside the mapped file. *)
Variable cmp_at : Z -> option Z.
(** [count_at mid] reads the count of record [mid]. *)
Variable count_at : Z -> Z.

(** One pass through the body of [while (1)]. *)
Definition body (s : bounds) : step :=
  match cmp_at (mid s) with
  | None => Exit Fault
  | Some cmp =>
      if 0 =? cmp then Exit (Ret 1 (count_at (mid s)))
      else if lo s =? mid s then Exit (Ret 0 0)
      else
        let lo' := if cmp <? 0 then lo s else mid s in
        let hi' := if cmp <? 0 then mid s else hi s in
        Continue {| lo := lo'; hi := hi'; mid := Z.quot (lo' + hi') 2 |}
  end.

(** The loop, for at most [fuel] passes: the bounds at the exit and the
    result, [None] if the loop is still running. *)
Fixpoint loop (fuel : nat) (s : bounds) : option (bounds * result) :=
  match fuel with
  | O => None
  | S fuel' =>
      match body s with
      | Continue s' => loop fuel' s'
      | Exit r => Some (s, r)
      end
  end.

(** The initialisers of [lo], [hi] and [mid], [hi0] being
    [file_size / width - 1]. *)
Definition start (hi0 : Z) : bounds :=
  {| lo := 0; hi := hi0; mid := Z.quot (0 + hi0) 2 |}.

(** The whole search; the interval narrows on every pass, so [hi0 + 2]
    passes are enough (see [loop_terminates]). *)
Definition search (hi0 : Z) : option result :=
  option_map snd (loop (Z.to_nat (hi0 + 2)) (start hi0)).

End Loop.

End Bisect.

(** ** find-pwned.c: binary corpus *)

Module FindPwned.

Import Sha1.

Definition kBinHashBytes : Z := SHA1_BINARY_BYTES.
Definition kTextHashChars : Z := 2 * SHA1_BINARY_BYTES.

(** [struct pwned_info_s], packed. *)
Record pwned_info_t : Type := mk_pwned { hash : list Z; count : Z }.

(** [sizeof(pwned_info_t)], a [uint64_t]. *)
Definition kPwnedInfoSize : Z := 24.

(** Conversion of a [uint64_t] to [off_t]. *)
Definition s64 (x : Z) : Z := (x + 2 ^ 63) mod 2 ^ 64 - 2 ^ 63.

(** A little-endian [uint32_t] read from four bytes. *)
Definition le32 (b : list Z) : Z :=
  Mem.load b 0 + Z.shiftl (Mem.load b 1) 8 + Z.shiftl (Mem.load b 2) 16
  + Z.shiftl (Mem.load b 3) 24.

(** [data[mid]], the mapped file seen as an array of records; [None] when
    the record is not inside the mapping. *)
Definition record_at (data : list Z) (mid : Z) : option pwned_info_t :=
  if (0 <=? mid) && (kPwnedInfoSize * (mid + 1) <=? Z.of_nat (List.length data))
  then
    let r := skipn (Z.to_nat (kPwnedInfoSize * mid)) data in
    Some {| hash := firstn (Z.to_nat SHA1_BINARY_BYTES) r;
            count := le32 (skipn (Z.to_nat SHA1_BINARY_BYTES) r) |}
  else None.

Definition cmp_at (data : list Z) (hash0 : list Z) (mid : Z) : option Z :=
  match record_at data mid with
  | Some pwned =>
      Some (CStr.memcmp hash0 (hash pwned) (Z.to_nat SHA1_BINARY_BYTES))
  | None => None
  end.

Definition count_at (data : list Z) (mid : Z) : Z :=
  match record_at data mid with
  | Some pwned => count pwned
  | None => 0
  end.

(** [find_hash(data, file_size, hash, &count)].  The division is done on
    [uint64_t], the type of [kPwnedInfoSize]. *)
Definition find_hash (data : list Z) (file_size : Z) (hash0 : list Z)
  : option Bisect.result :=
  let hi := s64 (u64 (u64 file_size / kPwnedInfoSize - 1)) in
  Bisect.search (cmp_at data hash0) (count_at data) hi.

Definition hexval (c : Z) : Z :=
  if (48 <=? c) && (c <=? 57) then c - 48
  else if (65 <=? c) && (c <=? 70) then 10 + c - 65
  else if (97 <=? c) && (c <=? 102) then 10 + c - 97
  else -1.

(** [hex2byte(h, &byte)]: the byte written, or [None] for a return of 0. *)
Definition hex2byte (h : list Z) : option Z :=
  let hi := hexval (Mem.load h 0) in
  let lo := hexval (Mem.load h 1) in
  if (hi <? 0) || (lo <? 0) then None else Some (hi * 16 + lo).

(** The [for] loop of [handle_input] from index [i]: the filled [hash], or
    the index [i] of the first byte that is not two hex digits. *)
Fixpoint parse_hash (n : nat) (input : list Z) (i : Z) (hash0 : list Z)
  : list Z + Z :=
  match n with
  | O => inl hash0
  | S n' =>
      match hex2byte (skipn (Z.to_nat (2 * i)) input) with
      | Some byte => parse_hash n' input (i + 1) (Mem.store hash0 i byte)
      | None => inr i
      end
  end.

(** Modelled from the spec: [sha1_buffer_bin] is declared in [sha1.h] and
    called by [handle_input], but its body is not in [sha1.c].  The spec
    gives [digest_buffer_binary(bytes) -> 20-byte digest] as the one-shot
    composition of init, update and finish; the digest bytes are the five
    words of the accumulator, most significant byte first. *)
Definition sha1_buffer_bin (data : option (list Z)) (size : Z) : list Z :=
  match sha1_end
          (sha1_update (sha1_init_flags (Some sha1_initialized)
                          SHA1_FLAGS_DEFAULT) data size) with
  | Some s => flat_map (fun x => rev (word_bytes x)) (h s)
  | None => []
  end.

(** The option globals, as [ParseOptions] leaves them. *)
Record config : Type := mk_config {
  g_verbose : bool;
  g_quiet : bool;
  g_print_index : bool;
  g_print_password : bool;
  g_print_hash : bool;
  g_print_count : bool;
  g_password : bool;
  g_secure : bool;
  g_print_found : bool;
  g_print_not_found : bool
}.

(** The texts of the messages, by format string. *)
Inductive message : Type :=
| BadHashLength (input : string) (expected actual : Z)
| BadHexByte (index : Z) (input : string)
| BadFileSize (file_size divisor : Z)
| CannotOpen
| SeekFailed
| MmapFailed
| FileInfo (file_size hashes : Z)
| EchoChange (enable : bool).

Inductive field : Type :=
| Index (n : Z)
| Password (s : string)
| Hash (bytes0 : list Z)
| Count (c : Z).

(** What a run does, in order.  [Lookup] records a call of [find_hash]. *)
Inductive event : Type :=
| UsageError (m : message)
| Error (m : message)
| Verbose (m : message)
| Lookup (hash0 : list Z)
| Output (fields : list field)
| SetEcho (enable : bool)
| Munmap.

(** The globals that change during a run: [g_count] and the two output
    streams. *)
Record state : Type := mk_state { g_count : Z; trace : list event }.

Definition M (A : Type) : Type := Run.M state A.

Definition emit (e : event) : M unit :=
  fun s => ({| g_count := g_count s; trace := trace s ++ [e] |}, Run.Value tt).

Definition PrintUsageError (exit_code : Z) (m : message) : M unit :=
  _ <- emit (UsageError m) ;;
  if exit_code =? 0 then Run.ret tt else Run.exit exit_code.

Definition PrintError (m : message) : M unit := emit (Error m).

Definition PrintVerbose (cfg : config) (m : message) : M unit :=
  if g_verbose cfg then emit (Verbose m) else Run.ret tt.

(** The [printf] calls of [handle_input]; the newline is printed when a
    field was. *)
Definition print_result (cfg : config) (input : string) (hash0 : list Z)
  (found count0 : Z) : M unit :=
  fun s =>
    if negb (g_quiet cfg)
       && ((negb (found =? 0) && g_print_found cfg)
           || ((found =? 0) && g_print_not_found cfg))
    then
      let fields :=
        (if g_print_index cfg then [Index (g_count s)] else [])
        ++ (if g_print_password cfg && g_password cfg
            then [Password input] else [])
        ++ (if g_print_hash cfg then [Hash hash0] else [])
        ++ (if g_print_count cfg then [Count count0] else []) in
      match fields with
      | [] => (s, Run.Value tt)
      | _ => emit (Output fields) s
      end
    else (s, Run.Value tt).

(** The hash searched for: [None] after a per-query error. *)
Definition read_hash (cfg : config) (input : string) : M (option (list Z)) :=
  if g_password cfg then
    Run.ret (Some (sha1_buffer_bin (Some (CStr.chars input))
                     (CStr.strlen input)))
  else if negb (CStr.strlen input =? kTextHashChars) then
    _ <- PrintUsageError 0 (BadHashLength input kTextHashChars
                              (CStr.strlen input)) ;;
    Run.ret None
  else
    match parse_hash (Z.to_nat SHA1_BINARY_BYTES) (CStr.chars input) 0
            (repeat 0 (Z.to_nat SHA1_BINARY_BYTES)) with
    | inl hash0 => Run.ret (Some hash0)
    | inr i => _ <- PrintUsageError 0 (BadHexByte (2 * i) input) ;;
               Run.ret None
    end.

Definition handle_input (cfg : config) (input : string)
  (file_data : list Z) (file_size : Z) : M Z :=
  _ <- (fun s => ({| g_count := u64 (g_count s + 1); trace := trace s |},
                  Run.Value tt)) ;;
  parsed <- read_hash cfg input ;;
  match parsed with
  | None => Run.ret 0
  | Some hash0 =>
      _ <- emit (Lookup hash0) ;;
      match find_hash file_data file_size hash0 with
      | Some (Bisect.Ret found count0) =>
          _ <- print_result cfg input hash0 found count0 ;;
          Run.ret found
      | _ => Run.undefined
      end
  end.

(** What [main] gets from the system: whether [open] succeeded, the result
    of [lseek(fd, 0, SEEK_END)], the mapping ([None] for [NULL]), the
    arguments left by [ParseOptions] after the program name, the lines that
    successive [fgets] calls return, and [isatty(STDIN_FILENO)]. *)
Record env : Type := mk_env {
  open_ok : bool;
  seek_end : Z;
  mapping : option (list Z);
  args : list string;
  stdin : list string;
  isatty : bool
}.

(** The [for] loop over [argv]. *)
Fixpoint handle_args (cfg : config) (inputs : list string)
  (file_data : list Z) (file_size : Z) (not_found : Z) : M Z :=
  match inputs with
  | [] => Run.ret not_found
  | input :: rest =>
      found <- handle_input cfg input file_data file_size ;;
      handle_args cfg rest file_data file_size
        (if found =? 0 then 1 else not_found)
  end.

(** The inner [while] loop over a line: trailing newlines are cut. *)
Fixpoint chomp (line : string) : string :=
  match line with
  | EmptyString => EmptyString
  | String c rest =>
      match chomp rest with
      | EmptyString =>
          if (Z.of_nat (nat_of_ascii c) =? 10) then EmptyString
          else String c EmptyString
      | rest' => String c rest'
      end
  end.

(** The [while] loop over [stdin]. *)
Fixpoint handle_lines (cfg : config) (lines : list string)
  (file_data : list Z) (file_size : Z) (not_found : Z) : M Z :=
  match lines with
  | [] => Run.ret not_found
  | line :: rest =>
      found <- handle_input cfg (chomp line) file_data file_size ;;
      handle_lines cfg rest file_data file_size
        (if found =? 0 then 1 else not_found)
  end.

Definition echo_on_stdin (cfg : config) (enable : bool) : M unit :=
  _ <- PrintVerbose cfg (EchoChange enable) ;;
  emit (SetEcho enable).

(** [main] after the test of the file size (lines 686-722): the mapping
    and the queries. *)
Definition serve (cfg : config) (e : env) (file_size : Z) : M Z :=
  let hashes := u64 file_size / kPwnedInfoSize in
  _ <- PrintVerbose cfg (FileInfo file_size hashes) ;;
  match mapping e with
  | None => _ <- PrintError MmapFailed ;; Run.ret 5
  | Some file_data =>
      not_found <-
        match args e with
        | _ :: _ => handle_args cfg (args e) file_data file_size 0
        | [] =>
            let quiet_tty := g_password cfg && g_secure cfg && isatty e in
            _ <- (if quiet_tty then echo_on_stdin cfg false
                  else Run.ret tt) ;;
            nf <- handle_lines cfg (stdin e) file_data file_size 0 ;;
            _ <- (if quiet_tty then echo_on_stdin cfg true
                  else Run.ret tt) ;;
            Run.ret nf
        end ;;
      _ <- emit Munmap ;;
      Run.ret (if not_found =? 0 then 0 else 1)
  end.

(** [main], from the call of [open] on. *)
Definition main (cfg : config) (e : env) : M Z :=
  _ <- (if open_ok e then Run.ret tt else PrintUsageError 2 CannotOpen) ;;
  let file_size := seek_end e in
  if file_size <? 0 then
    _ <- PrintError SeekFailed ;; Run.ret 3
  else if (0 =? file_size) || negb (0 =? u64 file_size mod kPwnedInfoSize)
  then
    _ <- PrintUsageError 3 (BadFileSize file_size kPwnedInfoSize) ;;
    Run.ret 4
  else serve cfg e file_size.

Definition initial : state := {| g_count := 0; trace := [] |}.

End FindPwned.

(** ** find-pwned-password-hash.c: text corpus *)

Module FindPwnedPasswordHash.

Import Sha1.

Definition kTextHashLineBytes : Z := 63.
Definition kBinHashBytes : Z := SHA1_BINARY_BYTES.
Definition kTextHashChars : Z := 2 * kBinHashBytes.

(** [&data[mid * kTextHashLineBytes]]: the file from line [mid] on; [None]
    when the line is not inside the mapping. *)
Definition line_at (data : list Z) (mid : Z) : option (list Z) :=
  if (0 <=? mid)
     && (kTextHashLineBytes * (mid + 1) <=? Z.of_nat (List.length data))
  then Some (skipn (Z.to_nat (mid * kTextHashLineBytes)) data)
  else None.

Definition cmp_at (data : list Z) (hash : string) (mid : Z) : option Z :=
  match line_at data mid with
  | Some file_hash =>
      Some (CStr.strncasecmp (CStr.chars hash) file_hash
              (Z.to_nat kTextHashChars))
  | None => None
  end.

(** [atoi(&file_hash[kTextHashChars + 1])], converted to [uint64_t]. *)
Definition count_at (data : list Z) (mid : Z) : Z :=
  match line_at data mid with
  | Some file_hash =>
      u64 (CStr.atoi (skipn (Z.to_nat (kTextHashChars + 1)) file_hash))
  | None => 0
  end.

(** [find_hash(data, file_size, hash, &count)], [count] being the value of
    [*count] at the call.  The local copy [_file_hash] is only read by the
    commented-out [printf]. *)
Definition find_hash (data : list Z) (file_size : Z) (hash : string)
  (count : Z) : option Bisect.result :=
  let hi := Z.quot file_size kTextHashLineBytes - 1 in
  let hash_len := CStr.strlen hash in
  if negb (hash_len =? kTextHashChars) then Some (Bisect.Ret 0 count)
  else Bisect.search (cmp_at data hash) (count_at data) hi.

Record config : Type := mk_config {
  g_print_hash : bool;
  g_password : bool;
  g_secure : bool
}.

Inductive message : Type :=
| BadHashLength (input : string) (expected actual : Z)
| BadFileSize (file_size divisor : Z)
| CannotOpen
| SeekFailed
| MmapFailed
| EchoChange (enable : bool).

(** What a run does, in order.  [Lookup] records a call of [find_hash]. *)
Inductive event : Type :=
| Stderr (m : message)
| Stdout (m : message)
| Lookup (hash : string)
| Output (hash : option string) (count : Z)
| SetEcho (enable : bool)
| Munmap.

Definition M (A : Type) : Type := Run.M (list event) A.

Definition emit (e : event) : M unit := fun s => (s ++ [e], Run.Value tt).

(** The message [find_hash] prints before its early return. *)
Definition find_hash_message (hash : string) : M unit :=
  if negb (CStr.strlen hash =? kTextHashChars)
  then emit (Stderr (BadHashLength hash kTextHashChars (CStr.strlen hash)))
  else Run.ret tt.

(** The text left in [hash]: [None] after a per-query error. *)
Definition read_hash (cfg : config) (input : string) : M (option string) :=
  if g_password cfg then
    match sha1_buffer_flags (Some (CStr.chars input)) (CStr.strlen input)
            SHA1_FLAG_UPPER_CASE with
    | Some text => Run.ret (Some text)
    | None => Run.undefined
    end
  else if negb (CStr.strlen input =? kTextHashChars) then
    _ <- emit (Stderr (BadHashLength input kTextHashChars
                         (CStr.strlen input))) ;;
    Run.ret None
  else Run.ret (Some input).

(** [handle_input]: 0 on the error path; the function ends without a
    [return] after a search, which is [None] here. *)
Definition handle_input (cfg : config) (input : string)
  (file_data : list Z) (file_size : Z) : M (option Z) :=
  parsed <- read_hash cfg input ;;
  match parsed with
  | None => Run.ret (Some 0)
  | Some hash =>
      _ <- emit (Lookup hash) ;;
      _ <- find_hash_message hash ;;
      match find_hash file_data file_size hash 0 with
      | Some (Bisect.Ret found count) =>
          _ <- emit (Output (if g_print_hash cfg then Some hash else None)
                       count) ;;
          Run.ret None
      | _ => Run.undefined
      end
  end.

(** What [main] gets from the system: whether [open] succeeded, the result
    of [lseek(fd, 0, SEEK_END)], the mapping ([None] for [NULL]), the
    arguments left by [ParseOptions] after the program name, the lines that
    successive [getline] calls return, and [isatty(STDIN_FILENO)]. *)
Record env : Type := mk_env {
  open_ok : bool;
  seek_end : Z;
  mapping : option (list Z);
  args : list string;
  stdin : list string;
  isatty : bool
}.

(** The loops over [argv] and over [stdin]; [not_found] is written but
    never read by this [main]. *)
Fixpoint handle_args (cfg : config) (inputs : list string)
  (file_data : list Z) (file_size : Z) : M unit :=
  match inputs with
  | [] => Run.ret tt
  | input :: rest =>
      _ <- handle_input cfg input file_data file_size ;;
      handle_args cfg rest file_data file_size
  end.

Fixpoint chomp (line : string) : string :=
  match line with
  | EmptyString => EmptyString
  | String c rest =>
      match chomp rest with
      | EmptyString =>
          if (Z.of_nat (nat_of_ascii c) =? 10) then EmptyString
          else String c EmptyString
      | rest' => String c rest'
      end
  end.

Fixpoint handle_lines (cfg : config) (lines : list string)
  (file_data : list Z) (file_size : Z) : M unit :=
  match lines with
  | [] => Run.ret tt
  | line :: rest =>
      _ <- handle_input cfg (chomp line) file_data file_size ;;
      handle_lines cfg rest file_data file_size
  end.

Definition echo_on_stdin (enable : bool) : M unit :=
  _ <- emit (Stdout (EchoChange enable)) ;;
  emit (SetEcho enable).

(** [main] after the test of the file size (lines 461-497): the mapping
    and the queries. *)
Definition serve (cfg : config) (e : env) (file_size : Z) : M Z :=
  match mapping e with
  | None => _ <- emit (Stderr MmapFailed) ;; Run.ret 5
  | Some file_data =>
      _ <- match args e with
           | _ :: _ => handle_args cfg (args e) file_data file_size
           | [] =>
               let quiet_tty :=
                 g_password cfg && g_secure cfg && isatty e in
               _ <- (if quiet_tty then echo_on_stdin false
                     else Run.ret tt) ;;
               _ <- handle_lines cfg (stdin e) file_data file_size ;;
               if quiet_tty then echo_on_stdin true else Run.ret tt
           end ;;
      _ <- emit Munmap ;;
      Run.ret 0
  end.

(** [main], from the call of [open] on. *)
Definition main (cfg : config) (e : env) : M Z :=
  if negb (open_ok e) then
    _ <- emit (Stderr CannotOpen) ;; Run.ret 2
  else
    let file_size := seek_end e in
    if file_size <? 0 then
      _ <- emit (Stderr SeekFailed) ;; Run.ret 3
    else if (0 =? file_size)
            || negb (0 =? Z.rem file_size kTextHashLineBytes) then
      _ <- emit (Stderr (BadFileSize file_size kTextHashLineBytes)) ;;
      Run.ret 4
    else serve cfg e file_size.

End FindPwnedPasswordHash.

(** ** Command lines

    [NamePartOfPath], [IsOption] and [IsFlagOption] are the same text in
    [find-pwned.c] (lines 361-453) and in [find-pwned-password-hash.c]
    (lines 190-282).  A [const char*] is the string from the pointer to the
    terminating NUL, which the string does not contain: a pointer to the
    NUL is the empty string. *)

Module Cli.

(** [0 == *p]. *)
Definition at_end (p : string) : bool :=
  match p with
  | EmptyString => true
  | String _ _ => false
  end.

(** [*p]; the NUL reads as [zero]. *)
Definition deref (p : string) : ascii :=
  match p with
  | String c _ => c
  | EmptyString => Ascii.zero
  end.

(** [p + n]; the source never moves a pointer past the NUL, where this
    stops. *)
Fixpoint advance (n : nat) (p : string) : string :=
  match n, p with
  | S n', String _ rest => advance n' rest
  | _, _ => p
  end.

(** [p[n]]. *)
Definition index (p : string) (n : nat) : ascii := deref (advance n p).

Definition backslash : ascii := ascii_of_nat 92.

Definition is_slash (c : ascii) : bool :=
  (c =? "/")%char || (c =? backslash)%char.

(** The [for] loop of [NamePartOfPath]. *)
Fixpoint name_loop (path rval : string) : string :=
  match path with
  | EmptyString => rval
  | String c rest =>
      let rval :=
        if is_slash (index path 0)
           && negb (at_end (advance 1 path) || is_slash (index path 1))
        then advance 1 path else rval in
      name_loop rest rval
  end.

Definition NamePartOfPath (path : option string) : option string :=
  match path with
  | Some p => Some (name_loop p p)
  | None => None
  end.

(** The [while (!finished)] loop of [IsOption]: [rval] and where [input]
    stands at the end.  Every pass that does not finish moves
    [descriptor] on. *)
Fixpoint option_loop (input descriptor : string) {struct descriptor}
  : bool * string :=
  if at_end input || (deref input =? "=")%char then
    (at_end descriptor || (deref descriptor =? ":")%char, input)
  else
    match descriptor with
    | EmptyString => (false, input)
    | String d descriptor' =>
        if negb (d =? ":")%char && negb (deref input =? d)%char
        then (false, input)
        else
          option_loop
            (if negb (d =? ":")%char then advance 1 input else input)
            descriptor'
    end.

(** [IsOption(input, &value, descriptor)]: the result and the value
    stored, [None] for [NULL]. *)
Definition IsOption (input descriptor : string) : bool * option string :=
  if (deref input =? "-")%char then
    let input := advance 1 input in
    let input := if (deref input =? "-")%char then advance 1 input
                 else input in
    let '(rval, input) := option_loop input descriptor in
    (rval,
     if rval && (deref input =? "=")%char then Some (advance 1 input)
     else None)
  else (false, None).

(** [IsFlagOption(input, &flag, descriptor)]: [Some v] when it returns 1
    and stores [v] to the flag, [None] when it returns 0 and leaves the
    flag as it is. *)
Definition IsFlagOption (input descriptor : string) : option bool :=
  if (deref input =? "-")%char then
    if fst (IsOption input descriptor) then Some true
    else
      let k := if (index input 1 =? "-")%char then 1%nat else 0%nat in
      if (index input (k + 1) =? "n")%char
         && (index input (k + 2) =? "o")%char
         && (index input (k + 3) =? "-")%char
      then
        if fst (IsOption (advance (k + 3) input) descriptor)
        then Some false else None
      else None
  else None.

(** Why [ParseOptions] leaves the program, by what it prints. *)
Inductive reason : Type :=
| ShowUsage
| ShowVersion
| MissingArgument (option_name : string)
| InvalidOption (arg : string).

Inductive stop : Type := Exit (code : Z) (why : reason).

(** The [for] loop of [ParseOptions] over [argv[1]], ..., [argv[argc-1]]:
    the option variables, [end_of_options] and the arguments moved to the
    front of [argv], after the program name. *)
Section Scan.

Context {options : Type}.

Record scan : Type := mk_scan {
  opts : options;
  end_of_options : bool;
  kept : list string
}.

Variable body : scan -> string -> scan + stop.

Fixpoint loop (s : scan) (argv : list string) : scan + stop :=
  match argv with
  | [] => inl s
  | arg :: rest =>
      match body s arg with
      | inl s' => loop s' rest
      | inr e => inr e
      end
  end.

End Scan.

Arguments scan : clear implicits.

(** The first two branches of the loop body, the same in both programs:
    an argument that is kept, and the argument [--]. *)
Definition keep {options : Type} (s : scan options) (arg : string)
  : scan options :=
  {| opts := opts s; end_of_options := end_of_options s;
     kept := kept s ++ [arg] |}.

Definition is_kept {options : Type} (s : scan options) (arg : string)
  : bool :=
  end_of_options s || negb (deref arg =? "-")%char.

Definition is_double_dash (arg : string) : bool :=
  (index arg 1 =? "-")%char && at_end (advance 2 arg).

Definition set_opts {options : Type} (s : scan options) (o : options)
  : scan options :=
  {| opts := o; end_of_options := end_of_options s; kept := kept s |}.

End Cli.

(** ** find-pwned.c: options *)

Module FindPwnedOptions.

Import Cli.
Local Open Scope string_scope.

(** The globals that [ParseOptions] writes. *)
Record options : Type := mk_options {
  flags : FindPwned.config;
  g_delimiter : string;
  g_hash_file : string
}.

(** The initial values of the globals (lines 105-181). *)
Definition defaults : options :=
  {| flags := FindPwned.mk_config false false false false false true
                false true true true;
     g_delimiter := ":";
     g_hash_file := "pwned-passwords-ordered-by-hash.bin" |}.

Inductive flag : Type :=
| Verbose | Quiet | PrintIndex | PrintPassword | PrintHash | PrintCount
| Password | Secure | PrintFound | PrintNotFound.

(** [*flag_value_ptr = flag_value] for the global that [f] names. *)
Definition set_flag (f : flag) (v : bool) (o : options) : options :=
  let c := flags o in
  let '(FindPwned.mk_config a1 a2 a3 a4 a5 a6 a7 a8 a9 a10) := c in
  {| flags :=
       match f with
       | Verbose => FindPwned.mk_config v a2 a3 a4 a5 a6 a7 a8 a9 a10
       | Quiet => FindPwned.mk_config a1 v a3 a4 a5 a6 a7 a8 a9 a10
       | PrintIndex => FindPwned.mk_config a1 a2 v a4 a5 a6 a7 a8 a9 a10
       | PrintPassword => FindPwned.mk_config a1 a2 a3 v a5 a6 a7 a8 a9 a10
       | PrintHash => FindPwned.mk_config a1 a2 a3 a4 v a6 a7 a8 a9 a10
       | PrintCount => FindPwned.mk_config a1 a2 a3 a4 a5 v a7 a8 a9 a10
       | Password => FindPwned.mk_config a1 a2 a3 a4 a5 a6 v a8 a9 a10
       | Secure => FindPwned.mk_config a1 a2 a3 a4 a5 a6 a7 v a9 a10
       | PrintFound => FindPwned.mk_config a1 a2 a3 a4 a5 a6 a7 a8 v a10
       | PrintNotFound => FindPwned.mk_config a1 a2 a3 a4 a5 a6 a7 a8 a9 v
       end;
     g_delimiter := g_delimiter o;
     g_hash_file := g_hash_file o |}.

Definition set_delimiter (opt : string) (o : options) : options :=
  {| flags := flags o; g_delimiter := opt; g_hash_file := g_hash_file o |}.

Definition set_hash_file (opt : string) (o : options) : options :=
  {| flags := flags o; g_delimiter := g_delimiter o; g_hash_file := opt |}.

(** The chain of [else if] from the first flag option on: the flag
    options in the order of the source, with what comes after them. *)
Fixpoint flag_chain (arg : string) (o : options)
  (chain : list (string * flag)) (otherwise : options + stop)
  : options + stop :=
  match chain with
  | [] => otherwise
  | (descriptor, f) :: chain' =>
      match IsFlagOption arg descriptor with
      | Some v => inl (set_flag f v o)
      | None => flag_chain arg o chain' otherwise
      end
  end.

(** An option with a value: [PrintUsageError(2, ...)] leaves the program
    when the value is missing. *)
Definition value_option (arg descriptor name : string)
  (set : string -> options) (otherwise : options + stop) : options + stop :=
  match IsOption arg descriptor with
  | (true, Some opt) => inl (set opt)
  | (true, None) => inr (Exit 2 (MissingArgument name))
  | (false, _) => otherwise
  end.

(** The body of the [for] loop of [ParseOptions] (lines 481-515). *)
Definition body (s : scan options) (arg : string) : scan options + stop :=
  if is_kept s arg then inl (keep s arg)
  else if is_double_dash arg then
    inl {| opts := opts s; end_of_options := true; kept := kept s |}
  else if fst (IsOption arg "h:elp") then inr (Exit 0 ShowUsage)
  else
    let o := opts s in
    match
      flag_chain arg o [("q:uiet", Quiet)]
        (value_option arg "d:elim:iter" "--delimiter"
           (fun opt => set_delimiter opt o)
           (flag_chain arg o
              [("p:assword", Password); ("pi", PrintIndex);
               ("pp", PrintPassword); ("ph", PrintHash);
               ("pc", PrintCount)]
              (value_option arg "f:ile" "--file"
                 (fun opt => set_hash_file opt o)
                 (flag_chain arg o
                    [("s:ecure", Secure); ("pf", PrintFound);
                     ("pnf", PrintNotFound); ("v:erbose", Verbose)]
                    (if fst (IsOption arg "V")
                        || fst (IsOption arg "version")
                     then inr (Exit 0 ShowVersion)
                     else inr (Exit 2 (InvalidOption arg)))))))
    with
    | inl o' => inl (set_opts s o')
    | inr e => inr e
    end.

(** What [ParseOptions] leaves: the globals and [argv[1]], ...,
    [argv[rval-1]], or the exit. *)
Definition ParseOptions (o : options) (argv : list string)
  : options * list string + stop :=
  match loop body (mk_scan o false []) argv with
  | inl s => inl (opts s, kept s)
  | inr e => inr e
  end.

End FindPwnedOptions.

(** ** find-pwned-password-hash.c: options *)

Module FindPwnedPasswordHashOptions.

Import Cli.
Local Open Scope string_scope.

Record options : Type := mk_options {
  flags : FindPwnedPasswordHash.config;
  g_text_hash_file : string
}.

(** The initial values of the globals (lines 54-95). *)
Definition defaults : options :=
  {| flags := FindPwnedPasswordHash.mk_config false false true;
     g_text_hash_file := "pwned-passwords-ordered-2.0.txt" |}.

Inductive flag : Type := PrintHash | Password | Secure.

Definition set_flag (f : flag) (v : bool) (o : options) : options :=
  let '(FindPwnedPasswordHash.mk_config a1 a2 a3) := flags o in
  {| flags :=
       match f with
       | PrintHash => FindPwnedPasswordHash.mk_config v a2 a3
       | Password => FindPwnedPasswordHash.mk_config a1 v a3
       | Secure => FindPwnedPasswordHash.mk_config a1 a2 v
       end;
     g_text_hash_file := g_text_hash_file o |}.

Definition set_text_hash_file (opt : string) (o : options) : options :=
  {| flags := flags o; g_text_hash_file := opt |}.

Fixpoint flag_chain (arg : string) (o : options)
  (chain : list (string * flag)) (otherwise : options + stop)
  : options + stop :=
  match chain with
  | [] => otherwise
  | (descriptor, f) :: chain' =>
      match IsFlagOption arg descriptor with
      | Some v => inl (set_flag f v o)
      | None => flag_chain arg o chain' otherwise
      end
  end.

(** The body of the [for] loop of [ParseOptions] (lines 310-330);
    [PrintUsageError] of this program always leaves with status 1. *)
Definition body (s : scan options) (arg : string) : scan options + stop :=
  if is_kept s arg then inl (keep s arg)
  else if is_double_dash arg then
    inl {| opts := opts s; end_of_options := true; kept := kept s |}
  else if fst (IsOption arg "h:elp") then inr (Exit 0 ShowUsage)
  else
    let o := opts s in
    match
      flag_chain arg o
        [("p:assword", Password); ("e:cho:-hash", PrintHash)]
        (match IsOption arg "f:ile" with
         | (true, Some opt) => inl (set_text_hash_file opt o)
         | (true, None) => inr (Exit 2 (MissingArgument "--file"))
         | (false, _) =>
             flag_chain arg o [("s:ecure", Secure)]
               (inr (Exit 1 (InvalidOption arg)))
         end)
    with
    | inl o' => inl (set_opts s o')
    | inr e => inr e
    end.

Definition ParseOptions (o : options) (argv : list string)
  : options * list string + stop :=
  match loop body (mk_scan o false []) argv with
  | inl s => inl (opts s, kept s)
  | inr e => inr e
  end.

End FindPwnedPasswordHashOptions.

(** ** pwned2bin.c: text lines to binary records

    [stdin] is the list of the bytes not yet read and [stdout] the list of
    the bytes written. *)

Module Pwned2Bin.

Definition EOF : Z := -1.

(** [getchar()]: the next byte, or [EOF] at the end of the input. *)
Definition getchar (input : list Z) : Z * list Z :=
  match input with
  | c :: rest => (c, rest)
  | [] => (EOF, [])
  end.

(** [hex_val(char c)].  The argument is what [getchar] returned, converted
    to [char]: a byte below 128 stays what it is, and the three ranges lie
    below 128. *)
Definition hex_val (c : Z) : Z :=
  if (48 <=? c) && (c <=? 57) then c - 48
  else if (65 <=? c) && (c <=? 70) then 10 + c - 65
  else if (97 <=? c) && (c <=? 102) then 10 + c - 97
  else -1.

(** [get_hex_byte(&b)]: the byte stored, [None] for a return of 0, and the
    input left; both characters are read before the test. *)
Definition get_hex_byte (input : list Z) : option Z * list Z :=
  let '(c1, input) := getchar input in
  let b1 := hex_val c1 in
  let '(c0, input) := getchar input in
  let b0 := hex_val c0 in
  if (b1 <? 0) || (b0 <? 0) then (None, input)
  else (Some (16 * b1 + b0), input).

(** The [for] loop of [copy_line] from index [k], for [n] iterations:
    [line.sha] at the end, [None] after a [return 0]. *)
Fixpoint sha_loop (n : nat) (input : list Z) (sha : list Z) (k : Z)
  : option (list Z) * list Z :=
  match n with
  | O => (Some sha, input)
  | S n' =>
      match get_hex_byte input with
      | (Some b, input') => sha_loop n' input' (Mem.store sha k b) (k + 1)
      | (None, input') => (None, input')
      end
  end.

(** What [fscanf(stdin, "%u", &count)] does: [Scanned v rest] when it
    returns 1 and stores [v]; [NoMatch] when it returns 0 or [EOF];
    [OutOfRange] when the number read does not fit an [unsigned int],
    which C leaves undefined. *)
Inductive scanned : Type :=
| Scanned (value : Z) (rest : list Z)
| NoMatch
| OutOfRange.

(** The decimal digits at the front of [s], added to [acc], and what
    follows them. *)
Fixpoint scan_digits (s : list Z) (acc : Z) : Z * list Z :=
  match s with
  | c :: r =>
      if CStr.isdigit c then scan_digits r (10 * acc + (c - 48))
      else (acc, s)
  | [] => (acc, [])
  end.

(** [fscanf(stdin, "%u", &count)]: white space is skipped, then an
    optional sign and the decimal digits after it are read. *)
Definition scan_unsigned (input : list Z) : scanned :=
  let s := CStr.skip_space input in
  let negative := Mem.load s 0 =? 45 in
  let s := if (Mem.load s 0 =? 45) || (Mem.load s 0 =? 43)
           then skipn 1 s else s in
  if CStr.isdigit (Mem.load s 0) then
    let '(v, rest) := scan_digits s 0 in
    if (negative && negb (v =? 0)) || (2 ^ 32 <=? v) then OutOfRange
    else Scanned v rest
  else NoMatch.

(** [while (getchar() == ' ');]: the blanks and the character after them
    are read. *)
Fixpoint skip_blanks (input : list Z) : list Z :=
  match input with
  | c :: rest => if c =? 32 then skip_blanks rest else rest
  | [] => []
  end.

(** What a call of [copy_line] does: [Wrote record sha rest] when it
    writes the 24 bytes of [line] and returns 1, [sha] being [line.sha]
    after the call; [Stopped] when it returns 0. *)
Inductive copied : Type :=
| Wrote (record sha rest : list Z)
| Stopped
| Undefined.

(** [copy_line()]; [line.count] is stored least significant byte
    first. *)
Definition copy_line (sha : list Z) (input : list Z) : copied :=
  match sha_loop 20 input sha 0 with
  | (None, _) => Stopped
  | (Some sha, input) =>
      let '(c, input) := getchar input in
      if negb (c =? 58) then Stopped
      else
        match scan_unsigned input with
        | NoMatch => Stopped
        | OutOfRange => Undefined
        | Scanned count input =>
            let record := sha ++ Sha1.word_bytes (Sha1.u32 count) in
            let input := skip_blanks input in
            let '(_, input) := getchar input in
            Wrote record sha input
        end
  end.

(** The loop of [main], for at most [fuel] lines: what was written when
    [copy_line] returned 0; [None] while the loop is running, or after an
    undefined conversion. *)
Fixpoint main_loop (fuel : nat) (sha input out : list Z)
  : option (list Z) :=
  match fuel with
  | O => None
  | S fuel' =>
      match copy_line sha input with
      | Wrote record sha' rest => main_loop fuel' sha' rest (out ++ record)
      | Stopped => Some out
      | Undefined => None
      end
  end.

(** [main]: every line that is copied takes characters from the input,
    so one pass more than the input has bytes is enough. *)
Definition main (input : list Z) : option (list Z) :=
  main_loop (S (List.length input)) (repeat 0 20) input [].

End Pwned2Bin.

(** * Vocabulary of the properties *)

(** ** Buffers and messages *)

Section Vocabulary.

Import Sha1.

(** [src] written over [dst] from index [off]. *)
Definition splice (dst : list Z) (off : nat) (src : list Z) : list Z :=
  firstn off dst ++ src ++ skipn (off + List.length src) dst.

(** The state after one more input byte [x]: the byte goes to the staging
    buffer at the fill level, and a full buffer is compressed. *)
Definition feed (s : sha1_t) (x : Z) : sha1_t :=
  let used := bytes s mod SHA1_BLOCK_BYTES in
  let blk := Mem.store (block s) used x in
  if used =? SHA1_BLOCK_BYTES - 1 then
    {| h := sha1_hash_block (h s) blk;
       block := blk;
       bytes := u64 (bytes s + 1);
       blocks := u32 (blocks s + 1);
       flags := flags s |}
  else
    {| h := h s;
       block := blk;
       bytes := u64 (bytes s + 1);
       blocks := blocks s;
       flags := flags s |}.

(** The states the code works on: a 64-byte buffer and a counter in the
    range of [uint64_t]. *)
Definition wf (s : sha1_t) : Prop :=
  List.length (block s) = 64%nat /\ 0 <= bytes s < 2 ^ 64.

(** The first [n] 64-byte blocks of [msg]. *)
Fixpoint chunks (n : nat) (msg : list Z) : list (list Z) :=
  match n with
  | O => []
  | S n' => firstn 64 msg :: chunks n' (skipn 64 msg)
  end.

(** The blocks of [msg] that are complete, and the bytes after them. *)
Definition full_blocks (msg : list Z) : list (list Z) :=
  chunks (List.length msg / 64) msg.

Definition staged (msg : list Z) : list Z :=
  skipn (64 * (List.length msg / 64)) msg.

(** [sha1_update] once per fragment, in order. *)
Definition stream (st : option sha1_t) (frags : list (list Z))
  : option sha1_t :=
  fold_left
    (fun st frag => sha1_update st (Some frag) (Z.of_nat (List.length frag)))
    frags st.

(** [s] is the state after the input [msg]. *)
Definition tracks (s : sha1_t) (msg : list Z) : Prop :=
  wf s
  /\ bytes s = Z.of_nat (List.length msg) mod 2 ^ 64
  /\ firstn (List.length msg mod 64) (block s) = staged msg
  /\ h s = fold_left sha1_hash_block (full_blocks msg) (h sha1_initialized)
  /\ blocks s = Z.of_nat (List.length msg / 64) mod 2 ^ 32.

(** A 64-bit value as eight bytes, most significant first. *)
Definition be64 (v : Z) : list Z :=
  map (fun k => Z.land (Z.shiftr v k) 0xFF)
    [0x38; 0x30; 0x28; 0x20; 0x18; 0x10; 0x08; 0x00].

(** The value of a big-endian byte string. *)
Definition be_value (b : list Z) : Z :=
  fold_left (fun acc x => acc * 256 + x) b 0.

(** What follows a message of [N] bytes: the byte 0x80, zero bytes up to
    8 bytes before the end of a block, and the bit count. *)
Definition padding (N : Z) : list Z :=
  [0x80] ++ repeat 0 (Z.to_nat ((55 - N) mod 64)) ++ be64 (8 * N).

End Vocabulary.

(** ** The bounds of the search loop *)

Section SearchVocabulary.

Import Bisect.

Variable cmp_at : Z -> option Z.
Variable count_at : Z -> Z.
Variable n : Z.

(** Bounds that the loop can reach. *)
Definition inside (s : bounds) : Prop :=
  0 <= lo s <= hi s /\ hi s < n /\ mid s = Z.quot (lo s + hi s) 2.

(** The two ways out of the loop: an exact match at [mid], or [lo == mid]
    without a match. *)
Definition exits (s : bounds) (r : result) : Prop :=
  (cmp_at (mid s) = Some 0 /\ r = Ret 1 (count_at (mid s)))
  \/ (lo s = mid s /\ (exists c, cmp_at (mid s) = Some c /\ c <> 0)
      /\ r = Ret 0 0).

End SearchVocabulary.

(** ** Sample corpora *)

Module Samples.

Import Bisect.

(** The hash of record [i]: the index in the first two bytes, so that the
    records are in ascending order. *)
Definition sample_hash (i : Z) : list Z := [i / 256; i mod 256] ++ repeat 0 18.

Definition sample_count (i : Z) : Z := 1000 + i.

(** A binary record: 20 hash bytes and the count, least significant byte
    first. *)
Definition bin_record (i : Z) : list Z :=
  sample_hash i ++ Sha1.word_bytes (sample_count i).

Definition bin_corpus (n : nat) : list Z :=
  flat_map (fun i => bin_record (Z.of_nat i)) (seq 0 n).

Definition hexdigit (d : Z) : Z := if d <? 10 then 48 + d else 55 + d.

Definition text_of (b : list Z) : string :=
  string_of_list_ascii (map (fun c => ascii_of_nat (Z.to_nat c)) b).

(** The text of the hash of record [i]: 40 upper-case hex digits. *)
Definition sample_text (i : Z) : string :=
  text_of (flat_map (fun x => [hexdigit (x / 16); hexdigit (x mod 16)])
             (sample_hash i)).

(** A text record: the hash, a colon, the count in four digits, blanks
    and a line end, 63 bytes in all. *)
Definition text_record (i : Z) : list Z :=
  CStr.chars (sample_text i) ++ [58]
    ++ map (fun k => 48 + (sample_count i / k) mod 10) [1000; 100; 10; 1]
    ++ repeat 32 16 ++ [13; 10].

Definition text_corpus (n : nat) : list Z :=
  flat_map (fun i => text_record (Z.of_nat i)) (seq 0 n).

Definition is_ret (r : option result) (found count : Z) : bool :=
  match r with
  | Some (Ret f c) => (f =? found) && (c =? count)
  | _ => false
  end.

(** In a corpus of [n] records, every record before the last is found
    with its count. *)
Definition bin_finds_before_last (n : nat) : bool :=
  let data := bin_corpus n in
  forallb
    (fun i => is_ret (FindPwned.find_hash data (24 * Z.of_nat n)
                        (sample_hash (Z.of_nat i)))
                1 (sample_count (Z.of_nat i)))
    (seq 0 (n - 1)).

Definition text_finds_before_last (n : nat) : bool :=
  let data := text_corpus n in
  forallb
    (fun i => is_ret (FindPwnedPasswordHash.find_hash data
                        (63 * Z.of_nat n) (sample_text (Z.of_nat i)) 0)
                1 (sample_count (Z.of_nat i)))
    (seq 0 (n - 1)).

Definition bin_config : FindPwned.config :=
  FindPwned.mk_config false false true false true true false true true true.

Definition bin_env (size : Z) (queries : list string) : FindPwned.env :=
  FindPwned.mk_env true size (Some (bin_corpus 2)) queries [] false.

Definition text_config : FindPwnedPasswordHash.config :=
  FindPwnedPasswordHash.mk_config true false true.

Definition text_env (size : Z) (queries : list string)
  : FindPwnedPasswordHash.env :=
  FindPwnedPasswordHash.mk_env true size (Some (text_corpus 2)) queries
    [] false.

End Samples.

(** ** The compression round on machine integers

    The same rounds as [sha1_hash_block], on the 63-bit integers of the
    prover, each word kept below 2^32.  [fast_blocks] relates the two; the
    digest of a long input is evaluated with these. *)

Module Fast.

Import Sha1.
Local Open Scope uint63_scope.

Definition mask32 : int := 0xFFFFFFFF.

Definition w32 (x : int) : int := x land mask32.

Definition rotl (x c : int) : int := w32 (x << c) lor (x >> (32 - c)).

Definition round (w : list int) (i : Z) (v : int * int * int * int * int)
  : int * int * int * int * int :=
  let '(a, b, c, d, e) := v in
  let '(f, k) :=
    if (i <? 0x14)%Z then
      ((b land c) lor ((b lxor mask32) land d), 0x5A827999)
    else if (i <? 0x28)%Z then
      ((b lxor c) lxor d, 0x6ED9EBA1)
    else if (i <? 0x3C)%Z then
      (((b land c) lor (b land d)) lor (c land d), 0x8F1BBCDC)
    else
      ((b lxor c) lxor d, 0xCA62C1D6) in
  let temp := rotl a 5 in
  let temp :=
    w32 (temp + w32 (w32 (w32 (f + e) + k) + nth (Z.to_nat i) w 0)) in
  (temp, a, rotl b 30, c, d).

Fixpoint rounds (n : nat) (w : list int) (i : Z)
  (v : int * int * int * int * int) : int * int * int * int * int :=
  match n with
  | O => v
  | S n' => rounds n' w (i + 1)%Z (round w i v)
  end.

(** One block, [w] being its message schedule. *)
Definition hash_block (w : list int) (v : int * int * int * int * int)
  : int * int * int * int * int :=
  let '(a, b, c, d, e) := v in
  let '(a', b', c', d', e') := rounds 80 w 0%Z v in
  (w32 (a + a'), w32 (b + b'), w32 (c + c'), w32 (d + d'), w32 (e + e')).

(** [n] blocks with the same schedule. *)
Fixpoint iter (n : nat) (w : list int) (v : int * int * int * int * int)
  : int * int * int * int * int :=
  match n with
  | O => v
  | S n' => iter n' w (hash_block w v)
  end.

(** The five words as the array [h]. *)
Definition words (v : int * int * int * int * int) : list Z :=
  let '(a, b, c, d, e) := v in
  [Uint63.to_Z a; Uint63.to_Z b; Uint63.to_Z c; Uint63.to_Z d; Uint63.to_Z e].

(** The five words as the working variables of [Sha1.round]. *)
Definition values (v : int * int * int * int * int) : Z * Z * Z * Z * Z :=
  let '(a, b, c, d, e) := v in
  (Uint63.to_Z a, Uint63.to_Z b, Uint63.to_Z c, Uint63.to_Z d,
   Uint63.to_Z e).

(** Words below 2^32. *)
Definition small (x : int) : Prop := Sha1.u32 (Uint63.to_Z x) = Uint63.to_Z x.

Definition small5 (v : int * int * int * int * int) : Prop :=
  let '(a, b, c, d, e) := v in
  small a /\ small b /\ small c /\ small d /\ small e.

End Fast.

(** ** The input of one million bytes 'a' *)

Module Million.

Import Sha1.

(** A block of 64 bytes 'a', and its message schedule as machine
    integers. *)
Definition block_a : list Z := repeat 97 64.

Definition schedule_a : list int :=
  Eval vm_compute in map Uint63.of_Z (schedule block_a).

(** The initial accumulator as machine integers. *)
Definition h_init : int * int * int * int * int :=
  (0x67452301, 0xEFCDAB89, 0x98BADCFE, 0x10325476, 0xC3D2E1F0)%uint63.

(** The padding after 1,000,000 bytes: one block. *)
Definition final_block : list Z := Eval vm_compute in padding 1000000.

End Million.

(** ** Sorted corpora *)

Section CorpusVocabulary.

(** The hash field of record [i] of a binary corpus. *)
Definition bin_hash (data : list Z) (i : Z) : list Z :=
  firstn 20 (skipn (Z.to_nat (24 * i)) data).

(** A binary corpus of [n] records in strictly ascending order of
    [memcmp]. *)
Definition bin_sorted (data : list Z) (n : Z) : Prop :=
  forall i j, 0 <= i -> i < j -> j < n ->
    CStr.memcmp (bin_hash data i) (bin_hash data j) 20 < 0.

(** Line [i] of a text corpus, from its first byte on. *)
Definition text_line (data : list Z) (i : Z) : list Z :=
  skipn (Z.to_nat (i * 63)) data.


End CorpusVocabulary.

(** ** States of the digest engine *)

Section DigestVocabulary.

Import Sha1.

(** A state with another value of [flags]. *)
Definition with_flags (f : Z) (s : sha1_t) : sha1_t :=
  {| h := h s; block := block s; bytes := bytes s; blocks := blocks s;
     flags := f |}.

(** The digest of a finished state as 20 bytes, most significant byte of
    each word first. *)
Definition digest_bytes (s : sha1_t) : list Z :=
  flat_map (fun x => rev (word_bytes x)) (h s).

End DigestVocabulary.

(** ** Hex text *)

Section HexVocabulary.

(** The bytes that the first [2 * n] characters of [input] denote, two hex
    digits per byte. *)
Definition hex_bytes (input : list Z) (n : nat) : list Z :=
  map (fun k => FindPwned.hexval (Mem.load input (2 * Z.of_nat k)) * 16
                + FindPwned.hexval (Mem.load input (2 * Z.of_nat k + 1)))
    (seq 0 n).

(** The characters read by the loop of [handle_input] are hex digits. *)
Definition hex_text (input : list Z) (n : nat) : Prop :=
  forall k, 0 <= k < 2 * Z.of_nat n ->
    0 <= FindPwned.hexval (Mem.load input k).

End HexVocabulary.

(** ** Runs of the programs *)

Section RunVocabulary.

(** A string of [k] newline characters. *)
Definition newlines (k : nat) : string :=
  string_of_list_ascii (repeat "010"%char k).

(** What [handle_input] of [find-pwned.c] returns for a query. *)
Definition answer (cfg : FindPwned.config) (input : string)
  (file_data : list Z) (file_size : Z) : Run.outcome Z :=
  snd (FindPwned.handle_input cfg input file_data file_size
         FindPwned.initial).

(** The query was malformed or its hash was not found. *)
Definition missed (cfg : FindPwned.config) (file_data : list Z)
  (file_size : Z) (input : string) : bool :=
  match answer cfg input file_data file_size with
  | Run.Value found => found =? 0
  | _ => false
  end.

(** The queries of a run of [find-pwned.c]: the arguments, or without
    arguments the lines of the input without their newlines. *)
Definition queries (e : FindPwned.env) : list string :=
  match FindPwned.args e with
  | [] => map FindPwned.chomp (FindPwned.stdin e)
  | _ :: _ => FindPwned.args e
  end.

End RunVocabulary.

(** ** Option names *)

Section OptionVocabulary.

(** The names that a descriptor accepts: the descriptor without its
    colons, cut at a colon or at its end. *)
Fixpoint abbreviations (descriptor : string) : list string :=
  match descriptor with
  | EmptyString => [EmptyString]
  | String d descriptor' =>
      if (d =? ":")%char then EmptyString :: abbreviations descriptor'
      else map (String d) (abbreviations descriptor')
  end.

Definition accepts (descriptor name : string) : bool :=
  existsb (String.eqb name) (abbreviations descriptor).

(** A name holds no [=]. *)
Fixpoint plain (name : string) : bool :=
  match name with
  | EmptyString => true
  | String c rest => negb (c =? "=")%char && plain rest
  end.

(** What follows the name of an option: [=value], or nothing. *)
Definition value_suffix (value : option string) : string :=
  match value with
  | Some v => String "=" v
  | None => EmptyString
  end.

(** A path component: no slash and no backslash in it. *)
Fixpoint no_slash (name : string) : bool :=
  match name with
  | EmptyString => true
  | String c rest => negb (Cli.is_slash c) && no_slash rest
  end.

End OptionVocabulary.

(** ** Option tables *)

Section OptionTables.

Local Open Scope string_scope.

(** An argument that does not begin with a dash. *)
Definition no_dash (arg : string) : bool :=
  negb (Cli.deref arg =? "-")%char.

(** A name that begins with [no-]. *)
Definition begins_no (name : string) : bool :=
  (Cli.index name 0 =? "n")%char && (Cli.index name 1 =? "o")%char
  && (Cli.index name 2 =? "-")%char.

(** The flag options in the usage text of [find-pwned], and those of
    [find-pwned-password-hash]. *)
Definition bin_flag_options : list (string * FindPwnedOptions.flag) :=
  [("q:uiet", FindPwnedOptions.Quiet);
   ("p:assword", FindPwnedOptions.Password);
   ("pi", FindPwnedOptions.PrintIndex);
   ("pp", FindPwnedOptions.PrintPassword);
   ("ph", FindPwnedOptions.PrintHash);
   ("pc", FindPwnedOptions.PrintCount);
   ("s:ecure", FindPwnedOptions.Secure);
   ("pf", FindPwnedOptions.PrintFound);
   ("pnf", FindPwnedOptions.PrintNotFound);
   ("v:erbose", FindPwnedOptions.Verbose)].

Definition text_flag_options
  : list (string * FindPwnedPasswordHashOptions.flag) :=
  [("p:assword", FindPwnedPasswordHashOptions.Password);
   ("e:cho:-hash", FindPwnedPasswordHashOptions.PrintHash);
   ("s:ecure", FindPwnedPasswordHashOptions.Secure)].

(** The four spellings of a flag option: one or two dashes, and [no-]
    before the name for the value 0. *)
Definition spellings (name : string) : list (string * bool) :=
  [("-" ++ name, true); ("--" ++ name, true);
   ("-no-" ++ name, false); ("--no-" ++ name, false)].

End OptionTables.

Section OptionDescriptors.

Local Open Scope string_scope.



(** The spellings of an option that is not a flag. *)
Definition dashed (names : list string) (rest : string) : list string :=
  flat_map (fun name => ["-" ++ name ++ rest; "--" ++ name ++ rest]) names.

End OptionDescriptors.

(** ** Text corpora *)

Section CorpusEntries.

(** A line of a text corpus: the 40 characters of the hash, the digits of
    the count, and the number of blanks before the line end. *)
Record entry : Type := mk_entry {
  hex : list Z;
  digits : list Z;
  blanks : nat
}.

(** The line with a CR LF end, and with a bare LF. *)
Definition line_of (e : entry) : list Z :=
  hex e ++ [58] ++ digits e ++ repeat 32 (blanks e) ++ [13; 10].

Definition lf_line_of (e : entry) : list Z :=
  hex e ++ [58] ++ digits e ++ repeat 32 (blanks e) ++ [10].

Definition value_of (e : entry) : Z := CStr.digits (digits e) 0.

(** The binary record of the line. *)
Definition record_of (e : entry) : list Z :=
  hex_bytes (hex e) 20 ++ Sha1.word_bytes (value_of e).

(** 40 hex digits, and a count of one digit or more below 2^32. *)
Definition well_formed (e : entry) : Prop :=
  List.length (hex e) = 40%nat
  /\ hex_text (hex e) 20
  /\ digits e <> []
  /\ Forall (fun c => CStr.isdigit c = true) (digits e)
  /\ value_of e < 2 ^ 32.

(** A line of 63 bytes whose count fits an [int]. *)
Definition fixed_width (e : entry) : Prop :=
  (List.length (digits e) + blanks e = 20)%nat /\ value_of e < 2 ^ 31.

End CorpusEntries.

Section Signs.

(** Two results of a comparison that the search cannot tell apart. *)
Definition same_sign (a b : Z) : Prop :=
  (0 =? a) = (0 =? b) /\ (a <? 0) = (b <? 0).

End Signs.

(** ** Echo changes *)

Section EchoVocabulary.









(** The sample lines as entries of a text corpus. *)
Definition sample_entry (i : Z) : entry :=
  {| hex := CStr.chars (Samples.sample_text i);
     digits := map (fun k => 48 + (Samples.sample_count i / k) mod 10)
                 [1000; 100; 10; 1];
     blanks := 16 |}.

End EchoVocabulary.

(** * Properties *)

(** ** Buffers *)

Section BufferFacts.

Lemma firstn_app_le {A} n (l l' : list A) :
  (n <= List.length l)%nat -> firstn n (l ++ l') = firstn n l.
Proof.
  intros H. rewrite firstn_app.
  replace (n - List.length l)%nat with 0%nat by lia.
  rewrite firstn_O. apply app_nil_r.
Qed.

Lemma skipn_app_le {A} n (l l' : list A) :
  (n <= List.length l)%nat -> skipn n (l ++ l') = skipn n l ++ l'.
Proof.
  intros H. rewrite skipn_app.
  replace (n - List.length l)%nat with 0%nat by lia.
  now rewrite skipn_O.
Qed.

Lemma store_splice dst off c :
  0 <= off -> Mem.store dst off c = splice dst (Z.to_nat off) [c].
Proof.
  intros Hoff. unfold Mem.store, splice. cbn [List.length app].
  do 3 f_equal. lia.
Qed.

Lemma memset_splice dst off c n :
  0 <= off -> 0 <= n ->
  Mem.memset dst off c n = splice dst (Z.to_nat off) (repeat c (Z.to_nat n)).
Proof.
  intros Hoff Hn. unfold Mem.memset, splice. rewrite repeat_length.
  do 3 f_equal. lia.
Qed.

Lemma memcpy_splice dst off src n :
  0 <= off -> 0 <= n -> n <= Z.of_nat (List.length src) ->
  Mem.memcpy dst off src n
  = splice dst (Z.to_nat off) (firstn (Z.to_nat n) src).
Proof.
  intros Hoff Hn Hlen. unfold Mem.memcpy, splice.
  rewrite firstn_length_le by lia. do 3 f_equal. lia.
Qed.

Lemma splice_length dst off src :
  (off + List.length src <= List.length dst)%nat ->
  List.length (splice dst off src) = List.length dst.
Proof.
  intros H. unfold splice.
  rewrite !length_app, firstn_length_le, length_skipn by lia. lia.
Qed.

Lemma splice_nil dst off : splice dst off [] = dst.
Proof.
  unfold splice. cbn [List.length app]. rewrite Nat.add_0_r.
  apply firstn_skipn.
Qed.

Lemma firstn_splice dst off src :
  (off <= List.length dst)%nat ->
  firstn (off + List.length src) (splice dst off src)
  = firstn off dst ++ src.
Proof.
  intros H. unfold splice. rewrite app_assoc.
  rewrite firstn_app.
  rewrite length_app, firstn_length_le by lia.
  replace (off + List.length src - (off + List.length src))%nat with 0%nat
    by lia.
  cbn [firstn]. rewrite app_nil_r.
  apply firstn_all2. rewrite length_app, firstn_length_le; lia.
Qed.

Lemma skipn_splice dst off src :
  (off <= List.length dst)%nat ->
  skipn (off + List.length src) (splice dst off src)
  = skipn (off + List.length src) dst.
Proof.
  intros H. unfold splice. rewrite app_assoc.
  rewrite skipn_app.
  rewrite length_app, firstn_length_le by lia.
  replace (off + List.length src - (off + List.length src))%nat with 0%nat
    by lia.
  cbn [skipn].
  rewrite skipn_all2; [reflexivity|].
  rewrite length_app, firstn_length_le; lia.
Qed.

Lemma firstn_splice_before dst off src :
  (off <= List.length dst)%nat ->
  firstn off (splice dst off src) = firstn off dst.
Proof.
  intros H. unfold splice.
  rewrite firstn_app, firstn_length_le by lia.
  replace (off - off)%nat with 0%nat by lia.
  cbn [firstn]. rewrite app_nil_r.
  apply firstn_all2. rewrite firstn_length_le; lia.
Qed.

(** Two writes, the second right after the first, are one write. *)
Lemma splice_splice dst off a b :
  (off <= List.length dst)%nat ->
  splice (splice dst off a) (off + List.length a) b
  = splice dst off (a ++ b).
Proof.
  intros H. unfold splice at 1.
  rewrite firstn_splice by lia.
  replace (off + List.length a + List.length b)%nat
    with (List.length b + (off + List.length a))%nat by lia.
  rewrite <- skipn_skipn, skipn_splice, skipn_skipn by lia.
  unfold splice. rewrite length_app, <- !app_assoc.
  do 3 f_equal. f_equal. lia.
Qed.

(** A write that covers the whole buffer. *)
Lemma splice_all dst src :
  List.length src = List.length dst -> splice dst 0 src = src.
Proof.
  intros H. unfold splice. cbn [firstn app Nat.add].
  rewrite skipn_all2 by lia. apply app_nil_r.
Qed.

(** A write that reaches the end of the buffer. *)
Lemma splice_tail dst off src :
  (off + List.length src = List.length dst)%nat ->
  splice dst off src = firstn off dst ++ src.
Proof.
  intros H. unfold splice. rewrite skipn_all2 by lia.
  now rewrite app_nil_r.
Qed.

End BufferFacts.

(** ** The streaming state of the digest engine *)

Section Streaming.

Import Sha1.

Lemma u64_mod x : u64 x = x mod 2 ^ 64.
Proof.
  unfold u64. change 0xFFFFFFFFFFFFFFFF with (Z.ones 64).
  apply Z.land_ones. lia.
Qed.

Lemma u32_mod x : u32 x = x mod 2 ^ 32.
Proof.
  unfold u32. change 0xFFFFFFFF with (Z.ones 32).
  apply Z.land_ones. lia.
Qed.

Lemma u64_range x : 0 <= u64 x < 2 ^ 64.
Proof. rewrite u64_mod. apply Z.mod_pos_bound. lia. Qed.

Lemma u64_fill x k : u64 (x + k) mod 64 = (x + k) mod 64.
Proof.
  rewrite u64_mod. change (2 ^ 64) with 18446744073709551616.
  Z.div_mod_to_equations. lia.
Qed.

Lemma u64_u64_add x a b : u64 (u64 (x + a) + b) = u64 (x + (a + b)).
Proof.
  rewrite !u64_mod, Zplus_mod_idemp_l. f_equal. lia.
Qed.

Lemma u64_id x : 0 <= x < 2 ^ 64 -> u64 x = x.
Proof. intros H. rewrite u64_mod. apply Z.mod_small. exact H. Qed.

Lemma wf_feed s x : wf s -> wf (feed s x).
Proof.
  intros [Hlen Hb]. unfold feed, wf.
  assert (Hu : 0 <= bytes s mod SHA1_BLOCK_BYTES < 64)
    by (apply Z.mod_pos_bound; reflexivity).
  assert (Hl : List.length (Mem.store (block s) (bytes s mod SHA1_BLOCK_BYTES) x)
               = 64%nat).
  { rewrite store_splice by lia. rewrite splice_length; [exact Hlen|].
    cbn [List.length]. lia. }
  destruct (_ =? _); cbn [block bytes]; split; auto using u64_range.
Qed.

Lemma wf_fold_feed b : forall s, wf s -> wf (fold_left feed b s).
Proof.
  induction b as [|x b IH]; intros s Hs; cbn [fold_left]; auto using wf_feed.
Qed.

(** Feeding bytes that do not fill the buffer only stages them. *)
Lemma feed_partial b : forall s,
  wf s ->
  bytes s mod 64 + Z.of_nat (List.length b) < 64 ->
  fold_left feed b s
  = {| h := h s;
       block := splice (block s) (Z.to_nat (bytes s mod 64)) b;
       bytes := u64 (bytes s + Z.of_nat (List.length b));
       blocks := blocks s;
       flags := flags s |}.
Proof.
  induction b as [|x b IH]; intros s Hwf Hfit.
  - cbn [fold_left List.length Z.of_nat]. rewrite splice_nil, Z.add_0_r.
    destruct Hwf as [_ Hb]. rewrite u64_id by exact Hb. now destruct s.
  - cbn [fold_left].
    assert (Hu : 0 <= bytes s mod 64 < 64) by (apply Z.mod_pos_bound; lia).
    cbn [List.length] in Hfit.
    rewrite IH; [| auto using wf_feed |].
    + unfold feed. change SHA1_BLOCK_BYTES with 64.
      destruct (Z.eqb_spec (bytes s mod 64) (64 - 1)) as [E|_]; [lia|].
      cbn [h block bytes blocks flags].
      rewrite u64_fill, u64_u64_add.
      rewrite store_splice by lia.
      replace ((bytes s + 1) mod 64) with (bytes s mod 64 + 1).
      2:{ rewrite <- (Z.mod_small (bytes s mod 64 + 1) 64) by lia.
          rewrite Zplus_mod_idemp_l. reflexivity. }
      replace (Z.to_nat (bytes s mod 64 + 1))
        with (Z.to_nat (bytes s mod 64) + List.length [x])%nat
        by (cbn [List.length]; lia).
      rewrite splice_splice by (destruct Hwf; lia).
      cbn [app List.length]. do 2 f_equal. f_equal. lia.
    + unfold feed. change SHA1_BLOCK_BYTES with 64.
      destruct (_ =? _); cbn [bytes]; rewrite u64_fill;
        rewrite <- Zplus_mod_idemp_l, Z.mod_small; lia.
Qed.

(** Feeding bytes that exactly fill the buffer compresses it once. *)
Lemma feed_fill b s :
  wf s ->
  bytes s mod 64 + Z.of_nat (List.length b) = 64 ->
  fold_left feed b s
  = let blk := splice (block s) (Z.to_nat (bytes s mod 64)) b in
    {| h := sha1_hash_block (h s) blk;
       block := blk;
       bytes := u64 (bytes s + Z.of_nat (List.length b));
       blocks := u32 (blocks s + 1);
       flags := flags s |}.
Proof.
  intros Hwf Hfit.
  assert (Hu : 0 <= bytes s mod 64 < 64) by (apply Z.mod_pos_bound; lia).
  destruct (exists_last (l := b)) as (r & x & ->).
  { intros ->. cbn in Hfit. lia. }
  rewrite length_app in Hfit. cbn [List.length] in Hfit.
  rewrite fold_left_app. cbn [fold_left].
  rewrite feed_partial by (auto; lia).
  unfold feed. cbn [h block bytes blocks flags].
  rewrite u64_fill. change SHA1_BLOCK_BYTES with 64.
  assert (E : (bytes s + Z.of_nat (List.length r)) mod 64 = 64 - 1).
  { rewrite <- Zplus_mod_idemp_l, Z.mod_small; lia. }
  rewrite E, Z.eqb_refl. rewrite store_splice by lia.
  replace (Z.to_nat (64 - 1))
    with (Z.to_nat (bytes s mod 64) + List.length r)%nat by lia.
  rewrite splice_splice by (destruct Hwf; lia).
  rewrite u64_u64_add, length_app. cbn [List.length].
  cbv zeta. do 2 f_equal. f_equal. lia.
Qed.

Lemma bytes_feed s x : bytes (feed s x) = u64 (bytes s + 1).
Proof. unfold feed. now destruct (_ =? _). Qed.

Lemma flags_feed s x : flags (feed s x) = flags s.
Proof. unfold feed. now destruct (_ =? _). Qed.

Lemma bytes_fold_feed b : forall s,
  wf s ->
  bytes (fold_left feed b s) = u64 (bytes s + Z.of_nat (List.length b)).
Proof.
  induction b as [|x b IH]; intros s Hwf.
  - cbn [fold_left List.length Z.of_nat]. rewrite Z.add_0_r.
    symmetry. apply u64_id, Hwf.
  - cbn [fold_left]. rewrite IH by auto using wf_feed.
    rewrite bytes_feed, u64_u64_add. f_equal. cbn [List.length]. lia.
Qed.

Lemma flags_fold_feed b : forall s, flags (fold_left feed b s) = flags s.
Proof.
  induction b as [|x b IH]; intros s; cbn [fold_left]; [reflexivity|].
  now rewrite IH, flags_feed.
Qed.

Lemma firstn_add {A} (n m : nat) (l : list A) :
  firstn (n + m) l = firstn n l ++ firstn m (skipn n l).
Proof.
  revert l. induction n as [|n IH]; intros l; [reflexivity|].
  destruct l as [|a l]; cbn [Nat.add firstn skipn app].
  - now rewrite firstn_nil.
  - now rewrite IH.
Qed.

(** The loop over full blocks feeds the whole blocks of [b] and leaves the
    rest; it stops because the data runs out, not the fuel. *)
Lemma update_loop_feed fuel : forall s b,
  wf s ->
  bytes s mod 64 = 0 ->
  (List.length b / 64 <= fuel)%nat ->
  update_loop fuel s b (Z.of_nat (List.length b))
  = (fold_left feed (firstn (64 * (List.length b / 64)) b) s,
     skipn (64 * (List.length b / 64)) b,
     Z.of_nat (List.length b mod 64)).
Proof.
  induction fuel as [|fuel IH]; intros s b Hwf Hal Hfuel.
  - assert (Hq : (List.length b / 64 = 0)%nat) by lia.
    cbn [update_loop]. rewrite Hq. cbn [Nat.mul firstn skipn fold_left].
    do 2 f_equal. zify. Z.div_mod_to_equations. lia.
  - cbn [update_loop]. change SHA1_BLOCK_BYTES with 64.
    destruct (Z.leb_spec 64 (Z.of_nat (List.length b))) as [Hge|Hlt].
    + set (b0 := firstn 64 b). set (b1 := skipn 64 b).
      assert (L0 : List.length b0 = 64%nat)
        by (unfold b0; rewrite firstn_length_le; lia).
      assert (L1 : List.length b1 = (List.length b - 64)%nat)
        by (unfold b1; apply length_skipn).
      assert (Hq : (List.length b / 64 = S (List.length b1 / 64))%nat).
      { rewrite L1. zify. Z.div_mod_to_equations. lia. }
      assert (Hr : (List.length b mod 64 = List.length b1 mod 64)%nat).
      { rewrite L1. zify. Z.div_mod_to_equations. lia. }
      pose proof (feed_fill b0 s Hwf) as Hfill.
      rewrite Hal, L0 in Hfill. specialize (Hfill eq_refl).
      cbv zeta in Hfill. change (Z.to_nat 0) with 0%nat in Hfill.
      rewrite splice_all in Hfill by (destruct Hwf; lia).
      rewrite memcpy_splice by lia.
      change (Z.to_nat 0) with 0%nat. change (Z.to_nat 64) with 64%nat.
      fold b0 b1. rewrite splice_all by (destruct Hwf; lia).
      change (Z.of_nat 64) with 64 in Hfill. rewrite <- Hfill.
      replace (Z.of_nat (List.length b) - 64) with (Z.of_nat (List.length b1))
        by lia.
      rewrite IH.
      * rewrite Hq, Hr.
        replace (64 * S (List.length b1 / 64))%nat
          with (64 + 64 * (List.length b1 / 64))%nat by lia.
        rewrite firstn_add, fold_left_app. fold b0 b1.
        rewrite Nat.add_comm, <- skipn_skipn. reflexivity.
      * apply wf_fold_feed, Hwf.
      * rewrite bytes_fold_feed, u64_fill, L0 by exact Hwf.
        change (Z.of_nat 64) with 64.
        rewrite <- Zplus_mod_idemp_l, Hal. reflexivity.
      * lia.
    + assert (Hq : (List.length b / 64 = 0)%nat).
      { zify. Z.div_mod_to_equations. lia. }
      rewrite Hq. cbn [Nat.mul firstn skipn fold_left].
      do 2 f_equal. zify. Z.div_mod_to_equations. lia.
Qed.

(** [sha1_update] on a non-null buffer is byte-by-byte feeding. *)
Lemma update_body_feed s b :
  wf s ->
  update_body s b (Z.of_nat (List.length b)) = fold_left feed b s.
Proof.
  intros Hwf. unfold update_body. change SHA1_BLOCK_BYTES with 64.
  assert (Hu : 0 <= bytes s mod 64 < 64) by (apply Z.mod_pos_bound; lia).
  destruct (Z.ltb_spec (Z.of_nat (List.length b)) (64 - bytes s mod 64))
    as [Hlt|Hge].
  - rewrite feed_partial by (auto; lia).
    rewrite memcpy_splice by lia.
    rewrite Nat2Z.id, firstn_all. reflexivity.
  - set (free := Z.to_nat (64 - bytes s mod 64)).
    set (b0 := firstn free b). set (b1 := skipn free b).
    assert (L0 : List.length b0 = free)
      by (unfold b0; rewrite firstn_length_le; lia).
    assert (L1 : List.length b1 = (List.length b - free)%nat)
      by (unfold b1; apply length_skipn).
    pose proof (feed_fill b0 s Hwf) as Hfill.
    rewrite L0 in Hfill. cbv zeta in Hfill.
    rewrite memcpy_splice by lia. fold free b0.
    replace (64 - bytes s mod 64) with (Z.of_nat free) by lia.
    rewrite <- Hfill by lia.
    replace (Z.of_nat (List.length b) - Z.of_nat free)
      with (Z.of_nat (List.length b1)) by lia.
    assert (Hwf1 : wf (fold_left feed b0 s)) by (apply wf_fold_feed, Hwf).
    assert (Hal1 : bytes (fold_left feed b0 s) mod 64 = 0).
    { rewrite bytes_fold_feed, u64_fill, L0 by exact Hwf.
      rewrite <- Zplus_mod_idemp_l.
      replace (bytes s mod 64 + Z.of_nat free) with 64 by lia.
      reflexivity. }
    rewrite update_loop_feed; auto.
    2:{ rewrite Nat2Z.id. zify. Z.div_mod_to_equations. lia. }
    set (n := (64 * (List.length b1 / 64))%nat).
    set (s2 := fold_left feed (firstn n b1) (fold_left feed b0 s)).
    assert (Hwf2 : wf s2) by (apply wf_fold_feed, Hwf1).
    assert (Hal2 : bytes s2 mod 64 = 0).
    { unfold s2. rewrite bytes_fold_feed, u64_fill by exact Hwf1.
      rewrite <- Zplus_mod_idemp_l, Hal1. cbn [Z.add].
      rewrite firstn_length_le by (unfold n; zify; Z.div_mod_to_equations; lia).
      unfold n. rewrite Nat2Z.inj_mul, Z.mul_comm. apply Z.mod_mul. lia. }
    assert (L2 : List.length (skipn n b1) = (List.length b1 mod 64)%nat).
    { rewrite length_skipn. unfold n. zify. Z.div_mod_to_equations. lia. }
    assert (Hsplit : b = b0 ++ firstn n b1 ++ skipn n b1).
    { rewrite firstn_skipn. unfold b0, b1. now rewrite firstn_skipn. }
    replace (fold_left feed b s)
      with (fold_left feed (b0 ++ firstn n b1 ++ skipn n b1) s)
      by (now rewrite <- Hsplit).
    rewrite !fold_left_app. fold s2.
    rewrite <- L2.
    destruct (Z.ltb_spec 0 (Z.of_nat (List.length (skipn n b1)))) as [Hpos|Hz].
    + rewrite feed_partial by (auto; rewrite Hal2, L2; zify;
                               Z.div_mod_to_equations; lia).
      rewrite Hal2. rewrite memcpy_splice by lia.
      rewrite Nat2Z.id, firstn_all. reflexivity.
    + destruct (skipn n b1); [reflexivity | cbn [List.length] in Hz; lia].
Qed.

End Streaming.

(** ** The message behind a state *)

Section Message.

Import Sha1.

Lemma chunks_app n : forall l l',
  (64 * n <= List.length l)%nat -> chunks n (l ++ l') = chunks n l.
Proof.
  induction n as [|n IH]; intros l l' Hlen; [reflexivity|].
  cbn [chunks]. rewrite firstn_app_le, skipn_app_le by lia. f_equal.
  apply IH. rewrite length_skipn. lia.
Qed.

Lemma chunks_snoc n : forall l,
  chunks (S n) l = chunks n l ++ [firstn 64 (skipn (64 * n) l)].
Proof.
  induction n as [|n IH]; intros l; [reflexivity|].
  change (chunks (S (S n)) l)
    with (firstn 64 l :: chunks (S n) (skipn 64 l)).
  rewrite IH. cbn [chunks app]. rewrite skipn_skipn.
  now replace (64 * S n)%nat with (64 * n + 64)%nat by lia.
Qed.

Lemma concat_chunks n : forall l,
  (64 * n <= List.length l)%nat ->
  List.concat (chunks n l) = firstn (64 * n) l.
Proof.
  induction n as [|n IH]; intros l Hlen.
  - now rewrite Nat.mul_0_r.
  - cbn [chunks List.concat]. rewrite IH by (rewrite length_skipn; lia).
    replace (64 * S n)%nat with (64 + 64 * n)%nat by lia.
    now rewrite firstn_add.
Qed.

Lemma staged_length msg :
  List.length (staged msg) = (List.length msg mod 64)%nat.
Proof. unfold staged. rewrite length_skipn. lia. Qed.

Lemma tracks_init flags0 :
  tracks {| h := h sha1_initialized; block := block sha1_initialized;
            bytes := bytes sha1_initialized;
            blocks := blocks sha1_initialized; flags := flags0 |} [].
Proof. repeat split; cbn; lia. Qed.

Lemma tracks_feed s msg x : tracks s msg -> tracks (feed s x) (msg ++ [x]).
Proof.
  intros (Hwf & Hb & Hst & Hh & Hbl).
  assert (Hwf' := wf_feed s x Hwf).
  destruct Hwf as [Hlen Hrange].
  set (q := (List.length msg / 64)%nat) in *.
  set (r := (List.length msg mod 64)%nat) in *.
  assert (Hused : bytes s mod 64 = Z.of_nat r).
  { rewrite Hb. unfold r. change (2 ^ 64) with 18446744073709551616. lia. }
  assert (Hlen' : List.length (msg ++ [x]) = S (List.length msg))
    by (rewrite length_app; cbn [List.length]; lia).
  split; [exact Hwf'|].
  split.
  { rewrite bytes_feed, u64_mod, Hb, Hlen'.
    change (2 ^ 64) with 18446744073709551616. lia. }
  unfold feed. change SHA1_BLOCK_BYTES with 64.
  rewrite Hused, store_splice by lia. rewrite Nat2Z.id.
  destruct (Z.eqb_spec (Z.of_nat r) (64 - 1)) as [Efull|Epart];
    cbn [h block blocks].
  - assert (Hq' : (List.length (msg ++ [x]) / 64 = S q)%nat)
      by (rewrite Hlen'; unfold q, r in *; lia).
    assert (Hr' : (List.length (msg ++ [x]) mod 64 = 0)%nat)
      by (rewrite Hlen'; unfold q, r in *; lia).
    assert (Hblk : splice (block s) r [x] = staged msg ++ [x]).
    { rewrite splice_tail by (cbn [List.length]; lia). now rewrite Hst. }
    split; [|split].
    + rewrite Hr'. unfold staged. rewrite Hq'.
      rewrite skipn_all2; [reflexivity|].
      rewrite Hlen'. unfold q, r in *. lia.
    + unfold full_blocks. rewrite Hq', chunks_snoc, fold_left_app.
      cbn [fold_left]. rewrite chunks_app by (unfold q; lia).
      change (chunks q msg) with (full_blocks msg). rewrite <- Hh. f_equal.
      rewrite Hblk. unfold staged. fold q.
      rewrite skipn_app_le by (unfold q; lia).
      symmetry. apply firstn_all2.
      rewrite length_app, length_skipn. cbn [List.length].
      unfold q, r in *. lia.
    + rewrite u32_mod, Hbl, Hq'. fold q.
      change (2 ^ 32) with 4294967296. lia.
  - assert (Hq' : (List.length (msg ++ [x]) / 64 = q)%nat)
      by (rewrite Hlen'; unfold q, r in *; lia).
    assert (Hr' : (List.length (msg ++ [x]) mod 64 = r + 1)%nat)
      by (rewrite Hlen'; unfold q, r in *; lia).
    split; [|split].
    + rewrite Hr'.
      change (r + 1)%nat with (r + List.length [x])%nat.
      rewrite firstn_splice by lia. rewrite Hst.
      unfold staged. rewrite Hq'. fold q.
      now rewrite skipn_app_le by (unfold q; lia).
    + unfold full_blocks. rewrite Hq'. rewrite chunks_app by (unfold q; lia).
      exact Hh.
    + rewrite Hq'. exact Hbl.
Qed.

Lemma tracks_fold_feed b : forall s msg,
  tracks s msg -> tracks (fold_left feed b s) (msg ++ b).
Proof.
  induction b as [|x b IH]; intros s msg Ht; cbn [fold_left].
  - now rewrite app_nil_r.
  - replace (msg ++ x :: b) with ((msg ++ [x]) ++ b)
      by (now rewrite <- app_assoc).
    apply IH, tracks_feed, Ht.
Qed.

Lemma sha1_update_feed s b :
  wf s ->
  sha1_update (Some s) (Some b) (Z.of_nat (List.length b))
  = Some (fold_left feed b s).
Proof.
  intros Hwf. unfold sha1_update.
  destruct (Z.eqb_spec (Z.of_nat (List.length b)) 0) as [E|E].
  - destruct b; [reflexivity | cbn [List.length] in E; lia].
  - now rewrite update_body_feed.
Qed.

Lemma stream_feed frags : forall s,
  wf s -> stream (Some s) frags = Some (fold_left feed (List.concat frags) s).
Proof.
  induction frags as [|frag frags IH]; intros s Hwf; [reflexivity|].
  cbn [stream fold_left List.concat].
  rewrite sha1_update_feed by exact Hwf.
  rewrite fold_left_app. apply IH, wf_fold_feed, Hwf.
Qed.

Lemma init_wf s0 flags0 :
  exists s, sha1_init_flags (Some s0) flags0 = Some s /\ tracks s []
            /\ flags s = flags0.
Proof.
  eexists. split; [reflexivity|]. split; [apply tracks_init|reflexivity].
Qed.

(** Every state reached from [sha1_init_flags] by updates is the state
    after the concatenation of the fragments. *)
Lemma stream_tracks s0 flags0 frags :
  exists s,
    stream (sha1_init_flags (Some s0) flags0) frags = Some s
    /\ tracks s (List.concat frags) /\ flags s = flags0.
Proof.
  destruct (init_wf s0 flags0) as (s & -> & Ht & Hf).
  exists (fold_left feed (List.concat frags) s).
  split; [apply stream_feed, Ht|].
  split; [apply (tracks_fold_feed _ _ [] Ht)|].
  now rewrite flags_fold_feed.
Qed.

End Message.

(** ** Padding *)

Section Padding.

Import Sha1.

Lemma byte_of_wrap v k :
  0 <= k <= 56 ->
  Z.land (Z.shiftr (v mod 2 ^ 64) k) 0xFF = Z.land (Z.shiftr v k) 0xFF.
Proof.
  intros Hk. change 0xFF with (Z.ones 8). rewrite !Z.land_ones by lia.
  apply Z.bits_inj'. intros n Hn.
  destruct (Z.ltb_spec n 8).
  - rewrite !Z.mod_pow2_bits_low by lia. rewrite !Z.shiftr_spec by lia.
    rewrite Z.mod_pow2_bits_low by lia. reflexivity.
  - rewrite !Z.mod_pow2_bits_high by lia. reflexivity.
Qed.

Lemma be64_wrap v : be64 (v mod 2 ^ 64) = be64 v.
Proof.
  unfold be64. cbn [map]. rewrite !byte_of_wrap by lia. reflexivity.
Qed.

Lemma be64_bits N : be64 (u64 (8 * (N mod 2 ^ 64))) = be64 (8 * N).
Proof.
  rewrite u64_mod, Z.mul_mod_idemp_r by lia. apply be64_wrap.
Qed.

Lemma be64_length v : List.length (be64 v) = 8%nat.
Proof. reflexivity. Qed.

Lemma glue_byte y k k' m m' :
  0 <= k -> 0 <= m -> k' = k + 8 -> m' = m + 8 ->
  (y / 2 ^ k') mod 2 ^ m * 256 + (y / 2 ^ k) mod 2 ^ 8
  = (y / 2 ^ k) mod 2 ^ m'.
Proof.
  intros Hk Hm -> ->.
  rewrite (Z.add_comm m 8), (Z.pow_add_r 2 8 m) by lia.
  rewrite Z.rem_mul_r by lia.
  rewrite Z.pow_add_r, Z.div_div by lia.
  change (2 ^ 8) with 256. lia.
Qed.

Lemma be64_value v : be_value (be64 v) = v mod 2 ^ 64.
Proof.
  unfold be_value, be64. cbn [map fold_left].
  change 0xFF with (Z.ones 8). rewrite !Z.land_ones by lia.
  rewrite !Z.shiftr_div_pow2 by lia.
  rewrite Z.mul_0_l, Z.add_0_l.
  rewrite (glue_byte v 0x30 0x38 8 16) by lia.
  rewrite (glue_byte v 0x28 0x30 16 24) by lia.
  rewrite (glue_byte v 0x20 0x28 24 32) by lia.
  rewrite (glue_byte v 0x18 0x20 32 40) by lia.
  rewrite (glue_byte v 0x10 0x18 40 48) by lia.
  rewrite (glue_byte v 0x08 0x10 48 56) by lia.
  rewrite (glue_byte v 0x00 0x08 56 64) by lia.
  now rewrite Z.pow_0_r, Z.div_1_r.
Qed.

Lemma store_after dst off a i c :
  (off <= List.length dst)%nat ->
  i = Z.of_nat (off + List.length a) ->
  Mem.store (splice dst off a) i c = splice dst off (a ++ [c]).
Proof.
  intros Hoff ->. rewrite store_splice by lia.
  rewrite Nat2Z.id. now apply splice_splice.
Qed.

Lemma memset_after dst off a i c n :
  (off <= List.length dst)%nat ->
  i = Z.of_nat (off + List.length a) ->
  0 <= n ->
  Mem.memset (splice dst off a) i c n
  = splice dst off (a ++ repeat c (Z.to_nat n)).
Proof.
  intros Hoff -> Hn. rewrite memset_splice by lia.
  rewrite Nat2Z.id. now apply splice_splice.
Qed.

(** The eight stores of the bit count, after a write that ends at
    index 56. *)
Lemma store_bits_after dst off a bits :
  (off <= List.length dst)%nat ->
  (off + List.length a = 56)%nat ->
  store_bits (splice dst off a) bits = splice dst off (a ++ be64 bits).
Proof.
  intros Hoff Hlen. unfold store_bits. change SHA1_BLOCK_BYTES with 64.
  repeat (rewrite store_after;
          [| exact Hoff
           | rewrite ?length_app; cbn [List.length]; lia ]).
  rewrite <- !app_assoc. reflexivity.
Qed.

(** [sha1_end] on the state after [msg]: the compression round runs on
    the staged bytes followed by the padding, cut in blocks. *)
Lemma sha1_end_tracks s msg :
  tracks s msg ->
  let tail := staged msg ++ padding (Z.of_nat (List.length msg)) in
  List.length tail
  = (if Z.of_nat (List.length msg) mod 64 <? 56 then 64%nat else 128%nat)
  /\ sha1_end (Some s)
     = Some {| h := fold_left sha1_hash_block
                      (chunks (List.length tail / 64) tail) (h s);
               block := skipn (List.length tail - 64) tail;
               bytes := bytes s;
               blocks := u32 (blocks s + Z.of_nat (List.length tail / 64));
               flags := flags s |}.
Proof.
  intros (Hwf & Hb & Hst & Hh & Hbl).
  destruct Hwf as [Hlen Hrange].
  set (N := Z.of_nat (List.length msg)).
  set (r := (List.length msg mod 64)%nat) in *.
  assert (Hr : N mod 64 = Z.of_nat r) by (unfold N, r; lia).
  assert (Hused : bytes s mod 64 = Z.of_nat r).
  { rewrite Hb. fold N. change (2 ^ 64) with 18446744073709551616. lia. }
  assert (Lst : List.length (staged msg) = r) by apply staged_length.
  assert (Hrlt : (r < 64)%nat) by (unfold r; lia).
  cbv zeta. unfold sha1_end, padding. change SHA1_BLOCK_BYTES with 64.
  assert (Hbits : be64 (u64 (8 * bytes s)) = be64 (8 * N))
    by (rewrite Hb; apply be64_bits).
  rewrite Hused, Hr.
  rewrite store_splice by lia. rewrite Nat2Z.id.
  destruct (Z.ltb_spec (Z.of_nat r) 56) as [Hshort|Hlong].
  - (* the bit count fits the current block *)
    assert (Hz : Z.to_nat ((55 - N) mod 64) = (55 - r)%nat).
    { unfold N, r in *. lia. }
    rewrite Hz.
    assert (Ltail : List.length (staged msg ++ [0x80] ++ repeat 0 (55 - r)
                                   ++ be64 (8 * N)) = 64%nat).
    { rewrite !length_app, Lst, repeat_length, be64_length.
      cbn [List.length]. lia. }
    rewrite Ltail. split; [reflexivity|].
    change (64 / 64)%nat with 1%nat. change (64 - 64)%nat with 0%nat.
    destruct (Z.ltb_spec (64 - 8) (Z.of_nat r + 1)) as [Hbad|_]; [lia|].
    rewrite memset_after by (cbn [List.length]; lia).
    replace (Z.to_nat (64 - 8 - (Z.of_nat r + 1))) with (55 - r)%nat by lia.
    rewrite store_bits_after
      by (rewrite ?length_app, ?repeat_length; cbn [List.length]; lia).
    rewrite Hbits.
    rewrite splice_tail
      by (rewrite !length_app, repeat_length, be64_length;
          cbn [List.length]; lia).
    rewrite Hst, <- app_assoc.
    cbn [chunks fold_left skipn].
    rewrite firstn_all2 by (rewrite Ltail; lia).
    reflexivity.
  - (* the current block is closed and the bit count opens a new one *)
    assert (Hz : Z.to_nat ((55 - N) mod 64) = ((63 - r) + 56)%nat).
    { unfold N, r in *. lia. }
    rewrite Hz, repeat_app.
    set (B1 := staged msg ++ [0x80] ++ repeat 0 (63 - r)).
    set (B2 := repeat 0 56 ++ be64 (8 * N)).
    assert (L1 : List.length B1 = 64%nat).
    { unfold B1. rewrite !length_app, Lst, repeat_length.
      cbn [List.length]. lia. }
    assert (L2 : List.length B2 = 64%nat) by reflexivity.
    replace (staged msg ++ [0x80] ++ (repeat 0 (63 - r) ++ repeat 0 56)
               ++ be64 (8 * N)) with (B1 ++ B2)
      by (unfold B1, B2; now rewrite <- !app_assoc).
    rewrite length_app, L1, L2.
    split; [reflexivity|].
    change ((64 + 64) / 64)%nat with 2%nat.
    change (64 + 64 - 64)%nat with 64%nat.
    destruct (Z.ltb_spec (64 - 8) (Z.of_nat r + 1)) as [_|Hbad]; [|lia].
    rewrite memset_after by (cbn [List.length]; lia).
    replace (Z.to_nat (64 - (Z.of_nat r + 1))) with (63 - r)%nat by lia.
    rewrite splice_tail
      by (rewrite !length_app, repeat_length; cbn [List.length]; lia).
    rewrite Hst. fold B1.
    rewrite memset_splice by lia.
    change (Z.to_nat 0) with 0%nat. change (Z.to_nat (64 - 8 - 0)) with 56%nat.
    rewrite store_bits_after by (rewrite ?repeat_length; lia).
    rewrite Hbits. fold B2. rewrite splice_all by (rewrite L1, L2; reflexivity).
    cbn [chunks fold_left].
    rewrite firstn_app_le, firstn_all2 by lia.
    rewrite skipn_app_le, skipn_all2 by lia.
    cbn [app]. rewrite firstn_all2 by lia.
    f_equal. f_equal. rewrite !u32_mod. change (Z.of_nat 2) with 2.
    change (2 ^ 32) with 4294967296. lia.
Qed.

End Padding.

(** ** The digest engine: streaming, invariant, padding, null pointers *)

Section DigestEngine.

Import Sha1.

(** C3: for every byte sequence cut into fragments in any way (split points
    off the block grid and empty fragments included), a state initialised
    by [sha1_init_flags] and updated once per fragment, in order, is exactly
    the state initialised and updated once with the whole sequence, and so
    are the two states after [sha1_end]. *)
Theorem sha1_update_streaming (s0 : sha1_t) (flags0 : Z)
  (frags : list (list Z)) :
  let st := sha1_init_flags (Some s0) flags0 in
  let whole := List.concat frags in
  stream st frags
  = sha1_update st (Some whole) (Z.of_nat (List.length whole))
  /\ sha1_end (stream st frags)
     = sha1_end (sha1_update st (Some whole) (Z.of_nat (List.length whole))).
Proof.
  cbv zeta.
  destruct (init_wf s0 flags0) as (s & -> & (Hwf & _) & _).
  rewrite stream_feed, sha1_update_feed by exact Hwf.
  split; reflexivity.
Qed.

(** C9: after [sha1_init_flags] (or [sha1_init]) and any sequence of
    [sha1_update] calls, the byte counter modulo 64 is the number of input
    bytes staged in the block buffer and not yet compressed: the counter
    is the input length modulo 2^64, the first [bytes mod 64] bytes of
    the buffer are the input bytes after the last complete block, and the
    accumulator has absorbed exactly the complete blocks.  The fresh state
    is the case of no update: counter 0, nothing staged. *)
Theorem staging_invariant (s0 : sha1_t) (flags0 : Z)
  (frags : list (list Z)) :
  let msg := List.concat frags in
  exists s,
    stream (sha1_init_flags (Some s0) flags0) frags = Some s
    /\ List.length (block s) = 64%nat
    /\ bytes s = Z.of_nat (List.length msg) mod 2 ^ 64
    /\ bytes s mod 64 = Z.of_nat (List.length (staged msg))
    /\ firstn (Z.to_nat (bytes s mod 64)) (block s) = staged msg
    /\ h s = fold_left sha1_hash_block (full_blocks msg)
               (h sha1_initialized)
    /\ msg = List.concat (full_blocks msg) ++ staged msg.
Proof.
  cbv zeta.
  destruct (stream_tracks s0 flags0 frags)
    as (s & Hs & ((Hlen & Hrange) & Hb & Hst & Hh & Hbl) & Hf).
  exists s.
  assert (Hused : bytes s mod 64
                  = Z.of_nat (List.length (List.concat frags) mod 64)).
  { rewrite Hb. change (2 ^ 64) with 18446744073709551616. lia. }
  repeat split; auto.
  - now rewrite staged_length.
  - now rewrite Hused, Nat2Z.id.
  - unfold full_blocks, staged.
    rewrite concat_chunks by lia. symmetry. apply firstn_skipn.
Qed.

(** C4: on a state reached from initialisation by updates totalling [N]
    input bytes, [sha1_end] appends 0x80, then zero bytes until 8 bytes
    remain in the current block, or in the next block when fewer than 8
    remain after the 0x80, then the eight bytes of [8 * N], most
    significant first, and runs the compression round on each block so
    filled: one block when [N mod 64 < 56], two otherwise. *)
Theorem sha1_end_padding (s0 : sha1_t) (flags0 : Z)
  (frags : list (list Z)) :
  let msg := List.concat frags in
  let N := Z.of_nat (List.length msg) in
  let tail :=
    staged msg ++ [0x80] ++ repeat 0 (Z.to_nat ((55 - N) mod 64))
      ++ be64 (8 * N) in
  exists s,
    stream (sha1_init_flags (Some s0) flags0) frags = Some s
    /\ List.length tail = (if N mod 64 <? 56 then 64%nat else 128%nat)
    /\ sha1_end (Some s)
       = Some {| h := fold_left sha1_hash_block
                        (chunks (List.length tail / 64) tail) (h s);
                 block := skipn (List.length tail - 64) tail;
                 bytes := bytes s;
                 blocks := u32 (blocks s
                                + Z.of_nat (List.length tail / 64));
                 flags := flags s |}.
Proof.
  cbv zeta.
  destruct (stream_tracks s0 flags0 frags) as (s & Hs & Ht & _).
  exists s. split; [exact Hs|].
  apply (sha1_end_tracks s _ Ht).
Qed.

(** C10: [sha1_init_flags], [sha1_update] and [sha1_end] return [NULL] on
    a [NULL] state; [sha1_update] with a [NULL] data pointer, or with size
    zero, returns the state pointer and leaves the state as it was. *)
Theorem null_pointers :
  (forall flags0, sha1_init_flags None flags0 = None)
  /\ (forall data size, sha1_update None data size = None)
  /\ sha1_end None = None
  /\ (forall st size, sha1_update st None size = st)
  /\ (forall st data, sha1_update st data 0 = st).
Proof.
  repeat split; try reflexivity.
  - intros [s|] size; reflexivity.
  - intros [s|] [b|]; reflexivity.
Qed.

End DigestEngine.

(** ** The search loop *)

Section BisectFacts.

Import Bisect.

Variable cmp_at : Z -> option Z.
Variable count_at : Z -> Z.

(** The number of records in the mapped file; each can be read. *)
Variable n : Z.
Hypothesis mapped : forall m, 0 <= m < n -> exists c, cmp_at m = Some c.

Lemma mid_between s : inside n s -> lo s <= mid s <= hi s.
Proof.
  intros (Hlo & Hhi & ->). rewrite Z.quot_div_nonneg by lia. lia.
Qed.

(** A pass either leaves the loop or narrows the interval. *)
Lemma body_cases s :
  inside n s ->
  (exists r, body cmp_at count_at s = Exit r /\ exits cmp_at count_at s r)
  \/ (exists s', body cmp_at count_at s = Continue s' /\ inside n s'
                 /\ hi s' - lo s' < hi s - lo s
                 /\ lo s < hi s
                 /\ ((lo s' = lo s /\ hi s' = mid s)
                     \/ (lo s' = mid s /\ hi s' = hi s))).
Proof.
  intros Hin. pose proof (mid_between s Hin) as Hmid.
  destruct Hin as (Hlo & Hhi & Hm).
  destruct (mapped (mid s)) as [c Hc]; [lia|].
  unfold body, exits. rewrite Hc.
  destruct (Z.eqb_spec 0 c) as [<-|Hne].
  { left. eexists. split; [reflexivity|]. left. auto. }
  destruct (Z.eqb_spec (lo s) (mid s)) as [E|Hlm].
  { left. eexists. split; [reflexivity|]. right. repeat split; eauto. }
  right. eexists. split; [reflexivity|].
  rewrite Z.quot_div_nonneg in Hm by lia.
  unfold inside. cbn [lo hi mid].
  destruct (c <? 0); repeat split; try lia; auto.
Qed.

(** More fuel does not change a result. *)
Lemma loop_more fuel : forall fuel' s x,
  loop cmp_at count_at fuel s = Some x ->
  (fuel <= fuel')%nat ->
  loop cmp_at count_at fuel' s = Some x.
Proof.
  induction fuel as [|fuel IH]; intros fuel' s x H Hle; [discriminate|].
  destruct fuel' as [|fuel']; [lia|].
  cbn [loop] in *. destruct (body cmp_at count_at s); [|exact H].
  apply IH; [exact H | lia].
Qed.

(** The loop leaves within [hi - lo + 1] passes, through one of its two
    exits. *)
Lemma loop_terminates fuel : forall s,
  inside n s ->
  hi s - lo s < Z.of_nat fuel ->
  exists s' r,
    loop cmp_at count_at fuel s = Some (s', r) /\ inside n s' /\ exits cmp_at count_at s' r.
Proof.
  induction fuel as [|fuel IH]; intros s Hin Hfuel.
  - destruct Hin as (? & ? & ?). lia.
  - cbn [loop].
    destruct (body_cases s Hin)
      as [(r & -> & Hex) | (s' & -> & Hin' & Hlt & _)].
    + eauto.
    + apply IH; [exact Hin' | lia].
Qed.

Lemma start_inside : 1 <= n -> inside n (start (n - 1)).
Proof. intros Hn. unfold inside, start. cbn [lo hi mid]. lia. Qed.

Lemma search_loop fuel s r :
  loop cmp_at count_at fuel (start (n - 1)) = Some (s, r) ->
  (fuel <= Z.to_nat (n - 1 + 2))%nat ->
  search cmp_at count_at (n - 1) = Some r.
Proof.
  intros H Hle. unfold search.
  now rewrite (loop_more _ _ _ _ H Hle).
Qed.

(** For [n >= 1] records the search comes back after at most [n] passes,
    through one of the two exits of the loop. *)
Lemma search_terminates :
  1 <= n ->
  exists passes s r,
    (passes <= Z.to_nat n)%nat
    /\ (forall fuel, (passes <= fuel)%nat ->
          loop cmp_at count_at fuel (start (n - 1)) = Some (s, r))
    /\ exits cmp_at count_at s r
    /\ search cmp_at count_at (n - 1) = Some r.
Proof.
  intros Hn.
  destruct (loop_terminates (Z.to_nat n) (start (n - 1)))
    as (s & r & Hloop & _ & Hex).
  { now apply start_inside. }
  { cbn [lo hi start]. lia. }
  exists (Z.to_nat n), s, r. repeat split; auto.
  - intros fuel Hle. now apply (loop_more _ _ _ _ Hloop).
  - apply (search_loop _ _ _ Hloop). lia.
Qed.

(** A target that no record matches is reported as not found. *)
Lemma search_absent :
  1 <= n ->
  (forall m, 0 <= m < n -> cmp_at m <> Some 0) ->
  search cmp_at count_at (n - 1) = Some (Ret 0 0).
Proof.
  intros Hn Habs.
  destruct (loop_terminates (Z.to_nat n) (start (n - 1)))
    as (s & r & Hloop & Hin & Hex).
  { now apply start_inside. }
  { cbn [lo hi start]. lia. }
  pose proof (mid_between s Hin) as Hmid. destruct Hin as (? & ? & _).
  destruct Hex as [(Hc & _) | (_ & _ & ->)].
  - exfalso. apply (Habs (mid s)); [lia | exact Hc].
  - apply (search_loop _ _ _ Hloop). lia.
Qed.

(** While [lo < hi], [mid] stays below [hi]: the record at index [n - 1]
    is never looked at. *)
Lemma loop_below_last fuel : forall s s' r,
  inside n s ->
  lo s < hi s ->
  (forall m, 0 <= m < n - 1 -> cmp_at m <> Some 0) ->
  loop cmp_at count_at fuel s = Some (s', r) ->
  r = Ret 0 0.
Proof.
  induction fuel as [|fuel IH]; intros s s' r Hin Hlt Hne H; [discriminate|].
  cbn [loop] in H.
  pose proof Hin as (Hlo & Hhi & Hm).
  rewrite Z.quot_div_nonneg in Hm by lia.
  destruct (body_cases s Hin)
    as [(r0 & Hb & Hex) | (s1 & Hb & Hin1 & _ & _ & Hnext)];
    rewrite Hb in H.
  - injection H as <- <-.
    destruct Hex as [(Hc & _) | (_ & _ & ->)]; [|reflexivity].
    exfalso. apply (Hne (mid s)); [lia | exact Hc].
  - unfold body in Hb.
    destruct (mapped (mid s)) as [c Hc]; [lia|]. rewrite Hc in Hb.
    destruct (0 =? c); [discriminate|].
    destruct (Z.eqb_spec (lo s) (mid s)) as [|Hlm]; [discriminate|].
    apply (IH s1 s' r Hin1); [|exact Hne|exact H].
    destruct Hnext as [(-> & ->) | (-> & ->)]; lia.
Qed.

(** With two records or more, a target that only the last record matches
    is reported as not found. *)
Lemma search_misses_last :
  2 <= n ->
  (forall m, 0 <= m < n - 1 -> cmp_at m <> Some 0) ->
  search cmp_at count_at (n - 1) = Some (Ret 0 0).
Proof.
  intros Hn Hne.
  destruct (loop_terminates (Z.to_nat n) (start (n - 1)))
    as (s & r & Hloop & _ & _).
  { apply start_inside. lia. }
  { cbn [lo hi start]. lia. }
  rewrite (loop_below_last _ _ _ _ (start_inside ltac:(lia)) ltac:(cbn; lia)
             Hne Hloop) in Hloop.
  apply (search_loop _ _ _ Hloop). lia.
Qed.

(** A target that record [i] matches, in a file ordered like the
    comparison, is found with the count of record [i] provided [i] is not
    the last of several records. *)
Lemma loop_finds fuel (i : Z) : forall s s' r,
  inside n s ->
  lo s <= i <= hi s ->
  i < hi s \/ lo s = hi s ->
  (forall m, 0 <= m < n ->
     exists c, cmp_at m = Some c /\ (c < 0 <-> i < m) /\ (c = 0 <-> i = m)) ->
  loop cmp_at count_at fuel s = Some (s', r) ->
  r = Ret 1 (count_at i).
Proof.
  induction fuel as [|fuel IH]; intros s s' r Hin Hi Hlast Hord H;
    [discriminate|].
  cbn [loop] in H.
  pose proof (mid_between s Hin) as Hmid.
  pose proof Hin as (Hlo & Hhi & Hm).
  rewrite Z.quot_div_nonneg in Hm by lia.
  destruct (Hord (mid s)) as (c & Hc & Hneg & Hzero); [lia|].
  unfold body in H. rewrite Hc in H.
  destruct (Z.eqb_spec 0 c) as [E|Hne].
  { injection H as <- <-. symmetry in E. apply Hzero in E. now rewrite E. }
  destruct (Z.eqb_spec (lo s) (mid s)) as [E|Hlm].
  { exfalso. assert (i <> mid s) by (intros E'; apply Hne; symmetry;
                                     now apply Hzero).
    lia. }
  destruct (Z.ltb_spec c 0) as [Hc0|Hc0].
  - apply (IH _ s' r) in H; auto.
    + unfold inside. cbn [lo hi mid]. lia.
    + cbn [lo hi]. apply Hneg in Hc0. lia.
    + cbn [lo hi]. apply Hneg in Hc0. lia.
  - assert (mid s < i).
    { assert (~ i < mid s) by (intros Hlt; apply Hneg in Hlt; lia).
      assert (i <> mid s) by (intros E'; apply Hne; symmetry;
                              now apply Hzero).
      lia. }
    apply (IH _ s' r) in H; auto.
    + unfold inside. cbn [lo hi mid]. lia.
    + cbn [lo hi]. lia.
    + cbn [lo hi]. lia.
Qed.

Lemma search_finds (i : Z) :
  1 <= n ->
  0 <= i < n ->
  i < n - 1 \/ n = 1 ->
  (forall m, 0 <= m < n ->
     exists c, cmp_at m = Some c /\ (c < 0 <-> i < m) /\ (c = 0 <-> i = m)) ->
  search cmp_at count_at (n - 1) = Some (Ret 1 (count_at i)).
Proof.
  intros Hn Hi Hlast Hord.
  destruct (loop_terminates (Z.to_nat n) (start (n - 1)))
    as (s & r & Hloop & _ & _).
  { now apply start_inside. }
  { cbn [lo hi start]. lia. }
  rewrite (loop_finds _ i _ _ _ (start_inside Hn) ltac:(cbn; lia)
             ltac:(cbn; lia) Hord Hloop) in Hloop.
  apply (search_loop _ _ _ Hloop). lia.
Qed.

End BisectFacts.

(** Two comparisons that agree on every record give the same search. *)
Lemma loop_ext (cmp_at cmp_at' : Z -> option Z) (count_at : Z -> Z) fuel :
(forall m, cmp_at m = cmp_at' m) ->
forall s, Bisect.loop cmp_at count_at fuel s
          = Bisect.loop cmp_at' count_at fuel s.
Proof.
intros Hext. induction fuel as [|fuel IH]; intros s; [reflexivity|].
cbn [Bisect.loop]. unfold Bisect.body. rewrite Hext.
destruct (cmp_at' (Bisect.mid s)); [|reflexivity].
destruct (0 =? z); [reflexivity|].
destruct (_ =? _); [reflexivity|]. apply IH.
Qed.

Lemma search_ext (cmp_at cmp_at' : Z -> option Z) (count_at : Z -> Z) hi0 :
(forall m, cmp_at m = cmp_at' m) ->
Bisect.search cmp_at count_at hi0 = Bisect.search cmp_at' count_at hi0.
Proof.
intros Hext. unfold Bisect.search. now rewrite (loop_ext _ _ _ _ Hext).
Qed.

(** ** The two [find_hash] *)

Section FindHashFacts.

Import Bisect.

Lemma u64_small x : 0 <= x < 2 ^ 64 -> Sha1.u64 x = x.
Proof. apply u64_id. Qed.

(** [hi] of [find-pwned.c] for a file of [n >= 1] records. *)
Lemma bin_hi n :
  1 <= n -> 24 * n < 2 ^ 63 ->
  FindPwned.s64
    (Sha1.u64 (Sha1.u64 (24 * n) / FindPwned.kPwnedInfoSize - 1))
  = n - 1.
Proof.
  intros Hn Hsz. unfold FindPwned.kPwnedInfoSize, FindPwned.s64.
  change (2 ^ 63) with 9223372036854775808 in *.
  rewrite (u64_small (24 * n))
    by (change (2 ^ 64) with 18446744073709551616; lia).
  replace (24 * n / 24) with n by lia.
  rewrite u64_small by (change (2 ^ 64) with 18446744073709551616; lia).
  change (2 ^ 64) with 18446744073709551616. lia.
Qed.

Lemma bin_mapped data hash0 n :
  Z.of_nat (List.length data) = 24 * n ->
  forall m, 0 <= m < n ->
    exists c, FindPwned.cmp_at data hash0 m = Some c.
Proof.
  intros Hlen m Hm. unfold FindPwned.cmp_at, FindPwned.record_at.
  unfold FindPwned.kPwnedInfoSize.
  destruct (Z.leb_spec 0 m); [|lia].
  destruct (Z.leb_spec (24 * (m + 1)) (Z.of_nat (List.length data))); [|lia].
  cbn [andb]. eauto.
Qed.

(** [hi] of [find-pwned-password-hash.c]. *)
Lemma text_hi n :
  1 <= n ->
  Z.quot (63 * n) FindPwnedPasswordHash.kTextHashLineBytes - 1 = n - 1.
Proof.
  intros Hn. unfold FindPwnedPasswordHash.kTextHashLineBytes.
  rewrite Z.quot_div_nonneg by lia. lia.
Qed.

Lemma text_mapped data hash n :
  Z.of_nat (List.length data) = 63 * n ->
  forall m, 0 <= m < n ->
    exists c, FindPwnedPasswordHash.cmp_at data hash m = Some c.
Proof.
  intros Hlen m Hm.
  unfold FindPwnedPasswordHash.cmp_at, FindPwnedPasswordHash.line_at.
  unfold FindPwnedPasswordHash.kTextHashLineBytes.
  destruct (Z.leb_spec 0 m); [|lia].
  destruct (Z.leb_spec (63 * (m + 1)) (Z.of_nat (List.length data))); [|lia].
  cbn [andb]. eauto.
Qed.

Lemma text_find_hash_search data n hash count0 :
  CStr.strlen hash = 40 ->
  1 <= n ->
  FindPwnedPasswordHash.find_hash data (63 * n) hash count0
  = search (FindPwnedPasswordHash.cmp_at data hash)
      (FindPwnedPasswordHash.count_at data) (n - 1).
Proof.
  intros Hlen Hn. unfold FindPwnedPasswordHash.find_hash.
  rewrite Hlen, text_hi by exact Hn. reflexivity.
Qed.

Lemma bin_find_hash_search data n hash0 :
  1 <= n -> 24 * n < 2 ^ 63 ->
  FindPwned.find_hash data (24 * n) hash0
  = search (FindPwned.cmp_at data hash0) (FindPwned.count_at data) (n - 1).
Proof.
  intros Hn Hsz. unfold FindPwned.find_hash.
  now rewrite bin_hi.
Qed.

(** In a binary corpus of two records or more, the hash of the last
    record, when no earlier record has it, is reported as not found. *)
Lemma bin_misses_last data n hash0 :
  2 <= n -> 24 * n < 2 ^ 63 ->
  Z.of_nat (List.length data) = 24 * n ->
  (forall m, 0 <= m < n - 1 -> FindPwned.cmp_at data hash0 m <> Some 0) ->
  FindPwned.find_hash data (24 * n) hash0 = Some (Ret 0 0).
Proof.
  intros Hn Hsz Hlen Hne. rewrite bin_find_hash_search by lia.
  apply search_misses_last; auto. now apply bin_mapped.
Qed.


(** Every record but the last of several is found with its count, and a
    hash that no record has is not found, in either corpus format. *)
Lemma bin_finds data n hash0 i :
  1 <= n -> 24 * n < 2 ^ 63 ->
  Z.of_nat (List.length data) = 24 * n ->
  0 <= i < n -> i < n - 1 \/ n = 1 ->
  (forall m, 0 <= m < n ->
     exists c, FindPwned.cmp_at data hash0 m = Some c
               /\ (c < 0 <-> i < m) /\ (c = 0 <-> i = m)) ->
  FindPwned.find_hash data (24 * n) hash0
  = Some (Ret 1 (FindPwned.count_at data i)).
Proof.
  intros Hn Hsz Hlen Hi Hlast Hord. rewrite bin_find_hash_search by lia.
  apply (search_finds _ _ n); auto. now apply bin_mapped.
Qed.

Lemma bin_absent data n hash0 :
  1 <= n -> 24 * n < 2 ^ 63 ->
  Z.of_nat (List.length data) = 24 * n ->
  (forall m, 0 <= m < n -> FindPwned.cmp_at data hash0 m <> Some 0) ->
  FindPwned.find_hash data (24 * n) hash0 = Some (Ret 0 0).
Proof.
  intros Hn Hsz Hlen Hne. rewrite bin_find_hash_search by lia.
  apply (search_absent _ _ n); auto. now apply bin_mapped.
Qed.


Lemma text_absent data n hash count0 :
  1 <= n -> CStr.strlen hash = 40 ->
  Z.of_nat (List.length data) = 63 * n ->
  (forall m, 0 <= m < n ->
     FindPwnedPasswordHash.cmp_at data hash m <> Some 0) ->
  FindPwnedPasswordHash.find_hash data (63 * n) hash count0
  = Some (Ret 0 0).
Proof.
  intros Hn Hh Hlen Hne. rewrite text_find_hash_search by lia.
  apply (search_absent _ _ n); auto. now apply text_mapped.
Qed.

(** C5: for a corpus of [n >= 1] records in either format and every
    target, the loop of [find_hash] stops within [n] passes ([n = 1]
    included, where [lo], [hi] and [mid] are equal from the start), and it
    stops either on an exact match or on [lo == mid] without a match, with
    result 0 and count 0. *)
Theorem find_hash_terminates (n : Z) (data : list Z) (hash0 : list Z)
  (tdata : list Z) (thash : string) (count0 : Z) :
  1 <= n ->
  24 * n < 2 ^ 63 ->
  Z.of_nat (List.length data) = 24 * n ->
  Z.of_nat (List.length tdata) = 63 * n ->
  CStr.strlen thash = 40 ->
  (exists passes s r,
      (passes <= Z.to_nat n)%nat
      /\ (forall fuel, (passes <= fuel)%nat ->
            loop (FindPwned.cmp_at data hash0) (FindPwned.count_at data)
              fuel (start (n - 1)) = Some (s, r))
      /\ exits (FindPwned.cmp_at data hash0) (FindPwned.count_at data) s r
      /\ FindPwned.find_hash data (24 * n) hash0 = Some r)
  /\ (exists passes s r,
        (passes <= Z.to_nat n)%nat
        /\ (forall fuel, (passes <= fuel)%nat ->
              loop (FindPwnedPasswordHash.cmp_at tdata thash)
                (FindPwnedPasswordHash.count_at tdata)
                fuel (start (n - 1)) = Some (s, r))
        /\ exits (FindPwnedPasswordHash.cmp_at tdata thash)
             (FindPwnedPasswordHash.count_at tdata) s r
        /\ FindPwnedPasswordHash.find_hash tdata (63 * n) thash count0
           = Some r).
Proof.
  intros Hn Hsz Hlen Htlen Hh. split.
  - rewrite bin_find_hash_search by lia.
    apply search_terminates; [now apply bin_mapped | exact Hn].
  - rewrite text_find_hash_search by lia.
    apply search_terminates; [now apply text_mapped | exact Hn].
Qed.

End FindHashFacts.

(** ** Letter case *)

Section LetterCase.

Lemma chars_map_chars f s :
  (forall c, 0 <= c < 256 -> 0 <= f c < 256) ->
  CStr.chars (CStr.map_chars f s) = map f (CStr.chars s).
Proof.
  intros Hf. unfold CStr.chars, CStr.map_chars.
  rewrite list_ascii_of_string_of_list_ascii, !map_map.
  apply map_ext. intros a.
  pose proof (nat_ascii_bounded a) as Ha.
  rewrite nat_ascii_embedding.
  - specialize (Hf (Z.of_nat (nat_of_ascii a))). lia.
  - specialize (Hf (Z.of_nat (nat_of_ascii a))). lia.
Qed.

Lemma tolower_range c : 0 <= c < 256 -> 0 <= CStr.tolower c < 256.
Proof.
  intros H. unfold CStr.tolower.
  destruct (Z.leb_spec 65 c), (Z.leb_spec c 90); cbn [andb]; lia.
Qed.

Lemma toupper_range c : 0 <= c < 256 -> 0 <= CStr.toupper c < 256.
Proof.
  intros H. unfold CStr.toupper.
  destruct (Z.leb_spec 97 c), (Z.leb_spec c 122); cbn [andb]; lia.
Qed.

Lemma chars_lower s : CStr.chars (CStr.lower s) = map CStr.tolower (CStr.chars s).
Proof. apply chars_map_chars, tolower_range. Qed.

Lemma chars_upper s : CStr.chars (CStr.upper s) = map CStr.toupper (CStr.chars s).
Proof. apply chars_map_chars, toupper_range. Qed.

Lemma strlen_map_chars f s : CStr.strlen (CStr.map_chars f s) = CStr.strlen s.
Proof.
  unfold CStr.strlen, CStr.map_chars. f_equal.
  induction s as [|a s IH]; [reflexivity|].
  cbn [list_ascii_of_string map string_of_list_ascii String.length].
  now rewrite IH.
Qed.

Lemma tolower_capital c : 65 <= c <= 90 -> CStr.tolower c = c + 32.
Proof.
  intros H. unfold CStr.tolower.
  destruct (Z.leb_spec 65 c); [|lia]. destruct (Z.leb_spec c 90); [|lia].
  reflexivity.
Qed.

Lemma tolower_other c : c < 65 \/ 90 < c -> CStr.tolower c = c.
Proof.
  intros H. unfold CStr.tolower.
  destruct (Z.leb_spec 65 c); [|reflexivity].
  destruct (Z.leb_spec c 90); [lia|reflexivity].
Qed.

Lemma toupper_small c : 97 <= c <= 122 -> CStr.toupper c = c - 32.
Proof.
  intros H. unfold CStr.toupper.
  destruct (Z.leb_spec 97 c); [|lia]. destruct (Z.leb_spec c 122); [|lia].
  reflexivity.
Qed.

Lemma toupper_other c : c < 97 \/ 122 < c -> CStr.toupper c = c.
Proof.
  intros H. unfold CStr.toupper.
  destruct (Z.leb_spec 97 c); [|reflexivity].
  destruct (Z.leb_spec c 122); [lia|reflexivity].
Qed.

(** The letters, the capitals and the rest. *)
Lemma char_cases c :
  65 <= c <= 90 \/ 97 <= c <= 122 \/ (c < 65 \/ 90 < c < 97 \/ 122 < c).
Proof. lia. Qed.

(** [strncasecmp] does not see the case of a letter. *)
Lemma tolower_toupper c :
  CStr.tolower (CStr.toupper c) = CStr.tolower (CStr.tolower c).
Proof.
  destruct (char_cases c) as [H | [H | H]].
  - rewrite (toupper_other c), (tolower_capital c) by lia.
    rewrite (tolower_other (c + 32)) by lia. reflexivity.
  - rewrite (toupper_small c), (tolower_other c) by lia.
    rewrite (tolower_capital (c - 32)), (tolower_other c) by lia. lia.
  - rewrite (toupper_other c), !(tolower_other c) by lia. reflexivity.
Qed.

Lemma hd_map (f : Z -> Z) l : f 0 = 0 -> hd 0 (map f l) = f (hd 0 l).
Proof. intros H0. destruct l; cbn [hd map]; auto. Qed.

Lemma tl_map (f : Z -> Z) l : tl (map f l) = map f (tl l).
Proof. now destruct l. Qed.

Lemma strncasecmp_case n : forall s1 s2,
  CStr.strncasecmp (map CStr.toupper s1) s2 n
  = CStr.strncasecmp (map CStr.tolower s1) s2 n.
Proof.
  induction n as [|n IH]; intros s1 s2; [reflexivity|].
  cbn [CStr.strncasecmp].
  rewrite !hd_map, !tl_map by reflexivity.
  rewrite tolower_toupper, IH. reflexivity.
Qed.

(** [hexval] gives a letter and its capital the same value. *)
Lemma hexval_case c :
  FindPwned.hexval (CStr.toupper c) = FindPwned.hexval (CStr.tolower c).
Proof.
  assert (Hdigit : forall x, x < 48 \/ 102 < x \/ 70 < x < 97 ->
                             FindPwned.hexval x = -1).
  { intros x Hx. unfold FindPwned.hexval.
    repeat match goal with
           | |- context [?a <=? ?b] =>
               destruct (Z.leb_spec a b); cbn [andb]; try lia
           end. }
  assert (Hcap : forall x, 65 <= x <= 70 -> FindPwned.hexval x = x - 55).
  { intros x Hx. unfold FindPwned.hexval.
    repeat match goal with
           | |- context [?a <=? ?b] =>
               destruct (Z.leb_spec a b); cbn [andb]; try lia
           end. }
  assert (Hlow : forall x, 97 <= x <= 102 -> FindPwned.hexval x = x - 87).
  { intros x Hx. unfold FindPwned.hexval.
    repeat match goal with
           | |- context [?a <=? ?b] =>
               destruct (Z.leb_spec a b); cbn [andb]; try lia
           end. }
  destruct (char_cases c) as [H | [H | H]].
  - rewrite (toupper_other c), (tolower_capital c) by lia.
    destruct (Z.le_gt_cases c 70).
    + rewrite Hcap, Hlow by lia. lia.
    + rewrite !Hdigit by lia. reflexivity.
  - rewrite (toupper_small c), (tolower_other c) by lia.
    destruct (Z.le_gt_cases c 102).
    + rewrite Hcap, Hlow by lia. lia.
    + rewrite !Hdigit by lia. reflexivity.
  - rewrite (toupper_other c), (tolower_other c) by lia. reflexivity.
Qed.

Lemma load_map (f : Z -> Z) l i : f 0 = 0 -> Mem.load (map f l) i = f (Mem.load l i).
Proof.
  intros H0. unfold Mem.load. rewrite <- H0 at 1. apply map_nth.
Qed.

Lemma hex2byte_case l k :
  FindPwned.hex2byte (skipn k (map CStr.toupper l))
  = FindPwned.hex2byte (skipn k (map CStr.tolower l)).
Proof.
  unfold FindPwned.hex2byte.
  rewrite !skipn_map, !load_map by reflexivity.
  now rewrite !hexval_case.
Qed.

Lemma parse_hash_case n : forall l i hash0,
  FindPwned.parse_hash n (map CStr.toupper l) i hash0
  = FindPwned.parse_hash n (map CStr.tolower l) i hash0.
Proof.
  induction n as [|n IH]; intros l i hash0; [reflexivity|].
  cbn [FindPwned.parse_hash]. rewrite hex2byte_case.
  destruct (FindPwned.hex2byte _); [apply IH|reflexivity].
Qed.

(** C8: a target written in upper case and the same target written in
    lower case give the same result of [find_hash] on every text corpus,
    the comparison with a record not seeing the case; in the binary
    program both spellings decode to the same 20 bytes, hex digit by hex
    digit, so the same hash is searched. *)
Theorem lookup_ignores_case (target : string) :
  (forall data file_size count0,
      FindPwnedPasswordHash.find_hash data file_size (CStr.upper target)
        count0
      = FindPwnedPasswordHash.find_hash data file_size (CStr.lower target)
          count0)
  /\ (forall data mid,
        FindPwnedPasswordHash.cmp_at data (CStr.upper target) mid
        = FindPwnedPasswordHash.cmp_at data (CStr.lower target) mid)
  /\ (forall c, FindPwned.hexval (CStr.toupper c)
                = FindPwned.hexval (CStr.tolower c))
  /\ FindPwned.parse_hash (Z.to_nat Sha1.SHA1_BINARY_BYTES)
       (CStr.chars (CStr.upper target)) 0
       (repeat 0 (Z.to_nat Sha1.SHA1_BINARY_BYTES))
     = FindPwned.parse_hash (Z.to_nat Sha1.SHA1_BINARY_BYTES)
         (CStr.chars (CStr.lower target)) 0
         (repeat 0 (Z.to_nat Sha1.SHA1_BINARY_BYTES)).
Proof.
  assert (Hcmp : forall data mid,
             FindPwnedPasswordHash.cmp_at data (CStr.upper target) mid
             = FindPwnedPasswordHash.cmp_at data (CStr.lower target) mid).
  { intros data mid. unfold FindPwnedPasswordHash.cmp_at.
    destruct (FindPwnedPasswordHash.line_at data mid); [|reflexivity].
    rewrite chars_upper, chars_lower, strncasecmp_case. reflexivity. }
  split; [|split; [|split]].
  - intros data file_size count0. unfold FindPwnedPasswordHash.find_hash.
    unfold CStr.upper, CStr.lower. rewrite !strlen_map_chars.
    destruct (negb _); [reflexivity|].
    apply search_ext. apply Hcmp.
  - exact Hcmp.
  - apply hexval_case.
  - rewrite chars_upper, chars_lower. apply parse_hash_case.
Qed.

End LetterCase.

(** ** Errors: the corpus and the queries *)

Section Errors.

Lemma load_skipn l a b :
  0 <= a -> 0 <= b -> Mem.load (skipn (Z.to_nat a) l) b = Mem.load l (a + b).
Proof.
  intros Ha Hb. unfold Mem.load. rewrite nth_skipn. f_equal. lia.
Qed.

Lemma hex2byte_some l byte :
  FindPwned.hex2byte l = Some byte ->
  0 <= FindPwned.hexval (Mem.load l 0)
  /\ 0 <= FindPwned.hexval (Mem.load l 1).
Proof.
  unfold FindPwned.hex2byte.
  destruct (Z.ltb_spec (FindPwned.hexval (Mem.load l 0)) 0);
    destruct (Z.ltb_spec (FindPwned.hexval (Mem.load l 1)) 0);
    cbn [orb]; intros Hsome; try discriminate. lia.
Qed.

(** When the loop of [handle_input] fills the hash, every character it
    read is a hex digit. *)
Lemma parse_hash_digits n : forall input i hash0 hash1,
  FindPwned.parse_hash n input i hash0 = inl hash1 ->
  0 <= i ->
  forall k, 2 * i <= k < 2 * i + 2 * Z.of_nat n ->
    0 <= FindPwned.hexval (Mem.load input k).
Proof.
  induction n as [|n IH]; intros input i hash0 hash1 H Hi k Hk; [lia|].
  cbn [FindPwned.parse_hash] in H.
  destruct (FindPwned.hex2byte _) as [byte|] eqn:Hb; [|discriminate].
  apply hex2byte_some in Hb. rewrite !load_skipn in Hb by lia.
  destruct (Z.eq_dec k (2 * i)) as [->|]; [now rewrite Z.add_0_r in Hb|].
  destruct (Z.eq_dec k (2 * i + 1)) as [->|]; [tauto|].
  apply (IH _ _ _ _ H); lia.
Qed.

(** C7: outside password mode, a query whose length is not 40 or, in the
    binary program, one of whose 40 characters is not a hex digit, makes
    [handle_input] print one error message and return 0: no search is
    made, the program does not exit, and the loops over the arguments and
    over the input lines go on with the queries that follow. *)
Theorem bad_query_is_local
  (cfg : FindPwned.config) (input : string) (rest : list string)
  (data : list Z) (file_size not_found : Z) (st : FindPwned.state)
  (tcfg : FindPwnedPasswordHash.config) (tinput : string)
  (trest : list string) (tdata : list Z) (tsize : Z)
  (tst : list FindPwnedPasswordHash.event) :
  FindPwned.g_password cfg = false ->
  (CStr.strlen input <> 40
   \/ exists k, 0 <= k < 40
                /\ FindPwned.hexval (Mem.load (CStr.chars input) k) < 0) ->
  FindPwnedPasswordHash.g_password tcfg = false ->
  CStr.strlen tinput <> 40 ->
  (exists m,
      let st' :=
        {| FindPwned.g_count := Sha1.u64 (FindPwned.g_count st + 1);
           FindPwned.trace :=
             FindPwned.trace st ++ [FindPwned.UsageError m] |} in
      FindPwned.handle_input cfg input data file_size st
      = (st', Run.Value 0)
      /\ FindPwned.handle_args cfg (input :: rest) data file_size
           not_found st
         = FindPwned.handle_args cfg rest data file_size 1 st'
      /\ (forall line, FindPwned.chomp line = input ->
            FindPwned.handle_lines cfg (line :: rest) data file_size
              not_found st
            = FindPwned.handle_lines cfg rest data file_size 1 st'))
  /\ (let tst' :=
        tst ++ [FindPwnedPasswordHash.Stderr
                  (FindPwnedPasswordHash.BadHashLength tinput 40
                     (CStr.strlen tinput))] in
      FindPwnedPasswordHash.handle_input tcfg tinput tdata tsize tst
      = (tst', Run.Value (Some 0))
      /\ FindPwnedPasswordHash.handle_args tcfg (tinput :: trest) tdata
           tsize tst
         = FindPwnedPasswordHash.handle_args tcfg trest tdata tsize tst'
      /\ (forall line, FindPwnedPasswordHash.chomp line = tinput ->
            FindPwnedPasswordHash.handle_lines tcfg (line :: trest) tdata
              tsize tst
            = FindPwnedPasswordHash.handle_lines tcfg trest tdata tsize
                tst')).
Proof.
  intros Hpw Hbad Htpw Htlen. split.
  - assert (Hin : exists m,
               FindPwned.handle_input cfg input data file_size st
               = ({| FindPwned.g_count :=
                       Sha1.u64 (FindPwned.g_count st + 1);
                     FindPwned.trace :=
                       FindPwned.trace st ++ [FindPwned.UsageError m] |},
                  Run.Value 0)).
    { unfold FindPwned.handle_input, FindPwned.read_hash. rewrite Hpw.
      unfold FindPwned.kTextHashChars.
      change (2 * Sha1.SHA1_BINARY_BYTES) with 40.
      destruct (Z.eqb_spec (CStr.strlen input) 40) as [Hlen|Hlen];
        cbn [negb].
      - destruct Hbad as [Hbad|(k & Hk & Hneg)]; [contradiction|].
        destruct (FindPwned.parse_hash _ _ _ _) as [hash1|i] eqn:Hp.
        + exfalso.
          pose proof (parse_hash_digits _ _ _ _ _ Hp ltac:(lia) k) as Hd.
          change (Z.of_nat (Z.to_nat Sha1.SHA1_BINARY_BYTES)) with 20 in Hd.
          specialize (Hd ltac:(lia)). lia.
        + eexists. reflexivity.
      - eexists. reflexivity. }
    destruct Hin as [m Hin]. exists m. cbv zeta.
    split; [exact Hin|]. split.
    + cbn [FindPwned.handle_args]. unfold Run.bind at 1. now rewrite Hin.
    + intros line <-. cbn [FindPwned.handle_lines].
      unfold Run.bind at 1. now rewrite Hin.
  - assert (Hin : FindPwnedPasswordHash.handle_input tcfg tinput tdata
                    tsize tst
                  = (tst ++ [FindPwnedPasswordHash.Stderr
                               (FindPwnedPasswordHash.BadHashLength tinput
                                  40 (CStr.strlen tinput))],
                     Run.Value (Some 0))).
    { unfold FindPwnedPasswordHash.handle_input,
        FindPwnedPasswordHash.read_hash. rewrite Htpw.
      unfold FindPwnedPasswordHash.kTextHashChars,
        FindPwnedPasswordHash.kBinHashBytes.
      change (2 * Sha1.SHA1_BINARY_BYTES) with 40.
      destruct (Z.eqb_spec (CStr.strlen tinput) 40) as [Hlen|Hlen];
        [contradiction|].
      reflexivity. }
    cbv zeta. split; [exact Hin|]. split.
    + cbn [FindPwnedPasswordHash.handle_args]. unfold Run.bind at 1.
      now rewrite Hin.
    + intros line <-. cbn [FindPwnedPasswordHash.handle_lines].
      unfold Run.bind at 1. now rewrite Hin.
Qed.

(** C6: a corpus whose length is zero or not a multiple of the record
    width (24 bytes in the binary program, 63 in the text program) ends
    [main] at once with one error message and a non-zero status, 3 by
    [exit] in the binary program and 4 in the text program, before any
    query is looked at; a corpus whose length is a positive multiple of
    the width passes the test and [main] goes on to map it and to handle
    the queries. *)
Theorem corpus_size_is_checked (size : Z)
  (cfg : FindPwned.config) (e : FindPwned.env) (st : FindPwned.state)
  (tcfg : FindPwnedPasswordHash.config) (te : FindPwnedPasswordHash.env)
  (tst : list FindPwnedPasswordHash.event) :
  0 <= size < 2 ^ 63 ->
  FindPwned.open_ok e = true ->
  FindPwned.seek_end e = size ->
  FindPwnedPasswordHash.open_ok te = true ->
  FindPwnedPasswordHash.seek_end te = size ->
  (if (size =? 0) || negb (size mod 24 =? 0) then
     FindPwned.main cfg e st
     = ({| FindPwned.g_count := FindPwned.g_count st;
           FindPwned.trace :=
             FindPwned.trace st
             ++ [FindPwned.UsageError (FindPwned.BadFileSize size 24)] |},
        Run.Exited 3)
   else FindPwned.main cfg e st = FindPwned.serve cfg e size st)
  /\ (if (size =? 0) || negb (size mod 63 =? 0) then
        FindPwnedPasswordHash.main tcfg te tst
        = (tst ++ [FindPwnedPasswordHash.Stderr
                     (FindPwnedPasswordHash.BadFileSize size 63)],
           Run.Value 4)
      else FindPwnedPasswordHash.main tcfg te tst
           = FindPwnedPasswordHash.serve tcfg te size tst).
Proof.
  intros Hsize Hopen Hseek Htopen Htseek. split.
  - unfold FindPwned.main. rewrite Hopen, Hseek.
    unfold Run.bind at 1. unfold Run.ret at 1.
    destruct (Z.ltb_spec size 0) as [|_]; [lia|].
    unfold FindPwned.kPwnedInfoSize.
    rewrite u64_small
      by (change (2 ^ 63) with 9223372036854775808 in Hsize;
          change (2 ^ 64) with 18446744073709551616; lia).
    rewrite (Z.eqb_sym 0 size), (Z.eqb_sym 0 (size mod 24)).
    destruct ((size =? 0) || negb (size mod 24 =? 0)); reflexivity.
  - unfold FindPwnedPasswordHash.main. rewrite Htopen, Htseek.
    cbn [negb].
    destruct (Z.ltb_spec size 0) as [|_]; [lia|].
    unfold FindPwnedPasswordHash.kTextHashLineBytes.
    rewrite Z.rem_mod_nonneg by lia.
    rewrite (Z.eqb_sym 0 size), (Z.eqb_sym 0 (size mod 63)).
    destruct ((size =? 0) || negb (size mod 63 =? 0)); reflexivity.
Qed.

End Errors.

Section SampleRuns.

Import Bisect Samples.

(** C1: the search misses the last record of a corpus of two records or
    more.  In the sorted two-record binary corpus, record 1 holds the hash
    [sample_hash 1] with count 1001, and [find_hash] called with that hash
    returns 0 and count 0; the same happens in the two-record text corpus
    and for the last record of the corpora of 3 and 1000 records.  Every
    earlier record of the corpora of 2 and 3 records is found with its
    count, and so are records 0, 499 and 998 of 1000 and the only record
    of a one-record corpus. *)
Theorem find_hash_misses_last_record :
  (FindPwned.record_at (bin_corpus 2) 1
   = Some {| FindPwned.hash := sample_hash 1;
             FindPwned.count := sample_count 1 |}
   /\ FindPwned.cmp_at (bin_corpus 2) (sample_hash 1) 0 = Some 1
   /\ FindPwned.find_hash (bin_corpus 2) 48 (sample_hash 1)
      = Some (Ret 0 0))
  /\ (FindPwnedPasswordHash.cmp_at (text_corpus 2) (sample_text 1) 1
      = Some 0
      /\ FindPwnedPasswordHash.count_at (text_corpus 2) 1 = sample_count 1
      /\ FindPwnedPasswordHash.find_hash (text_corpus 2) 126
           (sample_text 1) 0
         = Some (Ret 0 0))
  /\ (forall n, In n [2%nat; 3%nat; 1000%nat] ->
        FindPwned.find_hash (bin_corpus n) (24 * Z.of_nat n)
          (sample_hash (Z.of_nat n - 1)) = Some (Ret 0 0)
        /\ FindPwnedPasswordHash.find_hash (text_corpus n)
             (63 * Z.of_nat n) (sample_text (Z.of_nat n - 1)) 0
           = Some (Ret 0 0))
  /\ (forall n, In n [1%nat; 2%nat; 3%nat] ->
        bin_finds_before_last n = true
        /\ text_finds_before_last n = true)
  /\ (forall i, In i [0; 499; 998] ->
        FindPwned.find_hash (bin_corpus 1000) 24000 (sample_hash i)
        = Some (Ret 1 (sample_count i))
        /\ FindPwnedPasswordHash.find_hash (text_corpus 1000) 63000
             (sample_text i) 0
           = Some (Ret 1 (sample_count i)))
  /\ FindPwned.find_hash (bin_corpus 1) 24 (sample_hash 0)
     = Some (Ret 1 (sample_count 0))
  /\ FindPwnedPasswordHash.find_hash (text_corpus 1) 63 (sample_text 0) 0
     = Some (Ret 1 (sample_count 0)).
Proof.
  split; [vm_compute; repeat split|].
  split; [vm_compute; repeat split|].
  split.
  { intros n [<- | [<- | [<- | []]]]; vm_compute; split; reflexivity. }
  split.
  { intros n [<- | [<- | [<- | []]]]; vm_compute; split; reflexivity. }
  split.
  { intros i [<- | [<- | [<- | []]]]; vm_compute; split; reflexivity. }
  split; vm_compute; reflexivity.
Qed.

End SampleRuns.

Section Witnesses.

Import Bisect Samples.

Lemma find_hash_terminates_witness :
  (1 <= 1
   /\ 24 * 1 < 2 ^ 63
   /\ Z.of_nat (List.length (bin_corpus 1)) = 24 * 1
   /\ Z.of_nat (List.length (text_corpus 1)) = 63 * 1
   /\ CStr.strlen (sample_text 0) = 40)
  /\ (exists r, FindPwned.find_hash (bin_corpus 1) (24 * 1) (sample_hash 0)
                = Some r)
  /\ (exists r, FindPwnedPasswordHash.find_hash (text_corpus 1) (63 * 1)
                  (sample_text 0) 0 = Some r).
Proof.
  assert (H1 : 1 <= 1) by lia.
  assert (H2 : 24 * 1 < 2 ^ 63) by (vm_compute; reflexivity).
  assert (H3 : Z.of_nat (List.length (bin_corpus 1)) = 24 * 1)
    by (vm_compute; reflexivity).
  assert (H4 : Z.of_nat (List.length (text_corpus 1)) = 63 * 1)
    by (vm_compute; reflexivity).
  assert (H5 : CStr.strlen (sample_text 0) = 40)
    by (vm_compute; reflexivity).
  split; [repeat split; assumption|].
  destruct (find_hash_terminates 1 (bin_corpus 1) (sample_hash 0)
              (text_corpus 1) (sample_text 0) 0 H1 H2 H3 H4 H5)
    as [(p & s & r & _ & _ & _ & Hb) (p' & s' & r' & _ & _ & _ & Ht)].
  split; eauto.
Defined.

Lemma corpus_size_is_checked_witness :
  (0 <= 47 < 2 ^ 63 /\ 0 <= 1512 < 2 ^ 63)
  /\ (FindPwned.main bin_config (bin_env 47 ["xx"%string])
        FindPwned.initial
      = ({| FindPwned.g_count := 0;
            FindPwned.trace :=
              [FindPwned.UsageError (FindPwned.BadFileSize 47 24)] |},
         Run.Exited 3)
      /\ FindPwnedPasswordHash.main text_config
           (text_env 47 ["xx"%string]) []
         = ([FindPwnedPasswordHash.Stderr
               (FindPwnedPasswordHash.BadFileSize 47 63)],
            Run.Value 4))
  /\ (FindPwned.main bin_config (bin_env 1512 ["xx"%string])
        FindPwned.initial
      = FindPwned.serve bin_config (bin_env 1512 ["xx"%string]) 1512
          FindPwned.initial
      /\ FindPwnedPasswordHash.main text_config
           (text_env 1512 ["xx"%string]) []
         = FindPwnedPasswordHash.serve text_config
             (text_env 1512 ["xx"%string]) 1512 []).
Proof.
  assert (H47 : 0 <= 47 < 2 ^ 63) by (split; vm_compute; congruence).
  assert (H1512 : 0 <= 1512 < 2 ^ 63) by (split; vm_compute; congruence).
  split; [split; assumption|]. split.
  - exact (corpus_size_is_checked 47 bin_config (bin_env 47 ["xx"%string])
             FindPwned.initial text_config (text_env 47 ["xx"%string]) []
             H47 eq_refl eq_refl eq_refl eq_refl).
  - exact (corpus_size_is_checked 1512 bin_config
             (bin_env 1512 ["xx"%string]) FindPwned.initial text_config
             (text_env 1512 ["xx"%string]) []
             H1512 eq_refl eq_refl eq_refl eq_refl).
Defined.

Lemma bad_query_is_local_witness :
  (FindPwned.g_password bin_config = false
   /\ CStr.strlen "xx" <> 40
   /\ FindPwnedPasswordHash.g_password text_config = false)
  /\ (exists m,
        FindPwned.handle_input bin_config "xx" (bin_corpus 2) 48
          FindPwned.initial
        = ({| FindPwned.g_count := 1;
              FindPwned.trace := [FindPwned.UsageError m] |},
           Run.Value 0))
  /\ FindPwnedPasswordHash.handle_input text_config "xx" (text_corpus 2)
       126 []
     = ([FindPwnedPasswordHash.Stderr
           (FindPwnedPasswordHash.BadHashLength "xx" 40 2)],
        Run.Value (Some 0)).
Proof.
  assert (Hlen : CStr.strlen "xx" <> 40) by (vm_compute; congruence).
  split; [repeat split; try reflexivity; exact Hlen|].
  destruct (bad_query_is_local bin_config "xx" [] (bin_corpus 2) 48 0
              FindPwned.initial text_config "xx" [] (text_corpus 2) 126 []
              eq_refl (or_introl Hlen) eq_refl Hlen)
    as [(m & Hb & _) (Ht & _)].
  split; [exists m; exact Hb | exact Ht].
Defined.

End Witnesses.

(** ** The compression round on machine integers *)

Section FastFacts.

Import Sha1.

Lemma u32_range z : 0 <= u32 z < 2 ^ 32.
Proof. rewrite u32_mod. apply Z.mod_pos_bound. lia. Qed.

Lemma u32_small z : 0 <= z < 2 ^ 32 -> u32 z = z.
Proof. intros H. rewrite u32_mod. now apply Z.mod_small. Qed.

Lemma u32_u32 z : u32 (u32 z) = u32 z.
Proof. apply u32_small, u32_range. Qed.

Lemma u32_land a b : u32 (Z.land a b) = Z.land (u32 a) (u32 b).
Proof.
  unfold u32. apply Z.bits_inj'. intros n Hn. rewrite !Z.land_spec.
  destruct (Z.testbit a n), (Z.testbit b n), (Z.testbit 0xFFFFFFFF n);
    reflexivity.
Qed.

Lemma u32_lor a b : u32 (Z.lor a b) = Z.lor (u32 a) (u32 b).
Proof.
  unfold u32. apply Z.bits_inj'. intros n Hn.
  rewrite ?Z.land_spec, ?Z.lor_spec, ?Z.land_spec.
  destruct (Z.testbit a n), (Z.testbit b n), (Z.testbit 0xFFFFFFFF n);
    reflexivity.
Qed.

Lemma u32_lxor a b : u32 (Z.lxor a b) = Z.lxor (u32 a) (u32 b).
Proof.
  unfold u32. apply Z.bits_inj'. intros n Hn.
  rewrite ?Z.land_spec, ?Z.lxor_spec, ?Z.land_spec.
  destruct (Z.testbit a n), (Z.testbit b n), (Z.testbit 0xFFFFFFFF n);
    reflexivity.
Qed.

Lemma not32_lxor b : not32 b = Z.lxor (u32 b) 0xFFFFFFFF.
Proof.
  unfold not32, u32. apply Z.bits_inj'. intros n Hn.
  rewrite ?Z.land_spec, ?Z.lxor_spec, ?Z.land_spec, Z.lnot_spec by exact Hn.
  destruct (Z.testbit b n), (Z.testbit 0xFFFFFFFF n); reflexivity.
Qed.

Lemma to_Z_mask32 : Uint63.to_Z Fast.mask32 = 0xFFFFFFFF.
Proof. vm_compute. reflexivity. Qed.

Lemma to_Z_w32 x : Uint63.to_Z (Fast.w32 x) = u32 (Uint63.to_Z x).
Proof. unfold Fast.w32. now rewrite Uint63.land_spec', to_Z_mask32. Qed.

Lemma small_w32 x : Fast.small (Fast.w32 x).
Proof. unfold Fast.small. rewrite to_Z_w32. apply u32_u32. Qed.

Lemma small_range x : Fast.small x -> 0 <= Uint63.to_Z x < 2 ^ 32.
Proof. unfold Fast.small. intros <-. apply u32_range. Qed.

Lemma small_land x y :
  Fast.small x -> Fast.small y -> Fast.small (Uint63.land x y).
Proof.
  unfold Fast.small. intros Hx Hy.
  now rewrite Uint63.land_spec', u32_land, Hx, Hy.
Qed.

Lemma small_lor x y :
  Fast.small x -> Fast.small y -> Fast.small (Uint63.lor x y).
Proof.
  unfold Fast.small. intros Hx Hy.
  now rewrite Uint63.lor_spec', u32_lor, Hx, Hy.
Qed.

Lemma small_lxor x y :
  Fast.small x -> Fast.small y -> Fast.small (Uint63.lxor x y).
Proof.
  unfold Fast.small. intros Hx Hy.
  now rewrite Uint63.lxor_spec', u32_lxor, Hx, Hy.
Qed.

Lemma small_mask32 : Fast.small Fast.mask32.
Proof. vm_compute. reflexivity. Qed.

(** Addition of two words, wrapped. *)
Lemma to_Z_add32 x y :
  Fast.small x -> Fast.small y ->
  Uint63.to_Z (Fast.w32 (Uint63.add x y))
  = u32 (Uint63.to_Z x + Uint63.to_Z y).
Proof.
  intros Hx Hy. apply small_range in Hx, Hy.
  rewrite to_Z_w32, Uint63.add_spec. f_equal.
  apply Z.mod_small. change Uint63.wB with 9223372036854775808.
  change (2 ^ 32) with 4294967296 in *. lia.
Qed.

Lemma to_Z_not32 x :
  Fast.small x ->
  Uint63.to_Z (Uint63.lxor x Fast.mask32) = not32 (Uint63.to_Z x).
Proof.
  intros Hx. rewrite Uint63.lxor_spec', to_Z_mask32, not32_lxor.
  now rewrite Hx.
Qed.

Lemma to_Z_rotl x c :
  Fast.small x -> 0 <= Uint63.to_Z c <= 31 ->
  Uint63.to_Z (Fast.rotl x c) = ROTATE_LEFT (Uint63.to_Z x) (Uint63.to_Z c).
Proof.
  intros Hx Hc. unfold Fast.rotl, ROTATE_LEFT.
  rewrite Uint63.lor_spec', to_Z_w32, Uint63.lsl_spec, Uint63.lsr_spec.
  rewrite Uint63.sub_spec. change (Uint63.to_Z 32) with 32.
  rewrite (Z.mod_small (32 - Uint63.to_Z c))
    by (change Uint63.wB with 9223372036854775808; lia).
  rewrite Hx. apply small_range in Hx.
  rewrite Z.shiftl_mul_pow2, Z.shiftr_div_pow2 by lia.
  rewrite Z.mod_small; [reflexivity|].
  assert (0 < 2 ^ Uint63.to_Z c <= 2 ^ 31).
  { split; [apply Z.pow_pos_nonneg; lia|].
    apply Z.pow_le_mono_r; lia. }
  change Uint63.wB with (2 ^ 32 * 2 ^ 31). nia.
Qed.

Lemma small_rotl x c :
  Fast.small x -> 0 <= Uint63.to_Z c <= 31 -> Fast.small (Fast.rotl x c).
Proof.
  intros Hx Hc. unfold Fast.rotl. apply small_lor; [apply small_w32|].
  unfold Fast.small. apply u32_small.
  rewrite Uint63.lsr_spec, Uint63.sub_spec. change (Uint63.to_Z 32) with 32.
  rewrite (Z.mod_small (32 - Uint63.to_Z c))
    by (change Uint63.wB with 9223372036854775808; lia).
  apply small_range in Hx.
  assert (0 < 2 ^ (32 - Uint63.to_Z c)) by (apply Z.pow_pos_nonneg; lia).
  split; [apply Z.div_pos; lia|].
  apply Z.div_lt_upper_bound; nia.
Qed.

Lemma to_Z_rotl5 x :
  Fast.small x -> Uint63.to_Z (Fast.rotl x 5) = ROTATE_LEFT (Uint63.to_Z x) 5.
Proof.
  intros Hx. apply (to_Z_rotl x 5 Hx). change (Uint63.to_Z 5) with 5. lia.
Qed.

Lemma to_Z_rotl30 x :
  Fast.small x ->
  Uint63.to_Z (Fast.rotl x 30) = ROTATE_LEFT (Uint63.to_Z x) 30.
Proof.
  intros Hx. apply (to_Z_rotl x 30 Hx). change (Uint63.to_Z 30) with 30. lia.
Qed.

Lemma small_rotl5 x : Fast.small x -> Fast.small (Fast.rotl x 5).
Proof.
  intros Hx. apply (small_rotl x 5 Hx). change (Uint63.to_Z 5) with 5. lia.
Qed.

Lemma small_rotl30 x : Fast.small x -> Fast.small (Fast.rotl x 30).
Proof.
  intros Hx. apply (small_rotl x 30 Hx). change (Uint63.to_Z 30) with 30. lia.
Qed.

Lemma small_nth w k : Forall Fast.small w -> Fast.small (nth k w 0%uint63).
Proof.
  intros Hw. revert k. induction Hw as [|x w Hx Hw IH]; intros [|k];
    cbn [nth]; auto; vm_compute; reflexivity.
Qed.

Lemma load_to_Z w i :
  Mem.load (map Uint63.to_Z w) i = Uint63.to_Z (nth (Z.to_nat i) w 0%uint63).
Proof.
  unfold Mem.load. change 0 with (Uint63.to_Z 0%uint63). apply map_nth.
Qed.

Create HintDb small discriminated.

#[local] Hint Resolve small_w32 small_land small_lor small_lxor small_mask32
  small_rotl5 small_rotl30 small_nth : small.

(** Rewriting of [to_Z] through the operations of a round. *)
Ltac to_Z_round :=
  repeat first
    [ rewrite to_Z_add32 by auto 10 with small
    | rewrite to_Z_rotl5 by auto 10 with small
    | rewrite to_Z_rotl30 by auto 10 with small
    | rewrite to_Z_not32 by auto 10 with small
    | rewrite Uint63.land_spec'
    | rewrite Uint63.lor_spec'
    | rewrite Uint63.lxor_spec' ].

(** A round on machine integers is a round of [sha1_hash_block]. *)
Lemma round_fast w i v :
  Forall Fast.small w ->
  Fast.small5 v ->
  Fast.values (Fast.round w i v)
  = Sha1.round (map Uint63.to_Z w) i (Fast.values v)
  /\ Fast.small5 (Fast.round w i v).
Proof.
  intros Hw Hv. destruct v as [[[[a b] c] d] e].
  destruct Hv as (Ha & Hb & Hc & Hd & He).
  unfold Fast.round, Sha1.round, Fast.values. rewrite load_to_Z.
  assert (Hk1 : Fast.small 0x5A827999%uint63) by (vm_compute; reflexivity).
  assert (Hk2 : Fast.small 0x6ED9EBA1%uint63) by (vm_compute; reflexivity).
  assert (Hk3 : Fast.small 0x8F1BBCDC%uint63) by (vm_compute; reflexivity).
  assert (Hk4 : Fast.small 0xCA62C1D6%uint63) by (vm_compute; reflexivity).
  assert (E1 : Uint63.to_Z 0x5A827999%uint63 = 0x5A827999)
    by (vm_compute; reflexivity).
  assert (E2 : Uint63.to_Z 0x6ED9EBA1%uint63 = 0x6ED9EBA1)
    by (vm_compute; reflexivity).
  assert (E3 : Uint63.to_Z 0x8F1BBCDC%uint63 = 0x8F1BBCDC)
    by (vm_compute; reflexivity).
  assert (E4 : Uint63.to_Z 0xCA62C1D6%uint63 = 0xCA62C1D6)
    by (vm_compute; reflexivity).
  destruct (i <? 0x14); [|destruct (i <? 0x28); [|destruct (i <? 0x3C)]];
    (split; [to_Z_round; rewrite ?E1, ?E2, ?E3, ?E4; reflexivity
            | unfold Fast.small5; auto 10 with small]).
Qed.

Lemma rounds_fast n : forall w i v,
  Forall Fast.small w ->
  Fast.small5 v ->
  Fast.values (Fast.rounds n w i v)
  = Sha1.rounds n (map Uint63.to_Z w) i (Fast.values v)
  /\ Fast.small5 (Fast.rounds n w i v).
Proof.
  induction n as [|n IH]; intros w i v Hw Hv; [now split|].
  cbn [Fast.rounds Sha1.rounds].
  destruct (round_fast w i v Hw Hv) as [Hr Hs].
  rewrite <- Hr. apply IH; assumption.
Qed.

(** A block on machine integers, given its schedule, is
    [sha1_hash_block]. *)
Lemma hash_block_fast w v blk :
  Forall Fast.small w ->
  map Uint63.to_Z w = schedule blk ->
  Fast.small5 v ->
  sha1_hash_block (Fast.words v) blk = Fast.words (Fast.hash_block w v)
  /\ Fast.small5 (Fast.hash_block w v).
Proof.
  intros Hw Hsched Hv.
  destruct (rounds_fast 80 w 0 v Hw Hv) as [Hr Hs].
  unfold sha1_hash_block, Fast.hash_block.
  rewrite <- Hsched.
  destruct v as [[[[a b] c] d] e].
  destruct Hv as (Ha & Hb & Hc & Hd & He).
  change (Mem.load (Fast.words (a, b, c, d, e)) 0) with (Uint63.to_Z a).
  change (Mem.load (Fast.words (a, b, c, d, e)) 1) with (Uint63.to_Z b).
  change (Mem.load (Fast.words (a, b, c, d, e)) 2) with (Uint63.to_Z c).
  change (Mem.load (Fast.words (a, b, c, d, e)) 3) with (Uint63.to_Z d).
  change (Mem.load (Fast.words (a, b, c, d, e)) 4) with (Uint63.to_Z e).
  change (Uint63.to_Z a, Uint63.to_Z b, Uint63.to_Z c, Uint63.to_Z d,
          Uint63.to_Z e) with (Fast.values (a, b, c, d, e)).
  rewrite <- Hr.
  destruct (Fast.rounds 80 w 0 (a, b, c, d, e)) as [[[[a' b'] c'] d'] e'].
  destruct Hs as (Ha' & Hb' & Hc' & Hd' & He').
  cbn [Fast.values Fast.words].
  rewrite !to_Z_add32 by assumption.
  split; [reflexivity|].
  unfold Fast.small5. auto 10 with small.
Qed.

Lemma repeat_cons_head {A} (x : A) n : repeat x (S n) = x :: repeat x n.
Proof. reflexivity. Qed.

Lemma fold_left_cons {A B} (f : A -> B -> A) x l a :
  fold_left f (x :: l) a = fold_left f l (f a x).
Proof. reflexivity. Qed.

Lemma iter_step n w v :
  Fast.iter (S n) w v = Fast.iter n w (Fast.hash_block w v).
Proof. reflexivity. Qed.

(** [n] equal blocks. *)
Lemma fast_blocks n : forall w v blk,
  Forall Fast.small w ->
  map Uint63.to_Z w = schedule blk ->
  Fast.small5 v ->
  fold_left sha1_hash_block (repeat blk n) (Fast.words v)
  = Fast.words (Fast.iter n w v).
Proof.
  induction n as [|n IH]; intros w v blk Hw Hsched Hv; [reflexivity|].
  destruct (hash_block_fast w v blk Hw Hsched Hv) as [Hb Hs].
  rewrite repeat_cons_head, fold_left_cons, Hb, iter_step.
  apply IH; assumption.
Qed.

End FastFacts.

(** ** The one-shot digest *)

Section OneShot.

Import Sha1.

(** The text of a state only depends on the accumulator and the flags. *)
Lemma sha1_text_h s :
  sha1_text (Some s)
  = Some (text_loop (Z.to_nat SHA1_BINARY_BYTES) (tohex_of (flags s))
            (hash_bytes (h s)) 0).
Proof. reflexivity. Qed.

(** The one-shot digest of [msg] is the text of the accumulator after the
    complete blocks of [msg] and the blocks of its padded tail. *)
Lemma sha1_buffer_blocks msg :
  let tail := staged msg ++ padding (Z.of_nat (List.length msg)) in
  sha1_buffer (Some msg) (Z.of_nat (List.length msg))
  = Some (text_loop (Z.to_nat SHA1_BINARY_BYTES)
            (tohex_of SHA1_FLAGS_DEFAULT)
            (hash_bytes
               (fold_left sha1_hash_block
                  (chunks (List.length tail / 64) tail)
                  (fold_left sha1_hash_block (full_blocks msg)
                     (h sha1_initialized)))) 0).
Proof.
  cbv zeta. unfold sha1_buffer, sha1_buffer_flags.
  destruct (stream_tracks sha1_initialized SHA1_FLAGS_DEFAULT [msg])
    as (s & Hs & Ht & Hf).
  cbn [stream fold_left List.concat] in Hs, Ht.
  rewrite app_nil_r in Ht. rewrite Hs.
  destruct (sha1_end_tracks s msg Ht) as [_ ->].
  destruct Ht as (_ & _ & _ & Hh & _).
  rewrite sha1_text_h. cbn [h flags]. now rewrite Hf, Hh.
Qed.

Lemma firstn_repeat {A} (x : A) n m :
  firstn n (repeat x (n + m)) = repeat x n.
Proof.
  rewrite repeat_app, firstn_app_le by (rewrite repeat_length; lia).
  apply firstn_all2. rewrite repeat_length. lia.
Qed.

Lemma skipn_repeat {A} (x : A) n m :
  skipn n (repeat x (n + m)) = repeat x m.
Proof.
  rewrite repeat_app, skipn_app_le by (rewrite repeat_length; lia).
  rewrite skipn_all2 by (rewrite repeat_length; lia). reflexivity.
Qed.

(** The blocks of a run of equal bytes. *)
Lemma chunks_repeat (x : Z) n : forall r,
  chunks n (repeat x (64 * n + r)) = repeat (repeat x 64) n.
Proof.
  induction n as [|n IH]; intros r; [reflexivity|].
  replace (64 * S n + r)%nat with (64 + (64 * n + r))%nat by lia.
  rewrite repeat_cons_head.
  change (chunks (S n) (repeat x (64 + (64 * n + r))))
    with (firstn 64 (repeat x (64 + (64 * n + r)))
            :: chunks n (skipn 64 (repeat x (64 + (64 * n + r))))).
  now rewrite firstn_repeat, skipn_repeat, IH.
Qed.

Lemma full_blocks_repeat (x : Z) n :
  full_blocks (repeat x (64 * n)) = repeat (repeat x 64) n.
Proof.
  unfold full_blocks. rewrite repeat_length.
  replace (64 * n / 64)%nat with n by lia.
  rewrite <- (chunks_repeat x n 0). now rewrite Nat.add_0_r.
Qed.

Lemma staged_repeat (x : Z) n : staged (repeat x (64 * n)) = [].
Proof.
  apply length_zero_iff_nil. rewrite staged_length, repeat_length. lia.
Qed.

Lemma schedule_a_small : Forall Fast.small Million.schedule_a.
Proof. repeat constructor; vm_compute; reflexivity. Qed.

Lemma schedule_a_ok :
  map Uint63.to_Z Million.schedule_a = schedule Million.block_a.
Proof. vm_compute. reflexivity. Qed.

Lemma h_init_ok : Fast.words Million.h_init = h sha1_initialized.
Proof. vm_compute. reflexivity. Qed.

Lemma h_init_small : Fast.small5 Million.h_init.
Proof. repeat split; vm_compute; reflexivity. Qed.

(** The accumulator after [n] blocks of bytes 'a'. *)
Lemma blocks_of_a n :
  fold_left sha1_hash_block (repeat Million.block_a n) (h sha1_initialized)
  = Fast.words (Fast.iter n Million.schedule_a Million.h_init).
Proof.
  rewrite <- h_init_ok.
  apply fast_blocks; auto using schedule_a_small, schedule_a_ok, h_init_small.
Qed.

Lemma final_block_ok : padding 1000000 = Million.final_block.
Proof. vm_compute. reflexivity. Qed.

Lemma final_block_chunks :
  chunks (List.length Million.final_block / 64) Million.final_block
  = [Million.final_block].
Proof. vm_compute. reflexivity. Qed.

Lemma million_text :
  sha1_buffer (Some (repeat 97 (Z.to_nat 1000000))) 1000000
  = Some "34aa973cd4c4daa4f61eeb2bdbad27316534016f"%string.
Proof.
  assert (Hn : Z.to_nat 1000000 = (64 * Z.to_nat 15625)%nat) by lia.
  rewrite Hn.
  assert (Hlen : Z.of_nat (List.length (repeat 97 (64 * Z.to_nat 15625)))
                 = 1000000)
    by (rewrite repeat_length; lia).
  rewrite <- Hlen at 1. rewrite sha1_buffer_blocks.
  assert (E1 : staged (repeat 97 (64 * Z.to_nat 15625)) = [])
    by apply staged_repeat.
  assert (E2 : full_blocks (repeat 97 (64 * Z.to_nat 15625))
               = repeat Million.block_a (Z.to_nat 15625))
    by apply full_blocks_repeat.
  rewrite E1, E2, Hlen, app_nil_l.
  rewrite final_block_ok, final_block_chunks, blocks_of_a.
  vm_compute. reflexivity.
Qed.

End OneShot.

Section KnownVectors.

Import Sha1.

(** C2: the one-shot digest, in lower case, of the empty byte sequence,
    of the three bytes of "abc" and of 1,000,000 bytes 'a' (computed
    through [sha1_init_flags], [sha1_update], [sha1_end] and
    [sha1_text]). *)
Theorem sha1_known_vectors :
  sha1_buffer (Some []) 0
  = Some "da39a3ee5e6b4b0d3255bfef95601890afd80709"%string
  /\ sha1_buffer (Some (CStr.chars "abc")) 3
     = Some "a9993e364706816aba3e25717850c26c9cd0d89d"%string
  /\ sha1_buffer (Some (repeat 97 (Z.to_nat 1000000))) 1000000
     = Some "34aa973cd4c4daa4f61eeb2bdbad27316534016f"%string.
Proof.
  split; [|split].
  - vm_compute. reflexivity.
  - vm_compute. reflexivity.
  - exact million_text.
Qed.

End KnownVectors.

(** ** Search in a sorted corpus *)

Section SortedSearch.

Import Bisect.

Lemma some_inj {A} (a b : A) : Some a = Some b -> a = b.
Proof. congruence. Qed.

Lemma memcmp_refl n : forall a, CStr.memcmp a a n = 0.
Proof.
  induction n as [|n IH]; intros a; [reflexivity|].
  cbn [CStr.memcmp]. now rewrite Z.eqb_refl.
Qed.

Lemma memcmp_antisym n : forall a b, CStr.memcmp a b n = - CStr.memcmp b a n.
Proof.
  induction n as [|n IH]; intros a b; [reflexivity|].
  cbn [CStr.memcmp]. rewrite (Z.eqb_sym (hd 0 b)).
  destruct (Z.eqb_spec (hd 0 a) (hd 0 b)); [apply IH | lia].
Qed.

(** [memcmp] is zero exactly on equal byte strings. *)
Lemma memcmp_eq n : forall a b,
  (n <= List.length a)%nat -> (n <= List.length b)%nat ->
  (CStr.memcmp a b n = 0 <-> firstn n a = firstn n b).
Proof.
  induction n as [|n IH]; intros a b Ha Hb; [now split|].
  destruct a as [|x a]; [cbn in Ha; lia|].
  destruct b as [|y b]; [cbn in Hb; lia|].
  cbn [List.length] in Ha, Hb.
  cbn [CStr.memcmp hd tl firstn].
  destruct (Z.eqb_spec x y) as [->|Hne].
  - rewrite IH by lia. split; [now intros -> | now intros [= ->]].
  - split; [lia | intros [= E _]; contradiction].
Qed.


Lemma strncasecmp_antisym n : forall a b,
  CStr.strncasecmp a b n = - CStr.strncasecmp b a n.
Proof.
  induction n as [|n IH]; intros a b; [reflexivity|].
  cbn [CStr.strncasecmp].
  rewrite (Z.eqb_sym (CStr.tolower (hd 0 b))).
  destruct (Z.eqb_spec (CStr.tolower (hd 0 a)) (CStr.tolower (hd 0 b)))
    as [E|E]; [|lia].
  rewrite <- E. destruct (_ =? 0); [reflexivity | apply IH].
Qed.

(** [strncasecmp] reads at most [n] characters of its first argument. *)
Lemma strncasecmp_firstn n : forall a b,
  CStr.strncasecmp (firstn n a) b n = CStr.strncasecmp a b n.
Proof.
  induction n as [|n IH]; intros a b; [reflexivity|].
  destruct a as [|x a]; [reflexivity|].
  cbn [firstn CStr.strncasecmp hd tl]. now rewrite IH.
Qed.

Lemma bin_cmp_at data target n m :
  Z.of_nat (List.length data) = 24 * n -> 0 <= m < n ->
  FindPwned.cmp_at data target m
  = Some (CStr.memcmp target (bin_hash data m) 20).
Proof.
  intros Hlen Hm. unfold FindPwned.cmp_at, FindPwned.record_at.
  unfold FindPwned.kPwnedInfoSize.
  destruct (Z.leb_spec 0 m); [|lia].
  destruct (Z.leb_spec (24 * (m + 1)) (Z.of_nat (List.length data))); [|lia].
  reflexivity.
Qed.

Lemma text_cmp_at data target n m :
  Z.of_nat (List.length data) = 63 * n -> 0 <= m < n ->
  FindPwnedPasswordHash.cmp_at data target m
  = Some (CStr.strncasecmp (CStr.chars target) (text_line data m) 40).
Proof.
  intros Hlen Hm.
  unfold FindPwnedPasswordHash.cmp_at, FindPwnedPasswordHash.line_at.
  unfold FindPwnedPasswordHash.kTextHashLineBytes.
  destruct (Z.leb_spec 0 m); [|lia].
  destruct (Z.leb_spec (63 * (m + 1)) (Z.of_nat (List.length data))); [|lia].
  reflexivity.
Qed.

(** X1: in a sorted binary corpus of [n >= 1] records, [find_hash] called
    with the hash of record [i] returns 1 and the count of record [i] when
    [i] is not the last of several records, and returns 0 with count 0 for
    the last record of a corpus of two records or more. *)
Theorem bin_find_hash_sorted (data : list Z) (n i : Z) :
  1 <= n -> 24 * n < 2 ^ 63 ->
  Z.of_nat (List.length data) = 24 * n ->
  bin_sorted data n ->
  0 <= i < n ->
  FindPwned.find_hash data (24 * n) (bin_hash data i)
  = Some (if (i <? n - 1) || (n =? 1)
          then Ret 1 (FindPwned.count_at data i) else Ret 0 0).
Proof.
  intros Hn Hsz Hlen Hsort Hi.
  assert (Hlt : forall a b, 0 <= a -> a < b -> b < n ->
            CStr.memcmp (bin_hash data b) (bin_hash data a) 20 > 0).
  { intros a b Ha Hab Hb. rewrite memcmp_antisym.
    specialize (Hsort a b Ha Hab Hb). lia. }
  destruct ((i <? n - 1) || (n =? 1)) eqn:Hcase.
  - apply bin_finds; auto.
    + destruct (Z.ltb_spec i (n - 1)); [lia|].
      destruct (Z.eqb_spec n 1); [lia | discriminate].
    + intros m Hm. rewrite (bin_cmp_at data _ n m Hlen Hm).
      eexists. split; [reflexivity|].
      destruct (Z.lt_trichotomy i m) as [Him | [-> | Him]].
      * specialize (Hsort i m ltac:(lia) Him ltac:(lia)). lia.
      * rewrite memcmp_refl. lia.
      * specialize (Hlt m i ltac:(lia) Him ltac:(lia)). lia.
  - destruct (Z.ltb_spec i (n - 1)); [discriminate|].
    destruct (Z.eqb_spec n 1); [discriminate|].
    apply bin_misses_last; auto; [lia|].
    intros m Hm. rewrite (bin_cmp_at data _ n m Hlen ltac:(lia)).
    specialize (Hlt m i ltac:(lia) ltac:(lia) ltac:(lia)).
    intros E. apply some_inj in E. lia.
Qed.


End SortedSearch.


Section SearchBounds.

Import Bisect.

Lemma bin_hash_length data n m :
  Z.of_nat (List.length data) = 24 * n -> 0 <= m < n ->
  List.length (bin_hash data m) = 20%nat.
Proof.
  intros Hlen Hm. unfold bin_hash.
  rewrite firstn_length_le; [reflexivity|]. rewrite length_skipn. lia.
Qed.

(** X3: on any binary corpus of [n >= 1] records, sorted or not, and any
    20-byte target, [find_hash] either returns 0 with count 0, or returns
    1 with the count of a record whose 20 hash bytes are the target: a hit
    is never reported for a hash that is not in the file. *)
Theorem bin_find_hash_sound (data : list Z) (n : Z) (target : list Z) :
  1 <= n -> 24 * n < 2 ^ 63 ->
  Z.of_nat (List.length data) = 24 * n ->
  List.length target = 20%nat ->
  exists r,
    FindPwned.find_hash data (24 * n) target = Some r
    /\ (r = Ret 0 0
        \/ exists m, 0 <= m < n /\ bin_hash data m = target
                     /\ r = Ret 1 (FindPwned.count_at data m)).
Proof.
  intros Hn Hsz Hlen Htarget.
  rewrite bin_find_hash_search by lia.
  pose proof (bin_mapped data target n Hlen) as Hmap.
  destruct (loop_terminates _ (FindPwned.count_at data) n Hmap (Z.to_nat n)
              (start (n - 1)))
    as (s & r & Hloop & Hin & Hex).
  { now apply (start_inside (fun z => z)). }
  { cbn [lo hi start]. lia. }
  exists r. split.
  { apply (search_loop _ _ _ _ _ _ Hloop). lia. }
  pose proof (mid_between (fun z => z) n s Hin) as Hmid. destruct Hin as (Hlo & Hhi & _).
  destruct Hex as [(Hc & ->) | (_ & _ & ->)]; [right | now left].
  exists (mid s). split; [lia|]. split; [|reflexivity].
  rewrite (bin_cmp_at data target n (mid s) Hlen ltac:(lia)) in Hc.
  apply some_inj in Hc.
  pose proof (bin_hash_length data n (mid s) Hlen ltac:(lia)) as Hl.
  apply memcmp_eq in Hc; [|lia|lia].
  rewrite (firstn_all2 (n := 20) target) in Hc by lia.
  rewrite (firstn_all2 (n := 20) (bin_hash data (mid s))) in Hc by lia.
  now symmetry.
Qed.

Lemma body_continue cmp_at count_at s s' :
  body cmp_at count_at s = Continue s' -> lo s <> mid s.
Proof.
  unfold body. destruct (cmp_at (mid s)) as [c|]; [|discriminate].
  destruct (0 =? c); [discriminate|].
  destruct (Z.eqb_spec (lo s) (mid s)); [discriminate | auto].
Qed.

(** An interval of width at most [2^k] is left within [k + 1] passes. *)
Lemma loop_log cmp_at count_at n
  (Hmap : forall m, 0 <= m < n -> exists c, cmp_at m = Some c) k :
  forall s,
    inside n s ->
    hi s - lo s <= 2 ^ Z.of_nat k ->
    exists s' r, loop cmp_at count_at (S k) s = Some (s', r).
Proof.
  induction k as [|k IH]; intros s Hin Hw.
  - cbn [loop].
    destruct (body_cases cmp_at count_at n Hmap s Hin)
      as [(r & -> & _) | (s' & Hb & _ & _ & Hlt & _)]; [eauto|].
    exfalso. apply body_continue in Hb.
    destruct Hin as (Hlo & _ & Hm).
    rewrite Z.quot_div_nonneg in Hm by lia.
    change (2 ^ Z.of_nat 0) with 1 in Hw. lia.
  - change (loop cmp_at count_at (S (S k)) s)
      with (match body cmp_at count_at s with
            | Continue s' => loop cmp_at count_at (S k) s'
            | Exit r => Some (s, r)
            end).
    destruct (body_cases cmp_at count_at n Hmap s Hin)
      as [(r & -> & _) | (s' & -> & Hin' & _ & _ & Hnext)]; [eauto|].
    apply IH; [exact Hin'|].
    destruct Hin as (Hlo & _ & Hm).
    rewrite Z.quot_div_nonneg in Hm by lia.
    rewrite Nat2Z.inj_succ, Z.pow_succ_r in Hw by lia.
    destruct Hnext as [(-> & ->) | (-> & ->)]; lia.
Qed.

(** X4: the number of records compared is logarithmic: for a corpus of
    [n >= 1] records with [n - 1 <= 2^k], the loop of either [find_hash]
    is left after at most [k + 1] passes. *)
Theorem find_hash_probes (n : Z) (k : nat) (data : list Z) (hash0 : list Z)
  (tdata : list Z) (thash : string) (count0 : Z) :
  1 <= n ->
  n - 1 <= 2 ^ Z.of_nat k ->
  24 * n < 2 ^ 63 ->
  Z.of_nat (List.length data) = 24 * n ->
  Z.of_nat (List.length tdata) = 63 * n ->
  CStr.strlen thash = 40 ->
  (exists s r,
      loop (FindPwned.cmp_at data hash0) (FindPwned.count_at data) (S k)
        (start (n - 1)) = Some (s, r)
      /\ FindPwned.find_hash data (24 * n) hash0 = Some r)
  /\ (exists s r,
        loop (FindPwnedPasswordHash.cmp_at tdata thash)
          (FindPwnedPasswordHash.count_at tdata) (S k) (start (n - 1))
        = Some (s, r)
        /\ FindPwnedPasswordHash.find_hash tdata (63 * n) thash count0
           = Some r).
Proof.
  intros Hn Hk Hsz Hlen Htlen Hh.
  split.
  - pose proof (bin_mapped data hash0 n Hlen) as Hmap.
    destruct (loop_log _ (FindPwned.count_at data) n Hmap k (start (n - 1)))
      as (s & r & Hloop).
    { now apply (start_inside (fun z => z)). }
    { cbn [lo hi start]. lia. }
    exists s, r. split; [exact Hloop|].
    rewrite bin_find_hash_search by lia.
    destruct (search_terminates _ (FindPwned.count_at data) n Hmap Hn)
      as (p & s2 & r2 & _ & Hall & _ & ->).
    specialize (Hall (S k + p)%nat ltac:(lia)).
    rewrite (loop_more _ _ _ (S k + p)%nat _ _ Hloop ltac:(lia)) in Hall.
    congruence.
  - pose proof (text_mapped tdata thash n Htlen) as Hmap.
    destruct (loop_log _ (FindPwnedPasswordHash.count_at tdata) n Hmap k
                (start (n - 1)))
      as (s & r & Hloop).
    { now apply (start_inside (fun z => z)). }
    { cbn [lo hi start]. lia. }
    exists s, r. split; [exact Hloop|].
    rewrite text_find_hash_search by lia.
    destruct (search_terminates _ (FindPwnedPasswordHash.count_at tdata) n
                Hmap Hn)
      as (p & s2 & r2 & _ & Hall & _ & ->).
    specialize (Hall (S k + p)%nat ltac:(lia)).
    rewrite (loop_more _ _ _ (S k + p)%nat _ _ Hloop ltac:(lia)) in Hall.
    congruence.
Qed.


End SearchBounds.

(** ** The digest as an iteration over the padded message *)

Section MerkleDamgard.

Import Sha1.

Lemma chunks_app_exact q : forall k (P T : list Z),
  List.length P = (64 * q)%nat ->
  chunks (q + k) (P ++ T) = chunks q P ++ chunks k T.
Proof.
  induction q as [|q IH]; intros k P T HP.
  - destruct P; [reflexivity | cbn in HP; lia].
  - cbn [Nat.add chunks app].
    rewrite firstn_app_le, skipn_app_le by lia.
    rewrite IH by (rewrite length_skipn; lia). reflexivity.
Qed.

Lemma padded_blocks msg :
  let tail := staged msg ++ padding (Z.of_nat (List.length msg)) in
  let padded := msg ++ padding (Z.of_nat (List.length msg)) in
  List.length padded
  = (64 * (List.length msg / 64 + List.length tail / 64))%nat
  /\ chunks (List.length padded / 64) padded
     = full_blocks msg ++ chunks (List.length tail / 64) tail.
Proof.
  cbv zeta.
  set (pad := padding (Z.of_nat (List.length msg))).
  set (q := (List.length msg / 64)%nat).
  assert (Hmsg : msg = firstn (64 * q) msg ++ staged msg)
    by (unfold staged; fold q; now rewrite firstn_skipn).
  assert (HP : List.length (firstn (64 * q) msg) = (64 * q)%nat)
    by (rewrite firstn_length_le; unfold q; lia).
  assert (Hpad : ((List.length (staged msg) + List.length pad) mod 64 = 0)%nat).
  { rewrite staged_length. unfold pad, padding.
    rewrite !length_app, repeat_length, be64_length. cbn [List.length].
    lia. }
  assert (Hlen : List.length (msg ++ pad)
                 = (64 * (q + List.length (staged msg ++ pad) / 64))%nat).
  { rewrite !length_app.
    pose proof (staged_length msg). unfold q. lia. }
  split; [exact Hlen|].
  rewrite Hlen.
  replace (64 * (q + List.length (staged msg ++ pad) / 64) / 64)%nat
    with (q + List.length (staged msg ++ pad) / 64)%nat by lia.
  replace (msg ++ pad) with (firstn (64 * q) msg ++ (staged msg ++ pad))
    by (rewrite app_assoc; now rewrite <- Hmsg).
  rewrite chunks_app_exact by exact HP.
  f_equal. unfold full_blocks. fold q.
  rewrite Hmsg at 2. symmetry. apply chunks_app. lia.
Qed.

(** X6: the one-shot digest of any message is the text of the accumulator
    obtained by running the compression round, from the initial constants,
    over the 64-byte blocks of the message followed by its padding (0x80,
    zero bytes, the bit count on 8 bytes); the padded message is a whole
    number of blocks. *)
Theorem sha1_buffer_flags_merkle_damgard (msg : list Z) (flags0 : Z) :
  let padded := msg ++ padding (Z.of_nat (List.length msg)) in
  (List.length padded mod 64 = 0)%nat
  /\ sha1_buffer_flags (Some msg) (Z.of_nat (List.length msg)) flags0
     = Some (text_loop (Z.to_nat SHA1_BINARY_BYTES) (tohex_of flags0)
               (hash_bytes
                  (fold_left sha1_hash_block
                     (chunks (List.length padded / 64) padded)
                     (h sha1_initialized))) 0).
Proof.
  cbv zeta. destruct (padded_blocks msg) as [Hlen Hchunks].
  split; [rewrite Hlen; lia|].
  rewrite Hchunks, fold_left_app.
  unfold sha1_buffer_flags.
  destruct (stream_tracks sha1_initialized flags0 [msg])
    as (s & Hs & Ht & Hf).
  cbn [stream fold_left List.concat] in Hs, Ht.
  rewrite app_nil_r in Ht. rewrite Hs.
  destruct (sha1_end_tracks s msg Ht) as [_ ->].
  destruct Ht as (_ & _ & _ & Hh & _).
  rewrite sha1_text_h. cbn [h flags]. now rewrite Hf, Hh.
Qed.

(** X7: after updates totalling [N] bytes the block counter is the number
    of complete blocks, [N / 64] modulo 2^32, and the byte counter is [N]
    modulo 2^64; [sha1_end] adds one block, or two when [N mod 64 >= 56],
    and leaves the byte counter and the flags as they are. *)
Theorem counters_after_end (s0 : sha1_t) (flags0 : Z)
  (frags : list (list Z)) :
  let N := Z.of_nat (List.length (List.concat frags)) in
  exists s s',
    stream (sha1_init_flags (Some s0) flags0) frags = Some s
    /\ sha1_end (Some s) = Some s'
    /\ bytes s = N mod 2 ^ 64
    /\ blocks s = (N / 64) mod 2 ^ 32
    /\ flags s = flags0
    /\ bytes s' = bytes s
    /\ blocks s' = (N / 64 + (if N mod 64 <? 56 then 1 else 2)) mod 2 ^ 32
    /\ flags s' = flags0.
Proof.
  cbv zeta.
  destruct (stream_tracks s0 flags0 frags) as (s & Hs & Ht & Hf).
  destruct (sha1_end_tracks s _ Ht) as [Hlen Hend].
  pose proof Ht as (_ & Hb & _ & _ & Hbl).
  eexists s, _. split; [exact Hs|]. split; [exact Hend|].
  cbn [bytes blocks flags].
  repeat split; auto.
  - rewrite Hbl. f_equal. lia.
  - rewrite Hlen, u32_mod, Hbl.
    destruct (_ <? 56); change (2 ^ 32) with 4294967296; lia.
Qed.

End MerkleDamgard.

(** ** The text of a digest *)

Section DigestText.

Import Sha1.

Lemma nibble_range x : 0 <= Z.land x 0x0F < 16.
Proof.
  change 0x0F with (Z.ones 4). rewrite Z.land_ones by lia.
  change (2 ^ 4) with 16. lia.
Qed.

Lemma nibble_cases i :
  0 <= i < 16 ->
  In i [0; 1; 2; 3; 4; 5; 6; 7; 8; 9; 10; 11; 12; 13; 14; 15].
Proof.
  intros H. cbn [In].
  assert (C : i = 0 \/ i = 1 \/ i = 2 \/ i = 3 \/ i = 4 \/ i = 5 \/ i = 6
              \/ i = 7 \/ i = 8 \/ i = 9 \/ i = 10 \/ i = 11 \/ i = 12
              \/ i = 13 \/ i = 14 \/ i = 15) by lia.
  intuition auto.
Qed.

Lemma tohex_cases flags0 :
  tohex_of flags0 = "0123456789abcdef"%string
  \/ tohex_of flags0 = "0123456789ABCDEF"%string.
Proof. unfold tohex_of. destruct (_ =? 0); auto. Qed.

Lemma hexchar_in flags0 i :
  0 <= i < 16 ->
  In (hexchar (tohex_of flags0) i) (list_ascii_of_string (tohex_of flags0)).
Proof.
  intros H. apply nibble_cases in H.
  destruct (tohex_cases flags0) as [-> | ->];
    repeat (destruct H as [<- | H]; [vm_compute; tauto|]);
    destruct H.
Qed.

Lemma text_loop_length n : forall tohex hash i,
  String.length (text_loop n tohex hash i) = (2 * n)%nat.
Proof.
  induction n as [|n IH]; intros tohex hash i; [reflexivity|].
  cbn [text_loop String.length]. rewrite IH. lia.
Qed.

Lemma text_loop_digits n flags0 : forall hash i,
  Forall (fun c => In c (list_ascii_of_string (tohex_of flags0)))
    (list_ascii_of_string (text_loop n (tohex_of flags0) hash i)).
Proof.
  induction n as [|n IH]; intros hash i; [constructor|].
  cbn [text_loop list_ascii_of_string].
  constructor; [apply hexchar_in, nibble_range|].
  constructor; [apply hexchar_in, nibble_range|]. apply IH.
Qed.

(** X8: for every state, [sha1_text] writes exactly 40 characters, each of
    them one of the 16 digits of the table that the case flag selects. *)
Theorem sha1_text_format (s : sha1_t) :
  exists t,
    sha1_text (Some s) = Some t
    /\ CStr.strlen t = SHA1_TEXT_BYTES - 1
    /\ Forall (fun c => In c (list_ascii_of_string (tohex_of (flags s))))
         (list_ascii_of_string t).
Proof.
  eexists. split; [apply sha1_text_h|]. split.
  - unfold CStr.strlen. rewrite text_loop_length. reflexivity.
  - apply text_loop_digits.
Qed.

Lemma init_with_flags s0 flags0 :
  sha1_init_flags (Some s0) flags0
  = Some (with_flags flags0 sha1_initialized).
Proof. reflexivity. Qed.

Lemma with_flags_mk f a b c d e :
  with_flags f {| h := a; block := b; bytes := c; blocks := d; flags := e |}
  = {| h := a; block := b; bytes := c; blocks := d; flags := f |}.
Proof. reflexivity. Qed.

Lemma update_loop_with_flags f fuel : forall s b size,
  update_loop fuel (with_flags f s) b size
  = let '(s2, b2, size2) := update_loop fuel s b size in
    (with_flags f s2, b2, size2).
Proof.
  induction fuel as [|fuel IH]; intros s b size; [reflexivity|].
  cbn [update_loop]. destruct (SHA1_BLOCK_BYTES <=? size); [|reflexivity].
  change (bytes (with_flags f s)) with (bytes s).
  change (block (with_flags f s)) with (block s).
  change (h (with_flags f s)) with (h s).
  change (blocks (with_flags f s)) with (blocks s).
  change (flags (with_flags f s)) with f.
  rewrite <- (with_flags_mk f _ _ _ _ (flags s)).
  apply IH.
Qed.

Lemma update_body_with_flags f s b size :
  update_body (with_flags f s) b size = with_flags f (update_body s b size).
Proof.
  unfold update_body.
  change (bytes (with_flags f s)) with (bytes s).
  change (block (with_flags f s)) with (block s).
  change (h (with_flags f s)) with (h s).
  change (blocks (with_flags f s)) with (blocks s).
  change (flags (with_flags f s)) with f.
  destruct (size <? _); [now rewrite with_flags_mk|].
  rewrite <- (with_flags_mk f _ _ _ _ (flags s)).
  rewrite update_loop_with_flags.
  destruct (update_loop _ _ _ _) as [[s2 b2] size2].
  destruct (0 <? size2); [|reflexivity].
  destruct s2 as [h2 blk2 bytes2 blocks2 flags2].
  cbn [h block bytes blocks flags]. now rewrite !with_flags_mk.
Qed.

Lemma update_with_flags f s data size :
  sha1_update (Some (with_flags f s)) data size
  = option_map (with_flags f) (sha1_update (Some s) data size).
Proof.
  destruct data as [b|]; [|reflexivity].
  cbn [sha1_update]. destruct (size =? 0); [reflexivity|].
  cbn [option_map]. now rewrite update_body_with_flags.
Qed.

Lemma end_with_flags f s :
  sha1_end (Some (with_flags f s))
  = option_map (with_flags f) (sha1_end (Some s)).
Proof.
  unfold sha1_end.
  change (bytes (with_flags f s)) with (bytes s).
  change (block (with_flags f s)) with (block s).
  change (h (with_flags f s)) with (h s).
  change (blocks (with_flags f s)) with (blocks s).
  change (flags (with_flags f s)) with f.
  destruct (_ <? _); cbv beta iota zeta; cbn [option_map];
    now rewrite with_flags_mk.
Qed.

(** The state that a one-shot digest ends in has the same accumulator
    whatever the flags are. *)
Lemma one_shot_with_flags data size flags0 :
  sha1_end
    (sha1_update (sha1_init_flags (Some sha1_initialized) flags0) data size)
  = option_map (with_flags flags0)
      (sha1_end (sha1_update (Some sha1_initialized) data size)).
Proof.
  rewrite init_with_flags, update_with_flags.
  destruct (sha1_update (Some sha1_initialized) data size) as [s|];
    [|reflexivity].
  apply end_with_flags.
Qed.

Lemma hexchar_upper i :
  0 <= i < 16 ->
  ascii_of_nat
    (Z.to_nat
       (CStr.toupper
          (Z.of_nat (nat_of_ascii (hexchar "0123456789abcdef" i)))))
  = hexchar "0123456789ABCDEF" i.
Proof.
  intros H. apply nibble_cases in H.
  repeat (destruct H as [<- | H]; [vm_compute; reflexivity|]).
  destruct H.
Qed.

Lemma upper_text_loop n : forall hash i,
  CStr.upper (text_loop n "0123456789abcdef" hash i)
  = text_loop n "0123456789ABCDEF" hash i.
Proof.
  induction n as [|n IH]; intros hash i; [reflexivity|].
  specialize (IH hash (i + 1)).
  unfold CStr.upper, CStr.map_chars in *.
  cbn [text_loop list_ascii_of_string map string_of_list_ascii].
  rewrite IH, !hexchar_upper by apply nibble_range. reflexivity.
Qed.

(** X9: the flag [SHA1_FLAG_UPPER_CASE] changes nothing but the case of the
    letters: with the bit set the one-shot digest is the upper-case form of
    the default digest, with the bit clear it is the default digest, for
    every input and every other bit of the flags. *)
Theorem upper_case_flag (data : option (list Z)) (size flags0 : Z) :
  sha1_buffer_flags data size flags0
  = if Z.land flags0 SHA1_FLAG_UPPER_CASE =? 0
    then sha1_buffer_flags data size SHA1_FLAGS_DEFAULT
    else option_map CStr.upper
           (sha1_buffer_flags data size SHA1_FLAGS_DEFAULT).
Proof.
  unfold sha1_buffer_flags.
  rewrite (one_shot_with_flags data size flags0),
    (one_shot_with_flags data size SHA1_FLAGS_DEFAULT).
  destruct (sha1_end (sha1_update (Some sha1_initialized) data size))
    as [s|]; [|now destruct (_ =? 0)].
  cbn [option_map]. rewrite !sha1_text_h.
  change (flags (with_flags ?f s)) with f.
  change (h (with_flags ?f s)) with (h s).
  unfold tohex_of at 1.
  destruct (Z.land flags0 SHA1_FLAG_UPPER_CASE =? 0); [reflexivity|].
  cbn [option_map]. f_equal. symmetry. apply upper_text_loop.
Qed.

End DigestText.

(** ** Decoding hex text *)

Section HexDecoding.

Import Sha1.


Lemma hex2byte_digits l :
  0 <= FindPwned.hexval (Mem.load l 0) ->
  0 <= FindPwned.hexval (Mem.load l 1) ->
  FindPwned.hex2byte l
  = Some (FindPwned.hexval (Mem.load l 0) * 16
          + FindPwned.hexval (Mem.load l 1)).
Proof.
  intros H0 H1. unfold FindPwned.hex2byte.
  destruct (Z.ltb_spec (FindPwned.hexval (Mem.load l 0)) 0); [lia|].
  destruct (Z.ltb_spec (FindPwned.hexval (Mem.load l 1)) 0); [lia|].
  reflexivity.
Qed.

Lemma parse_hash_fills n : forall input j acc dst,
  List.length acc = j ->
  (j + n <= List.length dst)%nat ->
  (forall k, 2 * Z.of_nat j <= k < 2 * Z.of_nat j + 2 * Z.of_nat n ->
     0 <= FindPwned.hexval (Mem.load input k)) ->
  FindPwned.parse_hash n input (Z.of_nat j) (splice dst 0 acc)
  = inl (splice dst 0
           (acc ++ map (fun k =>
                          FindPwned.hexval (Mem.load input (2 * Z.of_nat k))
                          * 16
                          + FindPwned.hexval
                              (Mem.load input (2 * Z.of_nat k + 1)))
                     (seq j n))).
Proof.
  induction n as [|n IH]; intros input j acc dst Hacc Hlen Hhex.
  - cbn [FindPwned.parse_hash seq map]. now rewrite app_nil_r.
  - cbn [FindPwned.parse_hash seq map].
    rewrite hex2byte_digits
      by (rewrite load_skipn by lia; apply Hhex; lia).
    rewrite !load_skipn by lia.
    rewrite store_after by (cbn [Nat.add]; lia).
    replace (Z.of_nat j + 1) with (Z.of_nat (S j)) by lia.
    rewrite IH.
    + rewrite <- app_assoc, Z.add_0_r. reflexivity.
    + rewrite length_app. cbn [List.length]. lia.
    + lia.
    + intros k Hk. apply Hhex. lia.
Qed.

Lemma hex_bytes_length input n : List.length (hex_bytes input n) = n.
Proof. unfold hex_bytes. now rewrite length_map, length_seq. Qed.

Lemma parse_hash_hex input :
  let n := Z.to_nat SHA1_BINARY_BYTES in
  hex_text input n ->
  FindPwned.parse_hash n input 0 (repeat 0 n) = inl (hex_bytes input n).
Proof.
  cbv zeta. set (n := Z.to_nat SHA1_BINARY_BYTES).
  assert (Hn : Z.of_nat n = 20) by reflexivity.
  intros Hhex.
  pose proof (parse_hash_fills n input 0 [] (repeat 0 n) eq_refl) as H.
  rewrite splice_nil in H by (cbn [List.length]; lia).
  change (Z.of_nat 0) with 0 in H. rewrite H.
  - cbn [app]. fold (hex_bytes input n). rewrite splice_all; [reflexivity|].
    now rewrite hex_bytes_length, repeat_length.
  - rewrite repeat_length. lia.
  - intros k Hk. apply Hhex. lia.
Qed.


Lemma hexval_hexchar flags0 i :
  0 <= i < 16 ->
  FindPwned.hexval (Z.of_nat (nat_of_ascii (hexchar (tohex_of flags0) i)))
  = i.
Proof.
  intros H. apply nibble_cases in H.
  destruct (tohex_cases flags0) as [-> | ->];
    repeat (destruct H as [<- | H]; [vm_compute; reflexivity|]);
    destruct H.
Qed.

Lemma byte_nibbles x :
  0 <= x < 256 ->
  Z.land (Z.shiftr x 4) 0x0F * 16 + Z.land (Z.shiftr x 0) 0x0F = x.
Proof.
  intros H. change 0x0F with (Z.ones 4).
  rewrite !Z.land_ones, !Z.shiftr_div_pow2 by lia.
  change (2 ^ 4) with 16. change (2 ^ 0) with 1. rewrite Z.div_1_r. lia.
Qed.

Lemma text_loop_chars n : forall tohex hash i k,
  (k < n)%nat ->
  let x := Mem.load hash (Z.lxor (i + Z.of_nat k) 3) in
  Mem.load (CStr.chars (text_loop n tohex hash i)) (2 * Z.of_nat k)
  = Z.of_nat (nat_of_ascii (hexchar tohex (Z.land (Z.shiftr x 4) 0x0F)))
  /\ Mem.load (CStr.chars (text_loop n tohex hash i)) (2 * Z.of_nat k + 1)
     = Z.of_nat (nat_of_ascii (hexchar tohex (Z.land (Z.shiftr x 0) 0x0F))).
Proof.
  induction n as [|n IH]; intros tohex hash i k Hk; [lia|].
  cbv zeta. unfold CStr.chars in *.
  cbn [text_loop list_ascii_of_string map].
  destruct k as [|k].
  - change (2 * Z.of_nat 0) with 0. rewrite Z.add_0_r. split; reflexivity.
  - specialize (IH tohex hash (i + 1) k ltac:(lia)). cbv zeta in IH.
    replace (i + Z.of_nat (S k)) with (i + 1 + Z.of_nat k) by lia.
    destruct IH as [IH0 IH1]. rewrite <- IH0, <- IH1.
    unfold Mem.load.
    replace (Z.to_nat (2 * Z.of_nat (S k)))
      with (S (S (Z.to_nat (2 * Z.of_nat k)))) by lia.
    replace (Z.to_nat (2 * Z.of_nat (S k) + 1))
      with (S (S (Z.to_nat (2 * Z.of_nat k + 1)))) by lia.
    split; reflexivity.
Qed.

Lemma hash_bytes_range l : Forall (fun b => 0 <= b < 256) (hash_bytes l).
Proof.
  assert (B : forall x, 0 <= Z.land x 0xFF < 256).
  { intros x. change 0xFF with (Z.ones 8). rewrite Z.land_ones by lia.
    change (2 ^ 8) with 256. lia. }
  unfold hash_bytes. induction l as [|x l IH]; [constructor|].
  cbn [flat_map word_bytes app]. repeat (constructor; [apply B|]). exact IH.
Qed.

Lemma load_range l i :
  Forall (fun b => 0 <= b < 256) l -> 0 <= Mem.load l i < 256.
Proof.
  intros H. unfold Mem.load.
  destruct (nth_in_or_default (Z.to_nat i) l 0) as [Hin | ->]; [|lia].
  now apply (proj1 (Forall_forall _ _) H).
Qed.

Lemma swizzle (a0 a1 a2 a3 b0 b1 b2 b3 c0 c1 c2 c3 d0 d1 d2 d3
               e0 e1 e2 e3 : Z) :
  map (fun k => Mem.load
                  [a0; a1; a2; a3; b0; b1; b2; b3; c0; c1; c2; c3;
                   d0; d1; d2; d3; e0; e1; e2; e3]
                  (Z.lxor (0 + Z.of_nat k) 3))
    (seq 0 20)
  = [a3; a2; a1; a0; b3; b2; b1; b0; c3; c2; c1; c0;
     d3; d2; d1; d0; e3; e2; e1; e0].
Proof. reflexivity. Qed.

(** X11: the text that [sha1_text] writes, read back by the hex decoder of
    [handle_input], gives the 20 bytes of the accumulator, each word most
    significant byte first, in either letter case. *)
Theorem sha1_text_decodes (s : sha1_t) (t : string) :
  List.length (h s) = Z.to_nat SHA1_BINARY_WORDS ->
  sha1_text (Some s) = Some t ->
  FindPwned.parse_hash (Z.to_nat SHA1_BINARY_BYTES) (CStr.chars t) 0
    (repeat 0 (Z.to_nat SHA1_BINARY_BYTES))
  = inl (digest_bytes s).
Proof.
  intros Hlen Ht. rewrite sha1_text_h in Ht. apply some_inj in Ht.
  subst t.
  set (n := Z.to_nat SHA1_BINARY_BYTES).
  set (hb := hash_bytes (h s)).
  set (t := text_loop n (tohex_of (flags s)) hb 0).
  assert (Hpair : forall k, (k < n)%nat ->
    FindPwned.hexval (Mem.load (CStr.chars t) (2 * Z.of_nat k)) * 16
    + FindPwned.hexval (Mem.load (CStr.chars t) (2 * Z.of_nat k + 1))
    = Mem.load hb (Z.lxor (0 + Z.of_nat k) 3)
    /\ 0 <= FindPwned.hexval (Mem.load (CStr.chars t) (2 * Z.of_nat k))
    /\ 0 <= FindPwned.hexval
              (Mem.load (CStr.chars t) (2 * Z.of_nat k + 1))).
  { intros k Hk. unfold t.
    destruct (text_loop_chars n (tohex_of (flags s)) hb 0 k Hk)
      as [-> ->].
    rewrite !hexval_hexchar by apply nibble_range.
    pose proof (nibble_range
                  (Z.shiftr (Mem.load hb (Z.lxor (0 + Z.of_nat k) 3)) 4)).
    pose proof (nibble_range
                  (Z.shiftr (Mem.load hb (Z.lxor (0 + Z.of_nat k) 3)) 0)).
    split; [|lia].
    apply byte_nibbles, load_range, hash_bytes_range. }
  assert (Hhex : hex_text (CStr.chars t) n).
  { intros k Hk.
    destruct (Z.even k) eqn:E.
    - apply Z.even_spec in E as [m ->].
      destruct (Hpair (Z.to_nat m) ltac:(lia)) as (_ & H & _).
      now replace (2 * Z.of_nat (Z.to_nat m)) with (2 * m) in H by lia.
    - rewrite <- Z.negb_odd in E. apply negb_false_iff in E.
      apply Z.odd_spec in E as [m ->].
      destruct (Hpair (Z.to_nat m) ltac:(lia)) as (_ & _ & H).
      now replace (2 * Z.of_nat (Z.to_nat m)) with (2 * m) in H by lia. }
  pose proof (parse_hash_hex (CStr.chars t)) as H. cbv zeta in H.
  fold n in H. rewrite (H Hhex). f_equal.
  unfold hex_bytes.
  rewrite (map_ext_in _ (fun k => Mem.load hb (Z.lxor (0 + Z.of_nat k) 3))).
  - unfold hb, digest_bytes, hash_bytes.
    destruct (h s) as [|a [|b [|c [|d [|e [|]]]]]]; try discriminate Hlen.
    cbn [flat_map word_bytes app rev]. apply swizzle.
  - intros k Hk. apply in_seq in Hk. apply Hpair. lia.
Qed.

End HexDecoding.

(** ** Lines and queries *)

Section Lines.

Lemma newline_code c :
  (Z.of_nat (nat_of_ascii c) =? 10) = true <-> c = "010"%char.
Proof.
  rewrite Z.eqb_eq. split.
  - intros H. rewrite <- (ascii_nat_embedding c).
    replace (nat_of_ascii c) with 10%nat by lia. reflexivity.
  - intros ->. reflexivity.
Qed.

Lemma append_newline_nonempty s : (s ++ newlines 1)%string <> EmptyString.
Proof. destruct s; discriminate. Qed.

Lemma chomp_same line :
  FindPwnedPasswordHash.chomp line = FindPwned.chomp line.
Proof.
  induction line as [|c rest IH]; [reflexivity|].
  cbn [FindPwnedPasswordHash.chomp FindPwned.chomp]. now rewrite IH.
Qed.

(** X12: the loop that both programs run on an input line removes the
    newline characters at its end, all of them and nothing else: the line
    is the query followed by newlines only, and the query does not end
    with a newline. *)
Theorem chomp_cuts_trailing_newlines (line : string) :
  FindPwnedPasswordHash.chomp line = FindPwned.chomp line
  /\ (exists k, line = (FindPwned.chomp line ++ newlines k)%string)
  /\ (forall s, FindPwned.chomp line <> (s ++ newlines 1)%string).
Proof.
  split; [apply chomp_same|].
  induction line as [|c rest IH].
  2: destruct IH as [[k Hk] Hend].
  - split; [now exists 0%nat|]. intros s H. symmetry in H.
    now apply append_newline_nonempty in H.
  - cbn [FindPwned.chomp].
    destruct (FindPwned.chomp rest) as [|d r] eqn:E.
    + cbn [append] in Hk.
      destruct (Z.of_nat (nat_of_ascii c) =? 10) eqn:Hc.
      * apply newline_code in Hc. subst c. split.
        -- exists (S k). now rewrite Hk.
        -- intros s H. symmetry in H.
           now apply append_newline_nonempty in H.
      * split; [exists k; now rewrite Hk|].
        intros [|c' s] H.
        -- assert (c = "010"%char) by (cbn in H; congruence). subst c.
           now rewrite (proj2 (newline_code _) eq_refl) in Hc.
        -- cbn [append] in H. injection H as _ H. symmetry in H.
           now apply append_newline_nonempty in H.
    + split; [exists k; cbn [append]; now rewrite Hk at 1|].
      intros [|c' s] H.
      * discriminate H.
      * cbn [append] in H. injection H as _ H. now apply (Hend s).
Qed.

End Lines.

(** ** The exit status of find-pwned *)

Section ExitStatus.

Import FindPwned.

Variable cfg : config.
Variable file_data : list Z.
Variable file_size : Z.

Lemma emit_value e st : snd (emit e st) = Run.Value tt.
Proof. reflexivity. Qed.

Lemma print_result_value input hash0 found count0 st :
  snd (print_result cfg input hash0 found count0 st) = Run.Value tt.
Proof.
  unfold print_result.
  destruct (negb (g_quiet cfg) && _); [|reflexivity].
  now destruct (_ ++ _).
Qed.

Lemma print_result_count input hash0 found count0 st :
  g_count (fst (print_result cfg input hash0 found count0 st)) = g_count st.
Proof.
  unfold print_result.
  destruct (negb (g_quiet cfg) && _); [|reflexivity].
  now destruct (_ ++ _).
Qed.

Lemma read_hash_outcome input st :
  snd (read_hash cfg input st) = snd (read_hash cfg input initial)
  /\ g_count (fst (read_hash cfg input st)) = g_count st
  /\ snd (read_hash cfg input st) <> Run.Undefined
  /\ forall code, snd (read_hash cfg input st) <> Run.Exited code.
Proof.
  unfold read_hash.
  destruct (g_password cfg); [now repeat split|].
  destruct (negb (CStr.strlen input =? kTextHashChars));
    [now repeat split|].
  destruct (parse_hash _ _ _ _); now repeat split.
Qed.

Lemma bind_snd {St A B} (m : Run.M St A) (k : A -> Run.M St B) s :
  snd (Run.bind m k s)
  = match snd (m s) with
    | Run.Value a => snd (k a (fst (m s)))
    | Run.Exited code => Run.Exited code
    | Run.Undefined => Run.Undefined
    end.
Proof. unfold Run.bind. now destruct (m s) as [s' [a| |]]. Qed.

Lemma bind_fst_value {St A B} (m : Run.M St A) (k : A -> Run.M St B) s a :
  snd (m s) = Run.Value a -> Run.bind m k s = k a (fst (m s)).
Proof.
  unfold Run.bind. destruct (m s) as [s' o]. cbn [snd fst]. now intros ->.
Qed.

(** What a call of [handle_input] returns, read off the query alone. *)
Lemma handle_input_outcome input st :
  snd (handle_input cfg input file_data file_size st)
  = match snd (read_hash cfg input initial) with
    | Run.Value (Some hash0) =>
        match find_hash file_data file_size hash0 with
        | Some (Bisect.Ret found _) => Run.Value found
        | _ => Run.Undefined
        end
    | Run.Value None => Run.Value 0
    | Run.Exited code => Run.Exited code
    | Run.Undefined => Run.Undefined
    end.
Proof.
  unfold handle_input. rewrite bind_snd. cbn [snd fst].
  rewrite bind_snd.
  destruct (read_hash_outcome input
              {| g_count := Sha1.u64 (g_count st + 1); trace := trace st |})
    as (-> & _).
  destruct (snd (read_hash cfg input initial)) as [[hash0|]| |];
    try reflexivity.
  rewrite bind_snd. cbn [snd emit].
  destruct (find_hash file_data file_size hash0) as [[found count0|]|];
    try reflexivity.
  rewrite bind_snd, print_result_value. reflexivity.
Qed.

(** What a call of [handle_input] returns does not depend on the state. *)
Lemma handle_input_answer input st :
  snd (handle_input cfg input file_data file_size st)
  = answer cfg input file_data file_size.
Proof. unfold answer. now rewrite !handle_input_outcome. Qed.

Lemma handle_args_status inputs : forall not_found st,
  (forall q, In q inputs ->
     exists found, answer cfg q file_data file_size = Run.Value found) ->
  snd (handle_args cfg inputs file_data file_size not_found st)
  = Run.Value (if existsb (missed cfg file_data file_size) inputs
               then 1 else not_found).
Proof.
  induction inputs as [|q rest IH]; intros not_found st Hdef;
    [reflexivity|].
  cbn [handle_args existsb]. unfold Run.bind.
  pose proof (handle_input_answer q st) as E.
  destruct (handle_input cfg q file_data file_size st) as [st1 o].
  cbn [snd] in E. subst o.
  destruct (Hdef q (or_introl eq_refl)) as [found Hq].
  unfold missed at 1. rewrite Hq.
  rewrite IH by (intros; apply Hdef; now right).
  destruct (found =? 0); cbn [orb]; [|reflexivity].
  now destruct (existsb _ rest).
Qed.

Lemma handle_lines_status lines : forall not_found st,
  (forall q, In q (map chomp lines) ->
     exists found, answer cfg q file_data file_size = Run.Value found) ->
  snd (handle_lines cfg lines file_data file_size not_found st)
  = Run.Value (if existsb (missed cfg file_data file_size)
                    (map chomp lines)
               then 1 else not_found).
Proof.
  induction lines as [|q rest IH]; intros not_found st Hdef;
    [reflexivity|].
  cbn [handle_lines existsb map]. unfold Run.bind.
  pose proof (handle_input_answer (chomp q) st) as E.
  destruct (handle_input cfg (chomp q) file_data file_size st) as [st1 o].
  cbn [snd] in E. subst o.
  destruct (Hdef (chomp q) (or_introl eq_refl)) as [found Hq].
  unfold missed at 1. rewrite Hq.
  rewrite IH by (intros; apply Hdef; now right).
  destruct (found =? 0); cbn [orb]; [|reflexivity].
  now destruct (existsb _ (map chomp rest)).
Qed.

End ExitStatus.

(** ** Whole runs *)

Section WholeRuns.

Import Bisect.

Lemma bin_find_hash_ret data n hash0 :
  1 <= n -> 24 * n < 2 ^ 63 ->
  Z.of_nat (List.length data) = 24 * n ->
  exists found count0,
    FindPwned.find_hash data (24 * n) hash0 = Some (Ret found count0)
    /\ (found = 0 -> count0 = 0).
Proof.
  intros Hn Hsz Hlen. rewrite bin_find_hash_search by lia.
  destruct (search_terminates _ (FindPwned.count_at data) n
              (bin_mapped data hash0 n Hlen) Hn)
    as (_ & s & r & _ & _ & Hex & ->).
  destruct Hex as [(_ & ->) | (_ & _ & ->)]; eexists _, _;
    (split; [reflexivity|]); [discriminate | reflexivity].
Qed.

Lemma text_find_hash_ret data n hash :
  1 <= n ->
  Z.of_nat (List.length data) = 63 * n ->
  exists found count0,
    FindPwnedPasswordHash.find_hash data (63 * n) hash 0
    = Some (Ret found count0).
Proof.
  intros Hn Hlen.
  destruct (Z.eq_dec (CStr.strlen hash) 40) as [E|E].
  - rewrite text_find_hash_search by lia.
    destruct (search_terminates _ (FindPwnedPasswordHash.count_at data) n
                (text_mapped data hash n Hlen) Hn)
      as (_ & s & r & _ & _ & Hex & ->).
    destruct Hex as [(_ & ->) | (_ & _ & ->)]; eauto.
  - unfold FindPwnedPasswordHash.find_hash.
    destruct (Z.eqb_spec (CStr.strlen hash)
                FindPwnedPasswordHash.kTextHashChars) as [E'|_];
      [now elim E | cbn [negb]; eauto].
Qed.

Lemma sha1_buffer_flags_text data size flags0 :
  exists t,
    Sha1.sha1_buffer_flags data size flags0 = Some t
    /\ CStr.strlen t = 40
    /\ Forall (fun c => In c (list_ascii_of_string (Sha1.tohex_of flags0)))
         (list_ascii_of_string t).
Proof.
  unfold Sha1.sha1_buffer_flags. rewrite one_shot_with_flags.
  assert (H : exists s,
            Sha1.sha1_end
              (Sha1.sha1_update (Some Sha1.sha1_initialized) data size)
            = Some s).
  { destruct (Sha1.sha1_update (Some Sha1.sha1_initialized) data size)
      as [s|] eqn:E.
    - unfold Sha1.sha1_end. destruct (_ <? _); eexists; reflexivity.
    - exfalso. destruct data as [b|]; [|discriminate E].
      cbn [Sha1.sha1_update] in E. now destruct (size =? 0). }
  destruct H as [s ->]. cbn [option_map].
  rewrite sha1_text_h. eexists. split; [reflexivity|].
  change (Sha1.flags (with_flags flags0 s)) with flags0. split.
  - unfold CStr.strlen. now rewrite text_loop_length.
  - apply text_loop_digits.
Qed.


(** X13: when the whole file is mapped, a run of [find-pwned] that reaches
    the queries ends with status 1 if some query was malformed or not
    found and with status 0 otherwise; a query counts as missed exactly
    when it has no hash or the search for its hash returns 0. *)
Theorem exit_status_reports_misses (cfg : FindPwned.config)
  (e : FindPwned.env) (data : list Z) (st : FindPwned.state) :
  FindPwned.open_ok e = true ->
  0 < FindPwned.seek_end e < 2 ^ 63 ->
  FindPwned.seek_end e mod 24 = 0 ->
  FindPwned.mapping e = Some data ->
  Z.of_nat (List.length data) = FindPwned.seek_end e ->
  snd (FindPwned.main cfg e st)
  = Run.Value (if existsb (missed cfg data (FindPwned.seek_end e))
                    (queries e)
               then 1 else 0)
  /\ forall q,
       missed cfg data (FindPwned.seek_end e) q = true
       <-> forall hash0,
             snd (FindPwned.read_hash cfg q FindPwned.initial)
             = Run.Value (Some hash0) ->
             FindPwned.find_hash data (FindPwned.seek_end e) hash0
             = Some (Ret 0 0).
Proof.
  intros Hopen Hsize Hmod Hmap Hlen.
  set (fs := FindPwned.seek_end e) in *.
  assert (Hn : fs = 24 * (fs / 24) /\ 1 <= fs / 24) by lia.
  destruct Hn as [Hfs Hn].
  assert (Hret : forall hash0, exists found count0,
            FindPwned.find_hash data fs hash0 = Some (Ret found count0)
            /\ (found = 0 -> count0 = 0)).
  { intros hash0. rewrite Hfs. apply bin_find_hash_ret; lia. }
  assert (Hdef : forall q, exists found,
            answer cfg q data fs = Run.Value found).
  { intros q. unfold answer. rewrite handle_input_outcome.
    destruct (read_hash_outcome cfg q FindPwned.initial)
      as (_ & _ & Hu & Hx).
    destruct (snd (FindPwned.read_hash cfg q FindPwned.initial))
      as [[hash0|]|code|]; [| eauto | now elim (Hx code) | now elim Hu].
    destruct (Hret hash0) as (found & count0 & -> & _). eauto. }
  split.
  - unfold FindPwned.main. rewrite Hopen. fold fs.
    rewrite (bind_fst_value _ _ _ tt) by reflexivity.
    destruct (Z.ltb_spec fs 0); [lia|].
    destruct (Z.eqb_spec 0 fs); [lia|].
    rewrite u64_small by lia.
    unfold FindPwned.kPwnedInfoSize. rewrite Hmod.
    cbn [Z.eqb negb orb].
    unfold FindPwned.serve. rewrite Hmap.
    rewrite bind_snd.
    assert (Hv : forall m s,
              snd (FindPwned.PrintVerbose cfg m s) = Run.Value tt).
    { intros m s. unfold FindPwned.PrintVerbose.
      now destruct (FindPwned.g_verbose cfg). }
    rewrite Hv. rewrite bind_snd. unfold queries.
    destruct (FindPwned.args e) as [|a rest] eqn:Ha.
    + rewrite bind_snd.
      assert (He : forall (b : bool) (s : FindPwned.state),
                snd ((if b then FindPwned.echo_on_stdin cfg false
                      else @Run.ret FindPwned.state unit tt) s)
                = Run.Value tt).
      { intros [|] s; [|reflexivity].
        unfold FindPwned.echo_on_stdin. now rewrite bind_snd, Hv. }
      rewrite He. rewrite bind_snd.
      rewrite handle_lines_status by (intros; apply Hdef).
      rewrite bind_snd.
      assert (He' : forall (b : bool) (s : FindPwned.state),
                snd ((if b then FindPwned.echo_on_stdin cfg true
                      else @Run.ret FindPwned.state unit tt) s)
                = Run.Value tt).
      { intros [|] s; [|reflexivity].
        unfold FindPwned.echo_on_stdin. now rewrite bind_snd, Hv. }
      rewrite He'. cbn [snd Run.ret].
      rewrite bind_snd. cbn [snd FindPwned.emit Run.ret].
      now destruct (existsb _ _).
    + rewrite handle_args_status by (intros; apply Hdef).
      rewrite bind_snd. cbn [snd FindPwned.emit Run.ret].
      now destruct (existsb _ _).
  - intros q. unfold missed, answer. rewrite handle_input_outcome.
    destruct (read_hash_outcome cfg q FindPwned.initial)
      as (_ & _ & Hu & Hx).
    destruct (snd (FindPwned.read_hash cfg q FindPwned.initial))
      as [[hash0|]|code|]; [| | now elim (Hx code) | now elim Hu].
    + destruct (Hret hash0) as (found & count0 & E & Hz). rewrite E.
      split.
      * intros H%Z.eqb_eq h0 [= <-]. rewrite E, H, Hz by exact H.
        reflexivity.
      * intros H. specialize (H hash0 eq_refl). rewrite E in H.
        assert (found = 0) by congruence. now apply Z.eqb_eq.
    + split; [discriminate 2 | reflexivity].
Qed.


(** X14: in password mode the text program looks up the upper-case digest
    of the query, which has 40 characters, so that the length test of
    [find_hash] passes: on a mapped file of whole lines every password
    gives one search and one line of output, and no error message. *)
Theorem text_password_query (cfg : FindPwnedPasswordHash.config)
  (input : string) (data : list Z) (n : Z)
  (st : list FindPwnedPasswordHash.event) :
  FindPwnedPasswordHash.g_password cfg = true ->
  1 <= n ->
  Z.of_nat (List.length data) = 63 * n ->
  exists digest found count0,
    Sha1.sha1_buffer_flags (Some (CStr.chars input)) (CStr.strlen input)
      Sha1.SHA1_FLAG_UPPER_CASE = Some digest
    /\ CStr.strlen digest = 40
    /\ Forall (fun c => In c (list_ascii_of_string "0123456789ABCDEF"))
         (list_ascii_of_string digest)
    /\ FindPwnedPasswordHash.find_hash data (63 * n) digest 0
       = Some (Ret found count0)
    /\ FindPwnedPasswordHash.handle_input cfg input data (63 * n) st
       = (st ++ [FindPwnedPasswordHash.Lookup digest;
                 FindPwnedPasswordHash.Output
                   (if FindPwnedPasswordHash.g_print_hash cfg
                    then Some digest else None) count0],
          Run.Value None).
Proof.
  intros Hp Hn Hlen.
  destruct (sha1_buffer_flags_text (Some (CStr.chars input))
              (CStr.strlen input) Sha1.SHA1_FLAG_UPPER_CASE)
    as (digest & Hd & Hl & Hc).
  destruct (text_find_hash_ret data n digest Hn Hlen)
    as (found & count0 & Hf).
  exists digest, found, count0.
  split; [exact Hd|]. split; [exact Hl|]. split; [exact Hc|].
  split; [exact Hf|].
  unfold FindPwnedPasswordHash.handle_input,
    FindPwnedPasswordHash.read_hash.
  rewrite Hp, Hd.
  rewrite (bind_fst_value _ _ _ (Some digest)) by reflexivity.
  cbn [fst Run.ret].
  unfold FindPwnedPasswordHash.find_hash_message. rewrite Hl, Hf.
  change (40 =? FindPwnedPasswordHash.kTextHashChars) with true.
  cbn [negb]. unfold Run.bind, Run.ret, FindPwnedPasswordHash.emit.
  now rewrite <- app_assoc.
Qed.

Lemma text_handle_input_value (cfg : FindPwnedPasswordHash.config)
  (input : string) (data : list Z) (n : Z)
  (st : list FindPwnedPasswordHash.event) :
  1 <= n ->
  Z.of_nat (List.length data) = 63 * n ->
  exists v,
    snd (FindPwnedPasswordHash.handle_input cfg input data (63 * n) st)
    = Run.Value v.
Proof.
  intros Hn Hlen.
  unfold FindPwnedPasswordHash.handle_input. rewrite bind_snd.
  unfold FindPwnedPasswordHash.read_hash.
  destruct (FindPwnedPasswordHash.g_password cfg).
  - destruct (sha1_buffer_flags_text (Some (CStr.chars input))
                (CStr.strlen input) Sha1.SHA1_FLAG_UPPER_CASE)
      as (digest & -> & _).
    cbn [snd fst Run.ret]. rewrite bind_snd. cbn [snd fst].
    rewrite bind_snd.
    assert (Hm : forall s,
              snd (FindPwnedPasswordHash.find_hash_message digest s)
              = Run.Value tt).
    { intros s. unfold FindPwnedPasswordHash.find_hash_message.
      now destruct (negb _). }
    rewrite Hm.
    destruct (text_find_hash_ret data n digest Hn Hlen)
      as (found & count0 & ->).
    rewrite bind_snd. unfold FindPwnedPasswordHash.emit, Run.ret.
    cbn [snd fst]. eauto.
  - destruct (negb _).
    + rewrite bind_snd. unfold FindPwnedPasswordHash.emit, Run.ret.
      cbn [snd fst]. eauto.
    + cbn [snd fst Run.ret]. rewrite bind_snd. cbn [snd fst].
      rewrite bind_snd.
      assert (Hm : forall s,
                snd (FindPwnedPasswordHash.find_hash_message input s)
                = Run.Value tt).
      { intros s. unfold FindPwnedPasswordHash.find_hash_message.
        now destruct (negb _). }
      rewrite Hm.
      destruct (text_find_hash_ret data n input Hn Hlen)
        as (found & count0 & ->).
      rewrite bind_snd. unfold FindPwnedPasswordHash.emit, Run.ret.
      cbn [snd fst]. eauto.
Qed.

(** X15: a run of [find-pwned-password-hash] that reaches the queries ends
    with status 0 whatever the queries are, found, not found or of the
    wrong length: [main] sets [not_found] and does not read it. *)
Theorem text_exit_status_is_zero (cfg : FindPwnedPasswordHash.config)
  (e : FindPwnedPasswordHash.env) (data : list Z)
  (st : list FindPwnedPasswordHash.event) :
  FindPwnedPasswordHash.open_ok e = true ->
  0 < FindPwnedPasswordHash.seek_end e ->
  FindPwnedPasswordHash.seek_end e mod 63 = 0 ->
  FindPwnedPasswordHash.mapping e = Some data ->
  Z.of_nat (List.length data) = FindPwnedPasswordHash.seek_end e ->
  snd (FindPwnedPasswordHash.main cfg e st) = Run.Value 0.
Proof.
  intros Hopen Hsize Hmod Hmap Hlen.
  set (fs := FindPwnedPasswordHash.seek_end e) in *.
  assert (Hn : fs = 63 * (fs / 63) /\ 1 <= fs / 63) by lia.
  destruct Hn as [Hfs Hn].
  assert (Hin : forall input s, exists v,
            snd (FindPwnedPasswordHash.handle_input cfg input data fs s)
            = Run.Value v).
  { intros input s. rewrite Hfs.
    apply text_handle_input_value; [exact Hn | lia]. }
  assert (Hargs : forall inputs s,
            snd (FindPwnedPasswordHash.handle_args cfg inputs data fs s)
            = Run.Value tt).
  { induction inputs as [|q rest IH]; intros s; [reflexivity|].
    cbn [FindPwnedPasswordHash.handle_args]. rewrite bind_snd.
    destruct (Hin q s) as [v ->]. apply IH. }
  assert (Hlines : forall lines s,
            snd (FindPwnedPasswordHash.handle_lines cfg lines data fs s)
            = Run.Value tt).
  { induction lines as [|q rest IH]; intros s; [reflexivity|].
    cbn [FindPwnedPasswordHash.handle_lines]. rewrite bind_snd.
    destruct (Hin (FindPwnedPasswordHash.chomp q) s) as [v ->].
    apply IH. }
  unfold FindPwnedPasswordHash.main. rewrite Hopen. fold fs.
  cbn [negb].
  destruct (Z.ltb_spec fs 0); [lia|].
  destruct (Z.eqb_spec 0 fs); [lia|].
  unfold FindPwnedPasswordHash.kTextHashLineBytes.
  rewrite Z.rem_mod_nonneg, Hmod by lia. cbn [Z.eqb negb orb].
  unfold FindPwnedPasswordHash.serve. rewrite Hmap.
  rewrite bind_snd.
  assert (He : forall (b v : bool) (s : list FindPwnedPasswordHash.event),
            snd ((if b then FindPwnedPasswordHash.echo_on_stdin v
                  else @Run.ret (list FindPwnedPasswordHash.event) unit tt)
                   s)
            = Run.Value tt).
  { intros [|] v s; reflexivity. }
  destruct (FindPwnedPasswordHash.args e) as [|a rest] eqn:Ha.
  - rewrite bind_snd, He, bind_snd, Hlines, He. cbn [snd].
    now rewrite bind_snd.
  - rewrite Hargs. now rewrite bind_snd.
Qed.

(** X16: every call of [handle_input] of [find-pwned] advances [g_count] by
    one, for a malformed query too; it writes after what was written
    before, and an index that it prints is the new value of [g_count], so
    that the first query has index 1. *)
Theorem handle_input_counts (cfg : FindPwned.config) (input : string)
  (data : list Z) (file_size : Z) (st : FindPwned.state) :
  let st' := fst (FindPwned.handle_input cfg input data file_size st) in
  FindPwned.g_count st' = Sha1.u64 (FindPwned.g_count st + 1)
  /\ exists events,
       FindPwned.trace st' = FindPwned.trace st ++ events
       /\ forall fields k,
            In (FindPwned.Output fields) events ->
            In (FindPwned.Index k) fields ->
            k = FindPwned.g_count st'.
Proof.
  cbv zeta.
  unfold FindPwned.handle_input, FindPwned.read_hash, Run.bind, Run.ret,
    FindPwned.PrintUsageError, FindPwned.emit.
  cbn [Z.eqb].
  destruct (FindPwned.g_password cfg) eqn:Hp.
  2: destruct (negb (CStr.strlen input =? FindPwned.kTextHashChars)).
  2: { cbn [fst FindPwned.g_count FindPwned.trace]. split; [reflexivity|].
       eexists. split; [reflexivity|].
       intros fields k [H|[]]. discriminate H. }
  2: destruct (FindPwned.parse_hash _ _ _ _) as [hash0|i].
  3: { cbn [fst FindPwned.g_count FindPwned.trace]. split; [reflexivity|].
       eexists. split; [reflexivity|].
       intros fields k [H|[]]. discriminate H. }
  1: set (hash0 := FindPwned.sha1_buffer_bin _ _).
  all: cbn [fst FindPwned.g_count FindPwned.trace].
  all: destruct (FindPwned.find_hash data file_size hash0)
         as [[found count0|]|].
  all: try (cbn [fst FindPwned.g_count FindPwned.trace];
            split; [reflexivity|]; eexists; split; [reflexivity|];
            intros fields k [H|[]]; discriminate H).
  all: unfold FindPwned.print_result;
    cbn [FindPwned.g_count FindPwned.trace];
    destruct (negb (FindPwned.g_quiet cfg) && _);
    [|cbn [fst FindPwned.g_count FindPwned.trace];
      split; [reflexivity|]; eexists; split; [reflexivity|];
      intros fields k [H|[]]; discriminate H].
  all: match goal with
       | |- context [match ?l with [] => _ | _ :: _ => _ end] =>
           remember l as fields0 eqn:Hf; destruct fields0 as [|f fs]
       end.
  all: try (cbn [fst FindPwned.g_count FindPwned.trace];
            split; [reflexivity|]; eexists; split; [reflexivity|];
            intros fields k [H|[]]; discriminate H).
  all: unfold FindPwned.emit;
    cbn [fst FindPwned.g_count FindPwned.trace];
    split; [reflexivity|]; rewrite <- app_assoc;
    eexists; split; [reflexivity|];
    intros fields k [H|[H|[]]]; [discriminate H|];
    injection H as <-; rewrite Hf; intros Hin;
    destruct (FindPwned.g_print_index cfg);
    destruct (FindPwned.g_print_password cfg && FindPwned.g_password cfg);
    destruct (FindPwned.g_print_hash cfg);
    destruct (FindPwned.g_print_count cfg);
    cbn [app In] in Hin; intuition congruence.
Qed.

End WholeRuns.

(** ** Paths and option names *)

Section OptionNames.

Import Cli.
Local Open Scope string_scope.

Lemma name_loop_no_slash name : forall rval,
  no_slash name = true -> name_loop name rval = rval.
Proof.
  induction name as [|c rest IH]; intros rval H; [reflexivity|].
  cbn [no_slash] in H. apply andb_true_iff in H as [Hc Hrest].
  cbn [name_loop index advance deref].
  apply negb_true_iff in Hc. rewrite Hc. cbn [andb]. now apply IH.
Qed.

Lemma name_loop_app dir : forall rest rval,
  exists rval', name_loop (dir ++ rest) rval = name_loop rest rval'.
Proof.
  induction dir as [|c dir IH]; intros rest rval; [now exists rval|].
  cbn [append name_loop]. apply IH.
Qed.

(** X17: for a path that ends in a slash or backslash followed by a
    non-empty name without slashes, [NamePartOfPath] returns that name,
    whatever the directories before it are; a path without slashes is
    returned as it is, and so is [NULL]. *)
Theorem name_part_of_path (dir : string) (sep : ascii) (name : string) :
  is_slash sep = true ->
  name <> EmptyString ->
  no_slash name = true ->
  NamePartOfPath (Some (dir ++ String sep name)) = Some name
  /\ NamePartOfPath (Some name) = Some name
  /\ NamePartOfPath None = None.
Proof.
  intros Hsep Hne Hname. split; [|split; [|reflexivity]].
  - cbn [NamePartOfPath]. f_equal.
    destruct (name_loop_app dir (String sep name)
                (dir ++ String sep name)%string) as [rval ->].
    destruct name as [|c rest]; [now elim Hne|].
    cbn [name_loop index advance deref at_end]. rewrite Hsep.
    cbn [no_slash] in Hname. apply andb_true_iff in Hname as [Hc Hrest].
    apply negb_true_iff in Hc. rewrite Hc. cbn [orb andb negb].
    now apply name_loop_no_slash.
  - cbn [NamePartOfPath]. f_equal. now apply name_loop_no_slash.
Qed.

Lemma accepts_in descriptor name :
  accepts descriptor name = true <-> In name (abbreviations descriptor).
Proof.
  unfold accepts. rewrite existsb_exists. split.
  - intros (x & Hx & E). apply String.eqb_eq in E. now subst.
  - intros H. exists name. split; [exact H | apply String.eqb_refl].
Qed.

Lemma suffix_stops value :
  at_end (value_suffix value)
  || (deref (value_suffix value) =? "=")%char = true.
Proof. now destruct value. Qed.

(** A name that the descriptor accepts takes the loop of [IsOption] to
    the end of the name. *)
Lemma option_loop_accepts descriptor : forall name value,
  plain name = true ->
  In name (abbreviations descriptor) ->
  option_loop (name ++ value_suffix value) descriptor
  = (true, value_suffix value).
Proof.
  induction descriptor as [|d descriptor IH]; intros name value Hp Hin.
  - cbn [abbreviations In] in Hin. destruct Hin as [<-|[]].
    cbn [append option_loop]. now rewrite suffix_stops.
  - cbn [abbreviations] in Hin. cbn [option_loop].
    destruct name as [|x name].
    + cbn [append]. rewrite suffix_stops. cbn [at_end deref].
      destruct (d =? ":")%char eqn:Hd; [reflexivity|].
      apply in_map_iff in Hin as (y & E & _). discriminate E.
    + cbn [plain] in Hp. apply andb_true_iff in Hp as [Hx Hp].
      apply negb_true_iff in Hx.
      cbn [append at_end deref orb advance]. rewrite Hx.
      destruct (d =? ":")%char eqn:Hd.
      * cbn [negb andb]. destruct Hin as [E|Hin]; [discriminate E|].
        apply (IH (String x name) value); [|exact Hin].
        cbn [plain]. now rewrite Hx, Hp.
      * apply in_map_iff in Hin as (y & E & Hin).
        injection E as -> ->. rewrite Ascii.eqb_refl. cbn [negb andb].
        now apply IH.
Qed.

(** When the loop of [IsOption] succeeds, it has read a name that the
    descriptor accepts and stands at the [=] or at the end. *)
Lemma option_loop_true descriptor : forall input rest,
  option_loop input descriptor = (true, rest) ->
  exists name value,
    input = (name ++ value_suffix value)%string
    /\ rest = value_suffix value
    /\ plain name = true
    /\ In name (abbreviations descriptor).
Proof.
  induction descriptor as [|d descriptor IH]; intros input rest H.
  - cbn [option_loop] in H.
    destruct input as [|x input].
    + injection H as <-. exists EmptyString, None. now repeat split; [left].
    + cbn [at_end deref orb] in H.
      destruct (x =? "=")%char eqn:Hx; [|discriminate H].
      apply Ascii.eqb_eq in Hx. subst x. injection H as <-.
      exists EmptyString, (Some input). now repeat split; [left].
  - cbn [option_loop] in H.
    destruct input as [|x input].
    + cbn [at_end deref orb] in H. injection H as Hd <-.
      exists EmptyString, None. repeat split.
      cbn [abbreviations]. rewrite Hd. now left.
    + cbn [at_end deref orb advance] in H.
      destruct (x =? "=")%char eqn:Hx.
      * apply Ascii.eqb_eq in Hx. subst x. injection H as Hd <-.
        exists EmptyString, (Some input). repeat split.
        cbn [abbreviations]. rewrite Hd. now left.
      * cbn [abbreviations].
        destruct (d =? ":")%char eqn:Hd; cbn [negb andb] in H.
        -- destruct (IH _ _ H) as (name & value & E & Er & Hp & Hin).
           exists name, value. repeat split; auto. now right.
        -- destruct (x =? d)%char eqn:Hxd; cbn [negb] in H;
             [|discriminate H].
           apply Ascii.eqb_eq in Hxd. subst d.
           destruct (IH _ _ H) as (name & value & E & Er & Hp & Hin).
           exists (String x name), value. repeat split.
           ++ cbn [append]. now rewrite E.
           ++ exact Er.
           ++ cbn [plain]. now rewrite Hx, Hp.
           ++ now apply in_map.
Qed.

Lemma append_suffix_inj name1 name2 value1 value2 :
  plain name1 = true -> plain name2 = true ->
  (name1 ++ value_suffix value1)%string
  = (name2 ++ value_suffix value2)%string ->
  name1 = name2.
Proof.
  revert name2. induction name1 as [|x name1 IH]; intros name2 H1 H2 E.
  - destruct name2 as [|y name2]; [reflexivity|].
    cbn [plain] in H2. apply andb_true_iff in H2 as [Hy _].
    destruct value1 as [v|]; [|discriminate E].
    cbn [append value_suffix] in E. injection E as <- _.
    discriminate Hy.
  - cbn [plain] in H1. apply andb_true_iff in H1 as [Hx H1].
    destruct name2 as [|y name2].
    + destruct value2 as [v|]; [|discriminate E].
      cbn [append value_suffix] in E. injection E as -> _.
      discriminate Hx.
    + cbn [plain] in H2. apply andb_true_iff in H2 as [_ H2].
      cbn [append] in E. injection E as -> E. f_equal.
      now apply (IH name2).
Qed.

(** The loop of [IsOption] on a name with or without a value. *)
Lemma option_loop_name descriptor name value :
  plain name = true ->
  fst (option_loop (name ++ value_suffix value) descriptor)
  = accepts descriptor name
  /\ (accepts descriptor name = true ->
      snd (option_loop (name ++ value_suffix value) descriptor)
      = value_suffix value).
Proof.
  intros Hp. destruct (accepts descriptor name) eqn:Ha.
  - apply accepts_in in Ha.
    rewrite (option_loop_accepts descriptor name value Hp Ha). now split.
  - split; [|discriminate].
    destruct (option_loop (name ++ value_suffix value) descriptor)
      as [[|] rest] eqn:E; [|reflexivity].
    destruct (option_loop_true _ _ _ E) as (name' & value' & E' & _ & Hp' & Hin).
    apply append_suffix_inj in E'; [|assumption..]. subst name'.
    apply accepts_in in Hin. congruence.
Qed.

Lemma is_option_name descriptor name value :
  plain name = true ->
  IsOption (String "-" (String "-" (name ++ value_suffix value))) descriptor
  = (if accepts descriptor name then (true, value) else (false, None))
  /\ ((deref name =? "-")%char = false ->
      IsOption (String "-" (name ++ value_suffix value)) descriptor
      = (if accepts descriptor name then (true, value) else (false, None))).
Proof.
  intros Hp.
  destruct (option_loop_name descriptor name value Hp) as [Hf Hs].
  assert (Hres :
    (let '(rval, input) :=
       option_loop (name ++ value_suffix value) descriptor in
     (rval,
      if rval && (deref input =? "=")%char then Some (advance 1 input)
      else None))
    = (if accepts descriptor name then (true, value) else (false, None))).
  { destruct (option_loop (name ++ value_suffix value) descriptor)
      as [rval rest].
    cbn [fst snd] in Hf, Hs. subst rval.
    destruct (accepts descriptor name); [|reflexivity].
    rewrite (Hs eq_refl). now destruct value. }
  split.
  - unfold IsOption. cbn [deref advance]. exact Hres.
  - intros Hd. unfold IsOption. cbn [deref advance].
    replace (deref (name ++ value_suffix value) =? "-")%char with false.
    + exact Hres.
    + destruct name as [|x name]; [now destruct value | now cbn in *].
Qed.

(** X18: [IsOption] matches an argument exactly when the name between the
    one or two leading dashes and the [=] or the end of the argument is
    the descriptor without its colons, cut at one of the colons or at the
    end; the value stored is then the text after the [=], and [NULL]
    when there is no [=].  An argument without a leading dash never
    matches. *)
Theorem IsOption_abbreviations (descriptor name : string)
  (value : option string) :
  plain name = true ->
  (deref name =? "-")%char = false ->
  IsOption (String "-" (name ++ value_suffix value)) descriptor
  = (if accepts descriptor name then (true, value) else (false, None))
  /\ IsOption (String "-" (String "-" (name ++ value_suffix value)))
       descriptor
     = (if accepts descriptor name then (true, value) else (false, None))
  /\ IsOption (name ++ value_suffix value) descriptor = (false, None).
Proof.
  intros Hp Hd.
  destruct (is_option_name descriptor name value Hp) as [H2 H1].
  split; [now apply H1|]. split; [exact H2|].
  unfold IsOption.
  replace (deref (name ++ value_suffix value) =? "-")%char with false;
    [reflexivity|].
  destruct name as [|x name]; [now destruct value | now cbn in *].
Qed.

End OptionNames.

(** ** Flag options *)

Section FlagOptions.

Import Cli.
Local Open Scope string_scope.

Lemma plain_no name : plain name = true -> plain ("no-" ++ name) = true.
Proof. intros H. cbn. exact H. Qed.

Lemma is_flag_option_yes descriptor name value :
  plain name = true ->
  (deref name =? "-")%char = false ->
  accepts descriptor name = true ->
  IsFlagOption (String "-" (name ++ value_suffix value)) descriptor
  = Some true
  /\ IsFlagOption (String "-" (String "-" (name ++ value_suffix value)))
       descriptor
     = Some true.
Proof.
  intros Hp Hd Ha.
  destruct (is_option_name descriptor name value Hp) as [H2 H1].
  specialize (H1 Hd). rewrite Ha in H1, H2.
  unfold IsFlagOption. rewrite H1, H2. now split.
Qed.

Lemma is_flag_option_no descriptor name value :
  plain name = true ->
  (deref name =? "-")%char = false ->
  accepts descriptor name = true ->
  accepts descriptor ("no-" ++ name) = false ->
  IsFlagOption (String "-" ("no-" ++ name ++ value_suffix value)) descriptor
  = Some false
  /\ IsFlagOption
       (String "-" (String "-" ("no-" ++ name ++ value_suffix value)))
       descriptor
     = Some false.
Proof.
  intros Hp Hd Ha Hno.
  destruct (is_option_name descriptor name value Hp) as [_ H1].
  specialize (H1 Hd). rewrite Ha in H1.
  destruct (is_option_name descriptor ("no-" ++ name) value
              (plain_no name Hp)) as [N2 N1].
  specialize (N1 eq_refl). rewrite Hno in N1, N2.
  cbn [append] in N1, N2 |- *.
  unfold IsFlagOption. rewrite N1, N2.
  cbn [deref index advance Nat.add fst Ascii.eqb Bool.eqb andb].
  rewrite H1. now split.
Qed.

Lemma no_prefix_third name value :
  plain name = true ->
  begins_no name = false ->
  begins_no (name ++ value_suffix value) = false.
Proof.
  intros Hp H. unfold begins_no, index in *.
  destruct name as [|a [|b [|c name]]].
  - destruct value as [v|]; reflexivity.
  - destruct value as [v|]; cbn [append value_suffix advance deref].
    + now rewrite andb_false_r.
    + now rewrite andb_false_r.
  - destruct value as [v|]; cbn [append value_suffix advance deref].
    + now rewrite andb_false_r.
    + now rewrite andb_false_r.
  - exact H.
Qed.

Lemma is_flag_option_none descriptor name value :
  plain name = true ->
  (deref name =? "-")%char = false ->
  accepts descriptor name = false ->
  begins_no name = false ->
  IsFlagOption (String "-" (name ++ value_suffix value)) descriptor = None
  /\ IsFlagOption (String "-" (String "-" (name ++ value_suffix value)))
       descriptor
     = None.
Proof.
  intros Hp Hd Ha Hno.
  destruct (is_option_name descriptor name value Hp) as [H2 H1].
  specialize (H1 Hd). rewrite Ha in H1, H2.
  pose proof (no_prefix_third name value Hp Hno) as H3.
  unfold begins_no, index in H3.
  assert (Hd' : (deref (name ++ value_suffix value) =? "-")%char = false).
  { destruct name as [|x name]; [now destruct value | now cbn in *]. }
  unfold IsFlagOption. rewrite H1, H2. unfold index.
  cbn [deref advance fst]. rewrite Hd'.
  change ("-" =? "-")%char with true. cbn [Nat.add advance deref].
  cbn [advance] in H3. rewrite H3. now split.
Qed.

(** X19: [IsFlagOption] stores 1 for a name that the descriptor accepts,
    after one or two dashes, and 0 when [no-] stands between the dashes
    and the name; it returns 0 and stores nothing for any other name that
    does not begin with [no-].  A value after [=] is accepted and
    ignored. *)
Theorem IsFlagOption_values (descriptor name : string)
  (value : option string) :
  plain name = true ->
  (deref name =? "-")%char = false ->
  accepts descriptor ("no-" ++ name) = false ->
  begins_no name = false ->
  let arg := name ++ value_suffix value in
  if accepts descriptor name then
    IsFlagOption ("-" ++ arg) descriptor = Some true
    /\ IsFlagOption ("--" ++ arg) descriptor = Some true
    /\ IsFlagOption ("-no-" ++ arg) descriptor = Some false
    /\ IsFlagOption ("--no-" ++ arg) descriptor = Some false
  else
    IsFlagOption ("-" ++ arg) descriptor = None
    /\ IsFlagOption ("--" ++ arg) descriptor = None.
Proof.
  intros Hp Hd Hno Hpre. cbv zeta.
  destruct (accepts descriptor name) eqn:Ha.
  - destruct (is_flag_option_yes descriptor name value Hp Hd Ha).
    destruct (is_flag_option_no descriptor name value Hp Hd Ha Hno).
    now repeat split.
  - now apply is_flag_option_none.
Qed.

End FlagOptions.

(** ** Arguments and options *)

Section ScanFacts.

Import Cli.
Local Open Scope string_scope.

Context {options : Type}.
Variable body : scan options -> string -> scan options + stop.

Hypothesis body_kept : forall s arg,
  is_kept s arg = true -> body s arg = inl (keep s arg).

Hypothesis body_double_dash : forall s arg,
  is_kept s arg = false -> is_double_dash arg = true ->
  body s arg
  = inl {| opts := opts s; end_of_options := true; kept := kept s |}.

Hypothesis body_option : forall s arg,
  is_kept s arg = false -> is_double_dash arg = false ->
  match body s arg with
  | inl s' => end_of_options s' = end_of_options s /\ kept s' = kept s
  | inr _ => True
  end.

Lemma loop_app s a : forall b,
  loop body s (a ++ b)%list
  = match loop body s a with
    | inl s' => loop body s' b
    | inr e => inr e
    end.
Proof.
  revert s. induction a as [|arg a IH]; intros s b; [reflexivity|].
  cbn [app loop]. destruct (body s arg) as [s'|e]; [apply IH | reflexivity].
Qed.

Lemma loop_after_end rest : forall s,
  end_of_options s = true ->
  loop body s rest
  = inl {| opts := opts s; end_of_options := true;
           kept := (kept s ++ rest)%list |}.
Proof.
  induction rest as [|arg rest IH]; intros s He.
  - cbn [loop]. rewrite app_nil_r. destruct s. cbn in *. now subst.
  - cbn [loop]. rewrite body_kept by (unfold is_kept; now rewrite He).
    rewrite IH by exact He. cbn [keep opts kept].
    now rewrite <- app_assoc.
Qed.

Lemma double_dash_is arg :
  (deref arg =? "-")%char = true -> is_double_dash arg = true ->
  arg = "--".
Proof.
  unfold is_double_dash, index. intros H1 H2.
  destruct arg as [|a [|b [|c rest]]]; cbn [advance deref at_end] in H2.
  - discriminate H1.
  - discriminate H2.
  - apply Ascii.eqb_eq in H1. rewrite andb_true_r in H2.
    apply Ascii.eqb_eq in H2. cbn [deref] in H1. now subst.
  - now rewrite andb_false_r in H2.
Qed.

(** Without [--], the arguments kept are those that do not begin with a
    dash, and [end_of_options] stays 0. *)
Lemma loop_keeps_plain args : forall s s',
  end_of_options s = false ->
  ~ In "--" args ->
  loop body s args = inl s' ->
  end_of_options s' = false
  /\ kept s' = (kept s ++ filter no_dash args)%list.
Proof.
  induction args as [|arg args IH]; intros s s' He Hdd H.
  - cbn [loop] in H. injection H as <-. cbn [filter].
    now rewrite app_nil_r.
  - cbn [loop] in H. cbn [filter]. unfold no_dash at 1.
    destruct (deref arg =? "-")%char eqn:Hd; cbn [negb].
    + assert (Hk : is_kept s arg = false)
        by (unfold is_kept; now rewrite He, Hd).
      destruct (is_double_dash arg) eqn:Hdash.
      { exfalso. apply Hdd. left. now apply double_dash_is. }
      pose proof (body_option s arg Hk Hdash) as Hb.
      destruct (body s arg) as [s1|e]; [|discriminate H].
      destruct Hb as [He1 Hk1].
      destruct (IH s1 s') as [He' Hk']; auto.
      * now rewrite He1.
      * intros Hin. apply Hdd. now right.
      * split; [exact He'|]. now rewrite Hk', Hk1.
    + rewrite body_kept in H
        by (unfold is_kept; rewrite He, Hd; reflexivity).
      destruct (IH (keep s arg) s') as [He' Hk']; auto.
      * intros Hin. apply Hdd. now right.
      * split; [exact He'|]. rewrite Hk'. cbn [keep kept].
        now rewrite <- app_assoc.
Qed.

(** Arguments without a leading dash leave the options as they are. *)
Lemma loop_plain args : forall s,
  forallb no_dash args = true ->
  loop body s args
  = inl {| opts := opts s; end_of_options := end_of_options s;
           kept := (kept s ++ args)%list |}.
Proof.
  induction args as [|arg args IH]; intros s H.
  - cbn [loop]. rewrite app_nil_r. now destruct s.
  - cbn [forallb] in H. apply andb_true_iff in H as [Ha H].
    cbn [loop]. rewrite body_kept
      by (unfold is_kept; unfold no_dash in Ha; rewrite Ha;
          apply orb_true_r).
    rewrite IH by exact H. cbn [keep opts end_of_options kept].
    now rewrite <- app_assoc.
Qed.

Lemma loop_double_dash pre rest s :
  end_of_options s = false ->
  ~ In "--" pre ->
  loop body s (pre ++ "--" :: rest)%list
  = match loop body s pre with
    | inl s' =>
        inl {| opts := opts s'; end_of_options := true;
               kept := (kept s' ++ rest)%list |}
    | inr e => inr e
    end.
Proof.
  intros He Hdd. rewrite loop_app.
  destruct (loop body s pre) as [s'|e] eqn:E; [|reflexivity].
  destruct (loop_keeps_plain pre s s' He Hdd E) as [He' _].
  cbn [loop].
  rewrite body_double_dash
    by (unfold is_kept; rewrite ?He'; reflexivity).
  now rewrite loop_after_end.
Qed.

End ScanFacts.

Section ParseOptionsFacts.

Import Cli.
Local Open Scope string_scope.

Lemma bin_body_kept s arg :
  is_kept s arg = true -> FindPwnedOptions.body s arg = inl (keep s arg).
Proof. intros H. unfold FindPwnedOptions.body. now rewrite H. Qed.

Lemma bin_body_double_dash s arg :
  is_kept s arg = false -> is_double_dash arg = true ->
  FindPwnedOptions.body s arg
  = inl {| opts := opts s; end_of_options := true; kept := kept s |}.
Proof. intros H1 H2. unfold FindPwnedOptions.body. now rewrite H1, H2. Qed.

Lemma bin_body_option s arg :
  is_kept s arg = false -> is_double_dash arg = false ->
  match FindPwnedOptions.body s arg with
  | inl s' => end_of_options s' = end_of_options s /\ kept s' = kept s
  | inr _ => True
  end.
Proof.
  intros H1 H2. unfold FindPwnedOptions.body. rewrite H1, H2.
  destruct (fst (IsOption arg "h:elp")); [exact I|].
  now destruct (FindPwnedOptions.flag_chain _ _ _ _).
Qed.

Lemma text_body_kept s arg :
  is_kept s arg = true ->
  FindPwnedPasswordHashOptions.body s arg = inl (keep s arg).
Proof.
  intros H. unfold FindPwnedPasswordHashOptions.body. now rewrite H.
Qed.

Lemma text_body_double_dash s arg :
  is_kept s arg = false -> is_double_dash arg = true ->
  FindPwnedPasswordHashOptions.body s arg
  = inl {| opts := opts s; end_of_options := true; kept := kept s |}.
Proof.
  intros H1 H2. unfold FindPwnedPasswordHashOptions.body.
  now rewrite H1, H2.
Qed.

Lemma text_body_option s arg :
  is_kept s arg = false -> is_double_dash arg = false ->
  match FindPwnedPasswordHashOptions.body s arg with
  | inl s' => end_of_options s' = end_of_options s /\ kept s' = kept s
  | inr _ => True
  end.
Proof.
  intros H1 H2. unfold FindPwnedPasswordHashOptions.body.
  rewrite H1, H2.
  destruct (fst (IsOption arg "h:elp")); [exact I|].
  now destruct (FindPwnedPasswordHashOptions.flag_chain _ _ _ _).
Qed.

(** X20: when no argument is [--], the arguments that [ParseOptions] leaves
    in [argv] are those that do not begin with a dash, in their order;
    and when no argument begins with a dash, all are left and no option
    variable changes.  Both programs. *)
Theorem queries_are_the_plain_arguments (args : list string) :
  ~ In "--" args ->
  (forall o o' queries,
     FindPwnedOptions.ParseOptions o args = inl (o', queries) ->
     queries = filter no_dash args)
  /\ (forall o o' queries,
        FindPwnedPasswordHashOptions.ParseOptions o args
        = inl (o', queries) ->
        queries = filter no_dash args)
  /\ (forallb no_dash args = true ->
      forall o o',
        FindPwnedOptions.ParseOptions o args = inl (o, args)
        /\ FindPwnedPasswordHashOptions.ParseOptions o' args
           = inl (o', args)).
Proof.
  intros Hdd. split; [|split].
  - intros o o' queries H. unfold FindPwnedOptions.ParseOptions in H.
    destruct (loop _ _ args) as [s'|e] eqn:E; [|discriminate H].
    injection H as _ <-.
    now destruct (loop_keeps_plain _ bin_body_kept bin_body_option
                    args (mk_scan o false []) s' eq_refl Hdd E).
  - intros o o' queries H.
    unfold FindPwnedPasswordHashOptions.ParseOptions in H.
    destruct (loop _ _ args) as [s'|e] eqn:E; [|discriminate H].
    injection H as _ <-.
    now destruct (loop_keeps_plain _ text_body_kept text_body_option
                    args (mk_scan o false []) s' eq_refl Hdd E).
  - intros H o o'. split.
    + unfold FindPwnedOptions.ParseOptions.
      now rewrite (loop_plain _ bin_body_kept args _ H).
    + unfold FindPwnedPasswordHashOptions.ParseOptions.
      now rewrite (loop_plain _ text_body_kept args _ H).
Qed.

(** X21: the argument [--] ends the options: what stands before it is
    parsed as without it, and every argument after it is left in [argv]
    as it is, whether it begins with a dash or not.  An exit before [--]
    is the exit of the whole.  Both programs. *)
Theorem double_dash_ends_options (pre rest : list string) :
  ~ In "--" pre ->
  (forall o,
     FindPwnedOptions.ParseOptions o (pre ++ "--" :: rest)%list
     = match FindPwnedOptions.ParseOptions o pre with
       | inl (o', queries) => inl (o', (queries ++ rest)%list)
       | inr e => inr e
       end)
  /\ (forall o,
        FindPwnedPasswordHashOptions.ParseOptions o
          (pre ++ "--" :: rest)%list
        = match FindPwnedPasswordHashOptions.ParseOptions o pre with
          | inl (o', queries) => inl (o', (queries ++ rest)%list)
          | inr e => inr e
          end).
Proof.
  intros Hdd. split; intros o.
  - unfold FindPwnedOptions.ParseOptions.
    rewrite (loop_double_dash _ bin_body_kept bin_body_double_dash
               bin_body_option pre rest (mk_scan o false []) eq_refl Hdd).
    now destruct (loop _ _ pre).
  - unfold FindPwnedPasswordHashOptions.ParseOptions.
    rewrite (loop_double_dash _ text_body_kept text_body_double_dash
               text_body_option pre rest (mk_scan o false []) eq_refl
               Hdd).
    now destruct (loop _ _ pre).
Qed.

End ParseOptionsFacts.

(** ** The options of the two programs *)

Section OptionTableFacts.

Import Cli.
Local Open Scope string_scope.

(** X22: every spelling of every flag option in the usage text of
    [find-pwned] sets the variable of that option and no other: the name
    or one of its abbreviations after one or two dashes stores 1, and with
    [no-] before the name 0, in whatever state the options are.  [-f],
    [-file], [-d], [-delim] and [-delimiter] store the text after [=]
    and leave with status 2 without it; the spellings of help and version
    leave with status 0. *)
Theorem bin_option_table (o : FindPwnedOptions.options)
  (queries : list string) :
  let s := mk_scan o false queries in
  (forall descriptor f name arg v,
     In (descriptor, f) bin_flag_options ->
     In name (abbreviations descriptor) ->
     In (arg, v) (spellings name) ->
     FindPwnedOptions.body s arg
     = inl (set_opts s (FindPwnedOptions.set_flag f v o)))
  /\ (forall value arg,
        In arg (dashed ["f"; "file"] (String "=" value)) ->
        FindPwnedOptions.body s arg
        = inl (set_opts s (FindPwnedOptions.set_hash_file value o)))
  /\ (forall value arg,
        In arg (dashed ["d"; "delim"; "delimiter"] (String "=" value)) ->
        FindPwnedOptions.body s arg
        = inl (set_opts s (FindPwnedOptions.set_delimiter value o)))
  /\ (forall arg,
        In arg (dashed ["f"; "file"] "") ->
        FindPwnedOptions.body s arg
        = inr (Exit 2 (MissingArgument "--file")))
  /\ (forall arg,
        In arg (dashed ["d"; "delim"; "delimiter"] "") ->
        FindPwnedOptions.body s arg
        = inr (Exit 2 (MissingArgument "--delimiter")))
  /\ (forall arg,
        In arg (dashed ["h"; "help"] "") ->
        FindPwnedOptions.body s arg = inr (Exit 0 ShowUsage))
  /\ (forall arg,
        In arg (dashed ["V"; "version"] "") ->
        FindPwnedOptions.body s arg = inr (Exit 0 ShowVersion)).
Proof.
  cbv zeta. split; [|split; [|split; [|split; [|split; [|split]]]]].
  - intros descriptor f name arg v Hd Hn Ha.
    unfold bin_flag_options in Hd. cbn [In] in Hd.
    repeat (destruct Hd as [Hd|Hd];
            [injection Hd as <- <-; cbn in Hn;
             repeat (destruct Hn as [<-|Hn];
                     [cbn in Ha;
                      repeat (destruct Ha as [Ha|Ha];
                              [injection Ha as <- <-; reflexivity|]);
                      destruct Ha|]);
             destruct Hn|]).
    destruct Hd.
  - intros value arg Ha. cbn in Ha.
    repeat (destruct Ha as [<-|Ha]; [reflexivity|]). destruct Ha.
  - intros value arg Ha. cbn in Ha.
    repeat (destruct Ha as [<-|Ha]; [reflexivity|]). destruct Ha.
  - intros arg Ha. cbn in Ha.
    repeat (destruct Ha as [<-|Ha]; [reflexivity|]). destruct Ha.
  - intros arg Ha. cbn in Ha.
    repeat (destruct Ha as [<-|Ha]; [reflexivity|]). destruct Ha.
  - intros arg Ha. cbn in Ha.
    repeat (destruct Ha as [<-|Ha]; [reflexivity|]). destruct Ha.
  - intros arg Ha. cbn in Ha.
    repeat (destruct Ha as [<-|Ha]; [reflexivity|]). destruct Ha.
Qed.

(** X23: every spelling of the three flag options in the usage text of
    [find-pwned-password-hash] sets the variable of that option and no
    other, 1 without and 0 with [no-] before the name; [-f] and [-file]
    store the text after [=] and leave with status 2 without it; the
    spellings of help leave with status 0. *)
Theorem text_option_table (o : FindPwnedPasswordHashOptions.options)
  (queries : list string) :
  let s := mk_scan o false queries in
  (forall descriptor f name arg v,
     In (descriptor, f) text_flag_options ->
     In name (abbreviations descriptor) ->
     In (arg, v) (spellings name) ->
     FindPwnedPasswordHashOptions.body s arg
     = inl (set_opts s (FindPwnedPasswordHashOptions.set_flag f v o)))
  /\ (forall value arg,
        In arg (dashed ["f"; "file"] (String "=" value)) ->
        FindPwnedPasswordHashOptions.body s arg
        = inl (set_opts s
                 (FindPwnedPasswordHashOptions.set_text_hash_file value o)))
  /\ (forall arg,
        In arg (dashed ["f"; "file"] "") ->
        FindPwnedPasswordHashOptions.body s arg
        = inr (Exit 2 (MissingArgument "--file")))
  /\ (forall arg,
        In arg (dashed ["h"; "help"] "") ->
        FindPwnedPasswordHashOptions.body s arg = inr (Exit 0 ShowUsage)).
Proof.
  cbv zeta. split; [|split; [|split]].
  - intros descriptor f name arg v Hd Hn Ha.
    unfold text_flag_options in Hd. cbn [In] in Hd.
    repeat (destruct Hd as [Hd|Hd];
            [injection Hd as <- <-; cbn in Hn;
             repeat (destruct Hn as [<-|Hn];
                     [cbn in Ha;
                      repeat (destruct Ha as [Ha|Ha];
                              [injection Ha as <- <-; reflexivity|]);
                      destruct Ha|]);
             destruct Hn|]).
    destruct Hd.
  - intros value arg Ha. cbn in Ha.
    repeat (destruct Ha as [<-|Ha]; [reflexivity|]). destruct Ha.
  - intros arg Ha. cbn in Ha.
    repeat (destruct Ha as [<-|Ha]; [reflexivity|]). destruct Ha.
  - intros arg Ha. cbn in Ha.
    repeat (destruct Ha as [<-|Ha]; [reflexivity|]). destruct Ha.
Qed.






End OptionTableFacts.

(** ** Instances *)

Section Instances.

Import Bisect Samples.
Local Open Scope string_scope.
Local Open Scope Z_scope.

Lemma bin_corpus_sorted : bin_sorted (bin_corpus 3) 3.
Proof.
  intros i j Hi Hij Hj.
  assert (C : (i = 0 /\ j = 1) \/ (i = 0 /\ j = 2) \/ (i = 1 /\ j = 2))
    by lia.
  destruct C as [[-> ->] | [[-> ->] | [-> ->]]]; vm_compute; reflexivity.
Qed.


Lemma bin_find_hash_sorted_witness :
  FindPwned.find_hash (bin_corpus 3) (24 * 3) (bin_hash (bin_corpus 3) 1)
  = Some (if (1 <? 3 - 1) || (3 =? 1)
          then Ret 1 (FindPwned.count_at (bin_corpus 3) 1) else Ret 0 0).
Proof.
  apply (bin_find_hash_sorted (bin_corpus 3) 3 1);
    [lia | reflexivity | reflexivity | exact bin_corpus_sorted | lia].
Defined.


Lemma bin_find_hash_sound_witness :
  exists r,
    FindPwned.find_hash (bin_corpus 3) (24 * 3) (sample_hash 1) = Some r
    /\ (r = Ret 0 0
        \/ exists m, 0 <= m < 3 /\ bin_hash (bin_corpus 3) m = sample_hash 1
                     /\ r = Ret 1 (FindPwned.count_at (bin_corpus 3) m)).
Proof.
  apply (bin_find_hash_sound (bin_corpus 3) 3 (sample_hash 1));
    [lia | reflexivity | reflexivity | reflexivity].
Defined.

Lemma find_hash_probes_witness :
  (exists s r,
      loop (FindPwned.cmp_at (bin_corpus 3) (sample_hash 1))
        (FindPwned.count_at (bin_corpus 3)) 2 (start (3 - 1)) = Some (s, r)
      /\ FindPwned.find_hash (bin_corpus 3) (24 * 3) (sample_hash 1)
         = Some r)
  /\ (exists s r,
        loop (FindPwnedPasswordHash.cmp_at (text_corpus 3) (sample_text 1))
          (FindPwnedPasswordHash.count_at (text_corpus 3)) 2 (start (3 - 1))
        = Some (s, r)
        /\ FindPwnedPasswordHash.find_hash (text_corpus 3) (63 * 3)
             (sample_text 1) 0
           = Some r).
Proof.
  apply (find_hash_probes 3 1 (bin_corpus 3) (sample_hash 1)
           (text_corpus 3) (sample_text 1) 0);
    [lia | now vm_compute | reflexivity | reflexivity | reflexivity
    | reflexivity].
Defined.


Lemma sha1_text_decodes_witness :
  FindPwned.parse_hash (Z.to_nat Sha1.SHA1_BINARY_BYTES)
    (CStr.chars "67452301EFCDAB8998BADCFE10325476C3D2E1F0") 0
    (repeat 0 (Z.to_nat Sha1.SHA1_BINARY_BYTES))
  = inl (digest_bytes (with_flags Sha1.SHA1_FLAG_UPPER_CASE
                         Sha1.sha1_initialized)).
Proof.
  apply (sha1_text_decodes
           (with_flags Sha1.SHA1_FLAG_UPPER_CASE Sha1.sha1_initialized)
           "67452301EFCDAB8998BADCFE10325476C3D2E1F0");
    reflexivity.
Defined.

Lemma exit_status_reports_misses_witness :
  let cfg := bin_config in
  let e := bin_env 48 [text_of (map hexdigit [0; 0; 0; 0]); sample_text 0] in
  snd (FindPwned.main cfg e FindPwned.initial)
  = Run.Value (if existsb (missed cfg (bin_corpus 2) (FindPwned.seek_end e))
                    (queries e)
               then 1 else 0)
  /\ forall q,
       missed cfg (bin_corpus 2) (FindPwned.seek_end e) q = true
       <-> forall hash0,
             snd (FindPwned.read_hash cfg q FindPwned.initial)
             = Run.Value (Some hash0) ->
             FindPwned.find_hash (bin_corpus 2) (FindPwned.seek_end e) hash0
             = Some (Ret 0 0).
Proof.
  cbv zeta.
  apply (exit_status_reports_misses bin_config
           (bin_env 48 [text_of (map hexdigit [0; 0; 0; 0]); sample_text 0])
           (bin_corpus 2) FindPwned.initial);
    [reflexivity | cbn; lia | reflexivity | reflexivity | reflexivity].
Defined.

Lemma text_password_query_witness :
  let cfg := FindPwnedPasswordHash.mk_config true true true in
  exists digest found count0,
    Sha1.sha1_buffer_flags (Some (CStr.chars "abc")) (CStr.strlen "abc")
      Sha1.SHA1_FLAG_UPPER_CASE = Some digest
    /\ CStr.strlen digest = 40
    /\ Forall (fun c => In c (list_ascii_of_string "0123456789ABCDEF"))
         (list_ascii_of_string digest)
    /\ FindPwnedPasswordHash.find_hash (text_corpus 2) (63 * 2) digest 0
       = Some (Ret found count0)
    /\ FindPwnedPasswordHash.handle_input cfg "abc" (text_corpus 2) (63 * 2)
         []
       = (([] ++ [FindPwnedPasswordHash.Lookup digest;
                  FindPwnedPasswordHash.Output
                    (if FindPwnedPasswordHash.g_print_hash cfg
                     then Some digest else None) count0])%list,
          Run.Value None).
Proof.
  cbv zeta.
  apply (text_password_query
           (FindPwnedPasswordHash.mk_config true true true) "abc"
           (text_corpus 2) 2 []);
    [reflexivity | lia | reflexivity].
Defined.

Lemma text_exit_status_is_zero_witness :
  snd (FindPwnedPasswordHash.main text_config
         (text_env 126 [sample_text 1; "abc"]) [])
  = Run.Value 0.
Proof.
  apply (text_exit_status_is_zero text_config
           (text_env 126 [sample_text 1; "abc"]) (text_corpus 2) []);
    [reflexivity | cbn; lia | reflexivity | reflexivity | reflexivity].
Defined.

Lemma name_part_of_path_witness :
  Cli.NamePartOfPath (Some ("/usr/local/bin" ++ String "/" "find-pwned"))
  = Some "find-pwned"
  /\ Cli.NamePartOfPath (Some "find-pwned") = Some "find-pwned"
  /\ Cli.NamePartOfPath None = None.
Proof.
  apply (name_part_of_path "/usr/local/bin" "/" "find-pwned");
    [reflexivity | discriminate | reflexivity].
Defined.

Lemma IsOption_abbreviations_witness :
  Cli.IsOption (String "-" ("delim" ++ value_suffix (Some "/")))
    "d:elim:iter"
  = (if accepts "d:elim:iter" "delim" then (true, Some "/")
     else (false, None))
  /\ Cli.IsOption
       (String "-" (String "-" ("delim" ++ value_suffix (Some "/"))))
       "d:elim:iter"
     = (if accepts "d:elim:iter" "delim" then (true, Some "/")
        else (false, None))
  /\ Cli.IsOption ("delim" ++ value_suffix (Some "/")) "d:elim:iter"
     = (false, None).
Proof.
  apply (IsOption_abbreviations "d:elim:iter" "delim" (Some "/"));
    reflexivity.
Defined.

Lemma IsFlagOption_values_witness :
  let arg := "q" ++ value_suffix None in
  if accepts "q:uiet" "q" then
    Cli.IsFlagOption ("-" ++ arg) "q:uiet" = Some true
    /\ Cli.IsFlagOption ("--" ++ arg) "q:uiet" = Some true
    /\ Cli.IsFlagOption ("-no-" ++ arg) "q:uiet" = Some false
    /\ Cli.IsFlagOption ("--no-" ++ arg) "q:uiet" = Some false
  else
    Cli.IsFlagOption ("-" ++ arg) "q:uiet" = None
    /\ Cli.IsFlagOption ("--" ++ arg) "q:uiet" = None.
Proof.
  apply (IsFlagOption_values "q:uiet" "q" None); reflexivity.
Defined.

Lemma plain_arguments_instance : ~ In "--" ["-q"; "abc"; "-pi"; "def"].
Proof. cbn. intuition discriminate. Qed.

Lemma queries_are_the_plain_arguments_witness :
  (forall o o' queries,
     FindPwnedOptions.ParseOptions o ["-q"; "abc"; "-pi"; "def"]
     = inl (o', queries) ->
     queries = filter no_dash ["-q"; "abc"; "-pi"; "def"])
  /\ (forall o o' queries,
        FindPwnedPasswordHashOptions.ParseOptions o
          ["-q"; "abc"; "-pi"; "def"]
        = inl (o', queries) ->
        queries = filter no_dash ["-q"; "abc"; "-pi"; "def"])
  /\ (forallb no_dash ["-q"; "abc"; "-pi"; "def"] = true ->
      forall o o',
        FindPwnedOptions.ParseOptions o ["-q"; "abc"; "-pi"; "def"]
        = inl (o, ["-q"; "abc"; "-pi"; "def"])
        /\ FindPwnedPasswordHashOptions.ParseOptions o'
             ["-q"; "abc"; "-pi"; "def"]
           = inl (o', ["-q"; "abc"; "-pi"; "def"])).
Proof.
  exact (queries_are_the_plain_arguments ["-q"; "abc"; "-pi"; "def"]
           plain_arguments_instance).
Defined.

Lemma double_dash_instance : ~ In "--" ["-p"].
Proof. cbn. intuition discriminate. Qed.

Lemma double_dash_ends_options_witness :
  (forall o,
     FindPwnedOptions.ParseOptions o (["-p"] ++ "--" :: ["-secret"])%list
     = match FindPwnedOptions.ParseOptions o ["-p"] with
       | inl (o', queries) => inl (o', (queries ++ ["-secret"])%list)
       | inr e => inr e
       end)
  /\ (forall o,
        FindPwnedPasswordHashOptions.ParseOptions o
          (["-p"] ++ "--" :: ["-secret"])%list
        = match FindPwnedPasswordHashOptions.ParseOptions o ["-p"] with
          | inl (o', queries) => inl (o', (queries ++ ["-secret"])%list)
          | inr e => inr e
          end).
Proof.
  exact (double_dash_ends_options ["-p"] ["-secret"] double_dash_instance).
Defined.


End Instances.

(** ** The converter *)

Section Converter.

Import Pwned2Bin.

Lemma hex_val_hexval c : hex_val c = FindPwned.hexval c.
Proof. reflexivity. Qed.

Lemma hex_bytes_cons c1 c0 input n :
  hex_bytes (c1 :: c0 :: input) (S n)
  = (FindPwned.hexval c1 * 16 + FindPwned.hexval c0) :: hex_bytes input n.
Proof.
  unfold hex_bytes. cbn [seq map]. f_equal.
  rewrite <- seq_shift, map_map. apply map_ext. intros k.
  unfold Mem.load.
  replace (Z.to_nat (2 * Z.of_nat (S k)))
    with (S (S (Z.to_nat (2 * Z.of_nat k)))) by lia.
  replace (Z.to_nat (2 * Z.of_nat (S k) + 1))
    with (S (S (Z.to_nat (2 * Z.of_nat k + 1)))) by lia.
  reflexivity.
Qed.

Lemma hex_text_cons c1 c0 input n :
  hex_text (c1 :: c0 :: input) (S n) ->
  0 <= FindPwned.hexval c1 /\ 0 <= FindPwned.hexval c0 /\ hex_text input n.
Proof.
  intros H. split; [apply (H 0); lia|]. split; [apply (H 1); lia|].
  intros k Hk. specialize (H (k + 2) ltac:(lia)).
  unfold Mem.load in *.
  now replace (Z.to_nat (k + 2)) with (S (S (Z.to_nat k))) in H by lia.
Qed.

(** The loop of [copy_line] over [2 * n] hex digits. *)
Lemma sha_loop_hex n : forall digits0 rest dst acc,
  List.length digits0 = (2 * n)%nat ->
  hex_text digits0 n ->
  (List.length acc + n <= List.length dst)%nat ->
  sha_loop n (digits0 ++ rest) (splice dst 0 acc)
    (Z.of_nat (List.length acc))
  = (Some (splice dst 0 (acc ++ hex_bytes digits0 n)), rest).
Proof.
  induction n as [|n IH]; intros digits0 rest dst acc Hlen Hhex Hdst.
  - destruct digits0; [|discriminate Hlen].
    cbn [sha_loop app hex_bytes seq map]. now rewrite app_nil_r.
  - destruct digits0 as [|c1 [|c0 digits0]];
      [cbn [List.length] in Hlen; lia | cbn [List.length] in Hlen; lia |].
    destruct (hex_text_cons _ _ _ _ Hhex) as (H1 & H0 & Hrest).
    cbn [sha_loop app]. unfold get_hex_byte. cbn [getchar].
    change hex_val with FindPwned.hexval.
    destruct (Z.ltb_spec (FindPwned.hexval c1) 0); [lia|].
    destruct (Z.ltb_spec (FindPwned.hexval c0) 0); [lia|].
    cbn [orb]. rewrite store_after by (cbn [Nat.add]; lia).
    replace (Z.of_nat (List.length acc) + 1)
      with (Z.of_nat (List.length (acc ++ [16 * FindPwned.hexval c1
                                            + FindPwned.hexval c0])))
      by (rewrite length_app; cbn [List.length]; lia).
    rewrite IH.
    + rewrite hex_bytes_cons, <- app_assoc. cbn [app].
      now replace (FindPwned.hexval c1 * 16 + FindPwned.hexval c0)
        with (16 * FindPwned.hexval c1 + FindPwned.hexval c0) by lia.
    + cbn [List.length] in Hlen. lia.
    + exact Hrest.
    + rewrite length_app. cbn [List.length]. lia.
Qed.

Lemma scan_digits_app ds : forall rest acc,
  Forall (fun c => CStr.isdigit c = true) ds ->
  CStr.isdigit (Mem.load rest 0) = false ->
  scan_digits (ds ++ rest) acc = (CStr.digits ds acc, rest).
Proof.
  induction ds as [|c ds IH]; intros rest acc Hds Hrest.
  - cbn [app CStr.digits]. destruct rest as [|x rest]; [reflexivity|].
    cbn [scan_digits]. unfold Mem.load in Hrest. cbn in Hrest.
    now rewrite Hrest.
  - apply Forall_cons_iff in Hds as [Hc Hds].
    cbn [app scan_digits CStr.digits]. rewrite Hc. now apply IH.
Qed.

Lemma digits_nonneg ds : forall acc,
  Forall (fun c => CStr.isdigit c = true) ds ->
  0 <= acc -> acc <= CStr.digits ds acc.
Proof.
  induction ds as [|c ds IH]; intros acc Hds Hacc; [cbn; lia|].
  apply Forall_cons_iff in Hds as [Hc Hds].
  cbn [CStr.digits]. rewrite Hc. unfold CStr.isdigit in Hc.
  apply andb_true_iff in Hc as [H1 H2].
  apply Z.leb_le in H1, H2.
  specialize (IH (10 * acc + (c - 48)) Hds ltac:(lia)). lia.
Qed.

Lemma digit_not_space c : CStr.isdigit c = true -> CStr.isspace c = false.
Proof.
  unfold CStr.isdigit, CStr.isspace. intros H.
  apply andb_true_iff in H as [H1 H2]. apply Z.leb_le in H1, H2.
  destruct (Z.eqb_spec c 32); [lia|].
  destruct (Z.leb_spec 9 c), (Z.leb_spec c 13); cbn; lia.
Qed.

Lemma digit_not_sign c :
  CStr.isdigit c = true -> (c =? 45) || (c =? 43) = false.
Proof.
  unfold CStr.isdigit. intros H.
  apply andb_true_iff in H as [H1 H2]. apply Z.leb_le in H1, H2.
  destruct (Z.eqb_spec c 45); [lia|]. destruct (Z.eqb_spec c 43); [lia|].
  reflexivity.
Qed.

(** [fscanf] on the digits of a count that fits. *)
Lemma scan_unsigned_digits ds rest :
  ds <> [] ->
  Forall (fun c => CStr.isdigit c = true) ds ->
  CStr.isdigit (Mem.load rest 0) = false ->
  CStr.digits ds 0 < 2 ^ 32 ->
  scan_unsigned (ds ++ rest) = Scanned (CStr.digits ds 0) rest.
Proof.
  intros Hne Hds Hrest Hv.
  destruct ds as [|c ds]; [now elim Hne|].
  pose proof Hds as Hall. apply Forall_cons_iff in Hds as [Hc Hds].
  unfold scan_unsigned. cbn [app CStr.skip_space].
  rewrite (digit_not_space c Hc).
  change (Mem.load (c :: ds ++ rest) 0) with c.
  rewrite (digit_not_sign c Hc).
  change (Mem.load (c :: ds ++ rest) 0) with c. rewrite Hc.
  change (c :: ds ++ rest) with ((c :: ds) ++ rest).
  rewrite (scan_digits_app (c :: ds) rest 0 Hall Hrest).
  assert ((c =? 45) = false) as ->.
  { pose proof (digit_not_sign c Hc) as H.
    now apply orb_false_iff in H as [H _]. }
  cbn [andb orb].
  destruct (Z.leb_spec (2 ^ 32) (CStr.digits (c :: ds) 0)); [lia|].
  reflexivity.
Qed.

Lemma skip_blanks_repeat k c rest :
  c <> 32 -> skip_blanks (repeat 32 k ++ c :: rest) = rest.
Proof.
  intros Hc. induction k as [|k IH].
  - cbn. now destruct (Z.eqb_spec c 32).
  - cbn [repeat app skip_blanks]. exact IH.
Qed.

(** One call of [copy_line] on a well-formed line. *)
Lemma copy_line_entry e sha rest :
  well_formed e ->
  List.length sha = 20%nat ->
  copy_line sha (line_of e ++ rest)
  = Wrote (record_of e) (hex_bytes (hex e) 20) rest.
Proof.
  intros (Hlen & Hhex & Hne & Hds & Hv) Hsha.
  unfold copy_line, line_of. rewrite <- !app_assoc.
  pose proof (sha_loop_hex 20 (hex e)
                ([58] ++ digits e ++ repeat 32 (blanks e)
                   ++ [13; 10] ++ rest)
                sha [] Hlen Hhex) as H.
  rewrite splice_nil in H by (cbn [List.length]; lia).
  cbn [List.length Z.of_nat app] in H. cbn [app].
  rewrite H by lia. clear H.
  rewrite splice_all by (rewrite hex_bytes_length; lia).
  cbn [getchar Z.eqb Pos.eqb negb].
  rewrite scan_unsigned_digits; auto.
  - rewrite u32_small by (pose proof (digits_nonneg (digits e) 0 Hds);
                          fold (value_of e); unfold value_of in *; lia).
    rewrite skip_blanks_repeat by lia. reflexivity.
  - destruct (blanks e); reflexivity.
Qed.

Lemma copy_line_end sha : copy_line sha [] = Stopped.
Proof. reflexivity. Qed.

Lemma main_loop_entries es : forall fuel sha out,
  Forall well_formed es ->
  List.length sha = 20%nat ->
  (List.length es < fuel)%nat ->
  main_loop fuel sha (flat_map line_of es) out
  = Some (out ++ flat_map record_of es).
Proof.
  induction es as [|e es IH]; intros fuel sha out Hwf Hsha Hfuel.
  - destruct fuel as [|fuel]; [cbn in Hfuel; lia|].
    cbn [flat_map main_loop]. rewrite copy_line_end. now rewrite app_nil_r.
  - apply Forall_cons_iff in Hwf as [He Hwf].
    destruct fuel as [|fuel]; [cbn in Hfuel; lia|].
    cbn [flat_map main_loop]. rewrite copy_line_entry by assumption.
    rewrite IH.
    + now rewrite <- app_assoc.
    + exact Hwf.
    + apply hex_bytes_length.
    + cbn [List.length] in Hfuel. lia.
Qed.

Lemma line_of_length e :
  well_formed e ->
  List.length (line_of e)
  = (43 + List.length (digits e) + blanks e)%nat.
Proof.
  intros (Hlen & _). unfold line_of.
  rewrite !length_app, repeat_length, Hlen. cbn [List.length]. lia.
Qed.

Lemma lines_length es :
  Forall well_formed es ->
  (List.length es <= List.length (flat_map line_of es))%nat.
Proof.
  induction 1 as [|e es He _ IH]; [reflexivity|].
  cbn [flat_map List.length]. rewrite length_app, line_of_length by exact He.
  lia.
Qed.

Lemma main_entries es :
  Forall well_formed es ->
  Pwned2Bin.main (flat_map line_of es) = Some (flat_map record_of es).
Proof.
  intros Hwf. unfold Pwned2Bin.main.
  rewrite main_loop_entries; [reflexivity | exact Hwf | reflexivity |].
  pose proof (lines_length es Hwf). lia.
Qed.

(** X25: on an input of well-formed lines, each 40 hex digits, a colon, a
    decimal count below 2^32, blanks and CR LF, [pwned2bin] writes for
    every line, in order, the 20 bytes of the hash and the count on four
    bytes, least significant first, 24 bytes a line, and it ends when the
    input does. *)
Theorem pwned2bin_converts (es : list entry) :
  Forall well_formed es ->
  Pwned2Bin.main (flat_map line_of es) = Some (flat_map record_of es)
  /\ List.length (flat_map record_of es) = (24 * List.length es)%nat.
Proof.
  intros Hwf. split; [now apply main_entries|].
  induction es as [|e es IH]; [reflexivity|].
  apply Forall_cons_iff in Hwf as [_ Hwf].
  cbn [flat_map List.length]. rewrite length_app, IH by exact Hwf.
  unfold record_of. rewrite length_app, hex_bytes_length.
  cbn [Sha1.word_bytes List.length]. lia.
Qed.

(** The loop of [copy_line] over [2 * n] hex digits, with passes left. *)
Lemma sha_loop_more n m : forall digits0 rest dst acc,
  List.length digits0 = (2 * n)%nat ->
  hex_text digits0 n ->
  (List.length acc + n <= List.length dst)%nat ->
  sha_loop (n + m) (digits0 ++ rest) (splice dst 0 acc)
    (Z.of_nat (List.length acc))
  = sha_loop m rest (splice dst 0 (acc ++ hex_bytes digits0 n))
      (Z.of_nat (List.length acc + n)).
Proof.
  induction n as [|n IH]; intros digits0 rest dst acc Hlen Hhex Hdst.
  - destruct digits0; [|discriminate Hlen].
    cbn [Nat.add app hex_bytes seq map].
    now rewrite app_nil_r, Nat.add_0_r.
  - destruct digits0 as [|c1 [|c0 digits0]];
      [cbn [List.length] in Hlen; lia | cbn [List.length] in Hlen; lia |].
    destruct (hex_text_cons _ _ _ _ Hhex) as (H1 & H0 & Hrest).
    cbn [Nat.add sha_loop app]. unfold get_hex_byte. cbn [getchar].
    change hex_val with FindPwned.hexval.
    destruct (Z.ltb_spec (FindPwned.hexval c1) 0); [lia|].
    destruct (Z.ltb_spec (FindPwned.hexval c0) 0); [lia|].
    cbn [orb]. rewrite store_after by (cbn [Nat.add]; lia).
    replace (Z.of_nat (List.length acc) + 1)
      with (Z.of_nat (List.length (acc ++ [16 * FindPwned.hexval c1
                                            + FindPwned.hexval c0])))
      by (rewrite length_app; cbn [List.length]; lia).
    rewrite IH.
    + rewrite hex_bytes_cons, <- app_assoc. cbn [app].
      replace (FindPwned.hexval c1 * 16 + FindPwned.hexval c0)
        with (16 * FindPwned.hexval c1 + FindPwned.hexval c0) by lia.
      rewrite length_app. cbn [List.length]. do 2 f_equal. lia.
    + cbn [List.length] in Hlen. lia.
    + exact Hrest.
    + rewrite length_app. cbn [List.length]. lia.
Qed.

Lemma hex_text_tail c digits0 n :
  hex_text (c :: digits0) (S n) -> hex_text digits0 n.
Proof.
  intros H k Hk. specialize (H (k + 1) ltac:(lia)).
  unfold Mem.load in *.
  now replace (Z.to_nat (k + 1)) with (S (Z.to_nat k)) in H by lia.
Qed.

(** One call of [copy_line] on a line that ends with a bare LF: the first
    character of the next line is read too. *)
Lemma copy_line_lf e sha c rest :
  well_formed e ->
  List.length sha = 20%nat ->
  copy_line sha (lf_line_of e ++ c :: rest)
  = Wrote (record_of e) (hex_bytes (hex e) 20) rest.
Proof.
  intros (Hlen & Hhex & Hne & Hds & Hv) Hsha.
  unfold copy_line, lf_line_of. rewrite <- !app_assoc.
  pose proof (sha_loop_hex 20 (hex e)
                ([58] ++ digits e ++ repeat 32 (blanks e)
                   ++ [10] ++ c :: rest)
                sha [] Hlen Hhex) as H.
  rewrite splice_nil in H by (cbn [List.length]; lia).
  cbn [List.length Z.of_nat app] in H. cbn [app].
  rewrite H by lia. clear H.
  rewrite splice_all by (rewrite hex_bytes_length; lia).
  cbn [getchar Z.eqb Pos.eqb negb].
  rewrite scan_unsigned_digits; auto.
  - rewrite u32_small by (pose proof (digits_nonneg (digits e) 0 Hds);
                          fold (value_of e); unfold value_of in *; lia).
    rewrite skip_blanks_repeat by lia. reflexivity.
  - destruct (blanks e); reflexivity.
Qed.

(** X26: [copy_line] reads two characters after the count and its blanks,
    whatever they are.  On lines that end with a bare LF the second is
    the first hex digit of the next line: the loop for that line then
    meets the colon as a hex digit and returns 0, so that [pwned2bin]
    writes the record of the first line and nothing more. *)
Theorem pwned2bin_stops_after_bare_lf (e1 e2 : entry) (rest : list Z) :
  well_formed e1 ->
  well_formed e2 ->
  Pwned2Bin.main (lf_line_of e1 ++ lf_line_of e2 ++ rest)
  = Some (record_of e1).
Proof.
  intros H1 H2.
  destruct H2 as (Hlen & Hhex & _).
  destruct (hex e2) as [|c tail] eqn:E; [discriminate Hlen|].
  set (after := tail ++ 58 :: digits e2 ++ repeat 32 (blanks e2)
                  ++ 10 :: rest).
  assert (Hin : lf_line_of e2 ++ rest = c :: after).
  { unfold lf_line_of, after. rewrite E, <- !app_assoc. reflexivity. }
  rewrite Hin. unfold Pwned2Bin.main.
  rewrite length_app. cbn [List.length].
  replace (List.length (lf_line_of e1) + S (List.length after))%nat
    with (S (List.length (lf_line_of e1) + List.length after)) by lia.
  cbn [main_loop]. rewrite copy_line_lf by (auto; reflexivity).
  destruct (List.length (lf_line_of e1) + List.length after)%nat
    as [|fuel] eqn:F.
  { unfold lf_line_of in F. rewrite !length_app in F.
    cbn [List.length] in F. lia. }
  cbn [main_loop app].
  assert (Hstop : copy_line (hex_bytes (hex e1) 20) after = Stopped).
  { unfold copy_line, after.
    cbn [List.length] in Hlen.
    assert (Htail : exists front c39, tail = front ++ [c39]
                      /\ List.length front = 38%nat).
    { exists (firstn 38 tail), (nth 38 tail 0). split.
      - rewrite <- (firstn_skipn 38 tail) at 1. f_equal.
        destruct (skipn 38 tail) as [|x [|y l]] eqn:S.
        + pose proof (length_skipn 38 tail) as L. rewrite S in L.
          cbn in L. lia.
        + f_equal. rewrite <- (firstn_skipn 38 tail), S.
          rewrite app_nth2 by (rewrite firstn_length_le; lia).
          rewrite firstn_length_le by lia. reflexivity.
        + pose proof (length_skipn 38 tail) as L. rewrite S in L.
          cbn in L. lia.
      - rewrite firstn_length_le; lia. }
    destruct Htail as (front & c39 & -> & Hfront).
    rewrite <- !app_assoc. cbn [app].
    pose proof (sha_loop_more 19 1 front
                  (c39 :: 58 :: digits e2 ++ repeat 32 (blanks e2)
                     ++ 10 :: rest)
                  (hex_bytes (hex e1) 20) []) as H.
    rewrite splice_nil in H
      by (rewrite hex_bytes_length; cbn [List.length]; lia).
    cbn [List.length Z.of_nat Nat.add] in H.
    change (19 + 1)%nat with 20%nat in H. rewrite H.
    - cbn [sha_loop]. unfold get_hex_byte. cbn [getchar].
      change (hex_val 58) with (-1).
      now rewrite orb_true_r.
    - exact Hfront.
    - intros k Hk. specialize (Hhex (k + 1) ltac:(lia)).
      unfold Mem.load in *.
      replace (Z.to_nat (k + 1)) with (S (Z.to_nat k)) in Hhex by lia.
      cbn [nth] in Hhex. rewrite app_nth1 in Hhex by lia. exact Hhex.
    - rewrite hex_bytes_length. lia. }
  rewrite Hstop. reflexivity.
Qed.

End Converter.

(** ** The converted corpus *)

Section SameAnswers.

Import Bisect.

Lemma same_sign_body cmp1 cmp2 count1 count2 s c1 c2 :
  cmp1 (mid s) = Some c1 ->
  cmp2 (mid s) = Some c2 ->
  same_sign c1 c2 ->
  count1 (mid s) = count2 (mid s) ->
  body cmp1 count1 s = body cmp2 count2 s.
Proof.
  intros H1 H2 [Hz Hn] Hc. unfold body. now rewrite H1, H2, Hz, Hn, Hc.
Qed.

(** Two corpora whose records compare alike with the target and hold the
    same counts give the same search. *)
Lemma loop_same_sign cmp1 cmp2 count1 count2 n
  (Hsame : forall m, 0 <= m < n ->
     exists c1 c2, cmp1 m = Some c1 /\ cmp2 m = Some c2
                   /\ same_sign c1 c2 /\ count1 m = count2 m) fuel :
  forall s, inside n s ->
    loop cmp1 count1 fuel s = loop cmp2 count2 fuel s.
Proof.
  assert (Hmap : forall m, 0 <= m < n -> exists c, cmp1 m = Some c).
  { intros m Hm. destruct (Hsame m Hm) as (c1 & _ & H & _). eauto. }
  induction fuel as [|fuel IH]; intros s Hin; [reflexivity|].
  cbn [loop].
  pose proof (mid_between (fun z => z) n s Hin) as Hmid.
  destruct (Hsame (mid s)) as (c1 & c2 & H1 & H2 & Hs & Hc).
  { destruct Hin as (? & ? & _). lia. }
  rewrite <- (same_sign_body cmp1 cmp2 count1 count2 s c1 c2 H1 H2 Hs Hc).
  destruct (body_cases cmp1 count1 n Hmap s Hin)
    as [(r & -> & _) | (s' & -> & Hin' & _)]; [reflexivity|].
  now apply IH.
Qed.

Lemma search_same_sign cmp1 cmp2 count1 count2 n :
  1 <= n ->
  (forall m, 0 <= m < n ->
     exists c1 c2, cmp1 m = Some c1 /\ cmp2 m = Some c2
                   /\ same_sign c1 c2 /\ count1 m = count2 m) ->
  search cmp1 count1 (n - 1) = search cmp2 count2 (n - 1).
Proof.
  intros Hn Hsame. unfold search.
  rewrite (loop_same_sign cmp1 cmp2 count1 count2 n Hsame);
    [reflexivity|].
  now apply (start_inside (fun z => z)).
Qed.

Lemma hex_digit_cases x :
  0 <= FindPwned.hexval x ->
  (48 <= x <= 57 /\ FindPwned.hexval x = x - 48 /\ CStr.tolower x = x)
  \/ (65 <= x <= 70 /\ FindPwned.hexval x = x - 55
      /\ CStr.tolower x = x + 32)
  \/ (97 <= x <= 102 /\ FindPwned.hexval x = x - 87
      /\ CStr.tolower x = x).
Proof.
  unfold FindPwned.hexval, CStr.tolower.
  destruct (Z.leb_spec 48 x), (Z.leb_spec x 57), (Z.leb_spec 65 x),
    (Z.leb_spec x 70), (Z.leb_spec 97 x), (Z.leb_spec x 102),
    (Z.leb_spec x 90); cbn [andb]; lia.
Qed.

Lemma hex_order x y :
  0 <= FindPwned.hexval x -> 0 <= FindPwned.hexval y ->
  CStr.tolower x - CStr.tolower y < 0
  <-> FindPwned.hexval x < FindPwned.hexval y.
Proof.
  intros Hx Hy.
  destruct (hex_digit_cases x Hx) as [H|[H|H]];
    destruct (hex_digit_cases y Hy) as [G|[G|G]]; lia.
Qed.

Lemma hex_same x y :
  0 <= FindPwned.hexval x -> 0 <= FindPwned.hexval y ->
  (CStr.tolower x = CStr.tolower y
   <-> FindPwned.hexval x = FindPwned.hexval y)
  /\ CStr.tolower x <> 0
  /\ FindPwned.hexval x <= 15.
Proof.
  intros Hx Hy.
  destruct (hex_digit_cases x Hx) as [H|[H|H]];
    destruct (hex_digit_cases y Hy) as [G|[G|G]]; lia.
Qed.

(** Hex text compares, without regard to case, as the bytes it
    denotes. *)
Lemma hex_compare n : forall a b,
  List.length a = (2 * n)%nat -> List.length b = (2 * n)%nat ->
  hex_text a n -> hex_text b n ->
  same_sign (CStr.strncasecmp a b (2 * n))
    (CStr.memcmp (hex_bytes a n) (hex_bytes b n) n).
Proof.
  induction n as [|n IH]; intros a b Ha Hb Hta Htb; [now split|].
  destruct a as [|a1 [|a0 a]];
    [cbn [List.length] in Ha; lia | cbn [List.length] in Ha; lia |].
  destruct b as [|b1 [|b0 b]];
    [cbn [List.length] in Hb; lia | cbn [List.length] in Hb; lia |].
  destruct (hex_text_cons _ _ _ _ Hta) as (Ha1 & Ha0 & Hta').
  destruct (hex_text_cons _ _ _ _ Htb) as (Hb1 & Hb0 & Htb').
  replace (2 * S n)%nat with (S (S (2 * n))) by lia.
  rewrite !hex_bytes_cons.
  cbn [CStr.strncasecmp CStr.memcmp hd tl].
  pose proof (hex_order a1 b1 Ha1 Hb1) as O1.
  pose proof (hex_order b1 a1 Hb1 Ha1) as O1'.
  pose proof (hex_same a1 b1 Ha1 Hb1) as (S1 & N1 & U1).
  pose proof (hex_order a0 b0 Ha0 Hb0) as O0.
  pose proof (hex_order b0 a0 Hb0 Ha0) as O0'.
  pose proof (hex_same a0 b0 Ha0 Hb0) as (S0 & N0 & U0).
  pose proof (hex_same b1 a1 Hb1 Ha1) as (_ & _ & V1).
  pose proof (hex_same b0 a0 Hb0 Ha0) as (_ & _ & V0).
  destruct (Z.eqb_spec (CStr.tolower a1) (CStr.tolower b1)) as [E1|E1].
  - destruct (Z.eqb_spec (CStr.tolower a1) 0); [contradiction|].
    destruct (Z.eqb_spec (CStr.tolower a0) (CStr.tolower b0)) as [E0|E0].
    + destruct (Z.eqb_spec (CStr.tolower a0) 0); [contradiction|].
      destruct (Z.eqb_spec
                  (FindPwned.hexval a1 * 16 + FindPwned.hexval a0)
                  (FindPwned.hexval b1 * 16 + FindPwned.hexval b0));
        [|lia].
      apply IH; auto; cbn [List.length] in Ha, Hb; lia.
    + destruct (Z.eqb_spec
                  (FindPwned.hexval a1 * 16 + FindPwned.hexval a0)
                  (FindPwned.hexval b1 * 16 + FindPwned.hexval b0));
        [lia|].
      unfold same_sign.
      destruct (Z.eqb_spec 0 (CStr.tolower a0 - CStr.tolower b0)),
        (Z.eqb_spec 0 (FindPwned.hexval a1 * 16 + FindPwned.hexval a0
                       - (FindPwned.hexval b1 * 16 + FindPwned.hexval b0))),
        (Z.ltb_spec (CStr.tolower a0 - CStr.tolower b0) 0),
        (Z.ltb_spec (FindPwned.hexval a1 * 16 + FindPwned.hexval a0
                     - (FindPwned.hexval b1 * 16 + FindPwned.hexval b0)) 0);
        split; try reflexivity; lia.
  - destruct (Z.eqb_spec
                (FindPwned.hexval a1 * 16 + FindPwned.hexval a0)
                (FindPwned.hexval b1 * 16 + FindPwned.hexval b0));
      [lia|].
    unfold same_sign.
    destruct (Z.eqb_spec 0 (CStr.tolower a1 - CStr.tolower b1)),
      (Z.eqb_spec 0 (FindPwned.hexval a1 * 16 + FindPwned.hexval a0
                     - (FindPwned.hexval b1 * 16 + FindPwned.hexval b0))),
      (Z.ltb_spec (CStr.tolower a1 - CStr.tolower b1) 0),
      (Z.ltb_spec (FindPwned.hexval a1 * 16 + FindPwned.hexval a0
                   - (FindPwned.hexval b1 * 16 + FindPwned.hexval b0)) 0);
      split; try reflexivity; lia.
Qed.

End SameAnswers.

Section ConvertedCorpus.

Import Bisect.

Lemma skipn_flat_map {A} (f : A -> list Z) (w : nat) : forall i es,
  Forall (fun e => List.length (f e) = w) es ->
  skipn (w * i) (flat_map f es) = flat_map f (skipn i es).
Proof.
  induction i as [|i IH]; intros es H.
  - now rewrite Nat.mul_0_r.
  - destruct es as [|e es]; [now rewrite skipn_nil|].
    apply Forall_cons_iff in H as [He H].
    cbn [flat_map skipn]. rewrite skipn_app, He.
    rewrite (skipn_all2 (f e)) by lia.
    replace (w * S i - w)%nat with (w * i)%nat by lia.
    cbn [app]. now apply IH.
Qed.

Lemma length_flat_map_const {A} (f : A -> list Z) (w : nat) es :
  Forall (fun e => List.length (f e) = w) es ->
  List.length (flat_map f es) = (w * List.length es)%nat.
Proof.
  induction 1 as [|e es He _ IH]; [cbn; lia|].
  cbn [flat_map List.length]. rewrite length_app, He, IH. lia.
Qed.

Lemma skipn_entry {A} (es : list A) m :
  (m < List.length es)%nat ->
  exists e rest, skipn m es = e :: rest /\ In e es.
Proof.
  intros Hm. destruct (skipn m es) as [|e rest] eqn:E.
  - pose proof (length_skipn m es) as L. rewrite E in L. cbn in L. lia.
  - exists e, rest. split; [reflexivity|].
    rewrite <- (firstn_skipn m es), E. apply in_or_app. right. now left.
Qed.

Lemma record_of_length e : List.length (record_of e) = 24%nat.
Proof.
  unfold record_of. rewrite length_app, hex_bytes_length. reflexivity.
Qed.

Lemma line_of_width e :
  well_formed e -> fixed_width e -> List.length (line_of e) = 63%nat.
Proof.
  intros Hwf [Hw _]. rewrite line_of_length by exact Hwf. lia.
Qed.

Lemma le32_word_bytes v rest :
  0 <= v < 2 ^ 32 -> FindPwned.le32 (Sha1.word_bytes v ++ rest) = v.
Proof.
  intros Hv. unfold FindPwned.le32, Sha1.word_bytes, Mem.load.
  change (Z.to_nat 0) with 0%nat. change (Z.to_nat 1) with 1%nat.
  change (Z.to_nat 2) with 2%nat. change (Z.to_nat 3) with 3%nat.
  cbn [app nth].
  change 0xFF with (Z.ones 8).
  rewrite !Z.land_ones, !Z.shiftr_div_pow2, !Z.shiftl_mul_pow2 by lia.
  change (2 ^ 8) with 256. change (2 ^ 16) with 65536.
  change (2 ^ 24) with 16777216. change (2 ^ 32) with 4294967296 in Hv.
  lia.
Qed.

Lemma digits_app ds : forall rest acc,
  Forall (fun c => CStr.isdigit c = true) ds ->
  CStr.isdigit (Mem.load rest 0) = false ->
  CStr.digits (ds ++ rest) acc = CStr.digits ds acc.
Proof.
  induction ds as [|c ds IH]; intros rest acc Hds Hrest.
  - cbn [app CStr.digits]. destruct rest as [|x rest]; [reflexivity|].
    cbn [CStr.digits]. unfold Mem.load in Hrest. cbn in Hrest.
    now rewrite Hrest.
  - apply Forall_cons_iff in Hds as [Hc Hds].
    cbn [app CStr.digits]. rewrite Hc. now apply IH.
Qed.

Lemma atoi_digit c s :
  CStr.isdigit c = true ->
  CStr.atoi (c :: s) = CStr.s32 (CStr.digits (c :: s) 0).
Proof.
  intros Hc. unfold CStr.atoi. cbn [CStr.skip_space].
  rewrite (digit_not_space c Hc).
  unfold CStr.isdigit in Hc. apply andb_true_iff in Hc as [H1 H2].
  apply Z.leb_le in H1, H2.
  assert (C : c = 48 \/ c = 49 \/ c = 50 \/ c = 51 \/ c = 52 \/ c = 53
              \/ c = 54 \/ c = 55 \/ c = 56 \/ c = 57) by lia.
  repeat (destruct C as [->|C]; [reflexivity|]). now subst.
Qed.

(** The count that the text program reads on a line of the corpus. *)
Lemma atoi_count e rest :
  well_formed e -> fixed_width e ->
  Sha1.u64
    (CStr.atoi (digits e ++ repeat 32 (blanks e) ++ [13; 10] ++ rest))
  = value_of e.
Proof.
  intros (_ & _ & Hne & Hds & _) [_ Hv].
  destruct (digits e) as [|c ds] eqn:E; [now elim Hne|].
  pose proof Hds as Hall. apply Forall_cons_iff in Hds as [Hc Hds].
  set (tail := repeat 32 (blanks e) ++ [13; 10] ++ rest).
  assert (Htail : CStr.isdigit (Mem.load tail 0) = false)
    by (subst tail; now destruct (blanks e)).
  change ((c :: ds) ++ tail) with (c :: (ds ++ tail)).
  rewrite (atoi_digit c _ Hc).
  change (c :: (ds ++ tail)) with ((c :: ds) ++ tail).
  rewrite digits_app by assumption.
  unfold value_of in *. rewrite E in *.
  pose proof (digits_nonneg (c :: ds) 0 Hall ltac:(lia)) as Hpos.
  unfold CStr.s32. change (2 ^ 31) with 2147483648 in *.
  change (2 ^ 32) with 4294967296.
  rewrite u64_small; [lia|]. change (2 ^ 64) with 18446744073709551616.
  lia.
Qed.

Lemma strncasecmp_firstn_r n a b :
  CStr.strncasecmp a (firstn n b) n = CStr.strncasecmp a b n.
Proof.
  rewrite strncasecmp_antisym, strncasecmp_firstn.
  now rewrite <- strncasecmp_antisym.
Qed.

Lemma chars_length s :
  Z.of_nat (List.length (CStr.chars s)) = CStr.strlen s.
Proof.
  unfold CStr.chars, CStr.strlen. rewrite length_map. f_equal.
  induction s as [|c s IH]; [reflexivity|].
  cbn [list_ascii_of_string List.length String.length]. now rewrite IH.
Qed.

Lemma same_sign_sym a b : same_sign a b -> same_sign b a.
Proof. intros [H1 H2]. now split. Qed.

(** X27: for a text corpus of well-formed lines of 63 bytes with counts
    below 2^31, in whatever order, and a query of 40 hex digits,
    [find-pwned] searching the file that [pwned2bin] writes returns what
    [find-pwned-password-hash] returns searching the text: the same
    found-or-not and the same count. *)
Theorem converted_corpus_gives_same_answers (es : list entry)
  (q : string) :
  es <> [] ->
  Forall well_formed es ->
  Forall fixed_width es ->
  24 * Z.of_nat (List.length es) < 2 ^ 63 ->
  CStr.strlen q = 40 ->
  hex_text (CStr.chars q) 20 ->
  let text := flat_map line_of es in
  exists bin hash0,
    Pwned2Bin.main text = Some bin
    /\ Z.of_nat (List.length bin) = 24 * Z.of_nat (List.length es)
    /\ Z.of_nat (List.length text) = 63 * Z.of_nat (List.length es)
    /\ FindPwned.parse_hash 20 (CStr.chars q) 0 (repeat 0 20) = inl hash0
    /\ FindPwned.find_hash bin (Z.of_nat (List.length bin)) hash0
       = FindPwnedPasswordHash.find_hash text
           (Z.of_nat (List.length text)) q 0.
Proof.
  intros Hne Hwf Hfw Hsz Hq Hhex. cbv zeta.
  set (n := Z.of_nat (List.length es)) in *.
  assert (Hn : 1 <= n) by (destruct es; [now elim Hne | cbn in n; lia]).
  assert (Hrec : Forall (fun e => List.length (record_of e) = 24%nat) es).
  { apply Forall_forall. intros e _. apply record_of_length. }
  assert (Hline : Forall (fun e => List.length (line_of e) = 63%nat) es).
  { rewrite Forall_forall in *. intros e He.
    apply line_of_width; auto. }
  assert (Hblen : Z.of_nat (List.length (flat_map record_of es)) = 24 * n).
  { rewrite (length_flat_map_const record_of 24 es Hrec). lia. }
  assert (Htlen : Z.of_nat (List.length (flat_map line_of es)) = 63 * n).
  { rewrite (length_flat_map_const line_of 63 es Hline). lia. }
  assert (Hqlen : List.length (CStr.chars q) = 40%nat).
  { pose proof (chars_length q). lia. }
  exists (flat_map record_of es), (hex_bytes (CStr.chars q) 20).
  split; [now apply main_entries|].
  split; [exact Hblen|]. split; [exact Htlen|].
  split; [now apply (parse_hash_hex (CStr.chars q))|].
  rewrite Hblen, Htlen.
  rewrite bin_find_hash_search by lia.
  rewrite text_find_hash_search by lia.
  apply (search_same_sign _ _ _ _ n Hn).
  intros m Hm.
  destruct (skipn_entry es (Z.to_nat m) ltac:(lia)) as (e & rest & Hsk & Hin).
  assert (He : well_formed e)
    by (now apply (proj1 (Forall_forall _ _) Hwf)).
  assert (Hf : fixed_width e)
    by (now apply (proj1 (Forall_forall _ _) Hfw)).
  assert (Hbin : skipn (Z.to_nat (24 * m)) (flat_map record_of es)
                 = record_of e ++ flat_map record_of rest).
  { replace (Z.to_nat (24 * m)) with (24 * Z.to_nat m)%nat by lia.
    now rewrite (skipn_flat_map record_of 24 _ es Hrec), Hsk. }
  assert (Htext : skipn (Z.to_nat (m * 63)) (flat_map line_of es)
                  = line_of e ++ flat_map line_of rest).
  { replace (Z.to_nat (m * 63)) with (63 * Z.to_nat m)%nat by lia.
    now rewrite (skipn_flat_map line_of 63 _ es Hline), Hsk. }
  destruct He as (Hlen & Hhe & Hds).
  eexists _, _.
  split; [apply (bin_cmp_at _ _ n m Hblen Hm)|].
  split; [apply (text_cmp_at _ _ n m Htlen Hm)|].
  split.
  - unfold bin_hash, text_line. rewrite Hbin, Htext.
    unfold record_of, line_of. rewrite <- !app_assoc.
    rewrite firstn_app_le by (rewrite hex_bytes_length; lia).
    rewrite (firstn_all2 (n := 20)) by (rewrite hex_bytes_length; lia).
    rewrite <- (strncasecmp_firstn_r 40).
    rewrite firstn_app_le by lia.
    rewrite (firstn_all2 (n := 40)) by lia.
    apply same_sign_sym.
    apply (hex_compare 20); auto.
  - unfold FindPwned.count_at, FindPwned.record_at,
      FindPwnedPasswordHash.count_at, FindPwnedPasswordHash.line_at.
    unfold FindPwned.kPwnedInfoSize,
      FindPwnedPasswordHash.kTextHashLineBytes.
    destruct (Z.leb_spec 0 m); [|lia].
    destruct (Z.leb_spec (24 * (m + 1))
                (Z.of_nat (List.length (flat_map record_of es)))); [|lia].
    destruct (Z.leb_spec (63 * (m + 1))
                (Z.of_nat (List.length (flat_map line_of es)))); [|lia].
    cbn [andb FindPwned.count]. rewrite Hbin, Htext.
    unfold record_of at 1. rewrite <- app_assoc.
    change (Z.to_nat Sha1.SHA1_BINARY_BYTES) with 20%nat.
    rewrite skipn_app_le by (rewrite hex_bytes_length; lia).
    rewrite (skipn_all2 (n := 20)) by (rewrite hex_bytes_length; lia).
    cbn [app].
    destruct Hf as [Hw Hv].
    pose proof (digits_nonneg (digits e) 0 (proj1 (proj2 Hds)) ltac:(lia))
      as Hpos. fold (value_of e) in Hpos.
    rewrite le32_word_bytes
      by (change (2 ^ 31) with 2147483648 in Hv;
          change (2 ^ 32) with 4294967296; lia).
    change (Z.to_nat (FindPwnedPasswordHash.kTextHashChars + 1))
      with 41%nat.
    unfold line_of at 1. rewrite <- !app_assoc.
    replace 41%nat with (1 + 40)%nat by reflexivity.
    rewrite <- skipn_skipn.
    rewrite skipn_app_le by lia.
    rewrite (skipn_all2 (n := 40)) by lia.
    cbn [app skipn]. symmetry.
    apply (atoi_count e (flat_map line_of rest)).
    + exact (conj Hlen (conj Hhe Hds)).
    + exact (conj Hw Hv).
Qed.

End ConvertedCorpus.

(** ** The terminal's echo *)

Section Echo.




























End Echo.

(** ** Instances for the converter and the echo *)

Section MoreInstances.

Import Samples.
Local Open Scope string_scope.
Local Open Scope Z_scope.

Lemma hex_text_check input n :
  forallb (fun k => 0 <=? FindPwned.hexval (Mem.load input (Z.of_nat k)))
    (seq 0 (2 * n)) = true ->
  hex_text input n.
Proof.
  intros H k Hk. rewrite forallb_forall in H.
  specialize (H (Z.to_nat k)). rewrite Z2Nat.id in H by lia.
  apply Z.leb_le, H, in_seq. lia.
Qed.

Lemma sample_entry_well_formed i :
  In i [0; 1; 2] -> well_formed (sample_entry i) /\ fixed_width (sample_entry i).
Proof.
  intros H. cbn [In] in H.
  destruct H as [<-|[<-|[<-|[]]]];
    (split; [split; [reflexivity|]; split;
               [apply hex_text_check; vm_compute; reflexivity|];
             split; [discriminate|]; split;
               [repeat constructor | vm_compute; reflexivity]
            | split; [reflexivity | vm_compute; reflexivity]]).
Qed.

Lemma sample_entries_well_formed :
  Forall well_formed [sample_entry 0; sample_entry 1; sample_entry 2].
Proof.
  repeat constructor; apply sample_entry_well_formed; cbn; auto.
Qed.

Lemma sample_entries_fixed_width :
  Forall fixed_width [sample_entry 0; sample_entry 1; sample_entry 2].
Proof.
  repeat constructor; apply sample_entry_well_formed; cbn; auto.
Qed.

Lemma pwned2bin_converts_witness :
  Pwned2Bin.main
    (flat_map line_of [sample_entry 0; sample_entry 1; sample_entry 2])
  = Some (flat_map record_of
            [sample_entry 0; sample_entry 1; sample_entry 2])
  /\ List.length
       (flat_map record_of [sample_entry 0; sample_entry 1; sample_entry 2])
     = (24 * List.length [sample_entry 0; sample_entry 1; sample_entry 2])%nat.
Proof.
  exact (pwned2bin_converts _ sample_entries_well_formed).
Defined.

Lemma pwned2bin_stops_after_bare_lf_witness :
  Pwned2Bin.main
    (lf_line_of (sample_entry 0) ++ lf_line_of (sample_entry 1) ++ [])%list
  = Some (record_of (sample_entry 0)).
Proof.
  apply (pwned2bin_stops_after_bare_lf (sample_entry 0) (sample_entry 1) []);
    apply sample_entry_well_formed; cbn; auto.
Defined.

Lemma converted_corpus_gives_same_answers_witness :
  let es := [sample_entry 0; sample_entry 1; sample_entry 2] in
  let text := flat_map line_of es in
  exists bin hash0,
    Pwned2Bin.main text = Some bin
    /\ Z.of_nat (List.length bin) = 24 * Z.of_nat (List.length es)
    /\ Z.of_nat (List.length text) = 63 * Z.of_nat (List.length es)
    /\ FindPwned.parse_hash 20 (CStr.chars (sample_text 1)) 0 (repeat 0 20)
       = inl hash0
    /\ FindPwned.find_hash bin (Z.of_nat (List.length bin)) hash0
       = FindPwnedPasswordHash.find_hash text
           (Z.of_nat (List.length text)) (sample_text 1) 0.
Proof.
  cbv zeta.
  apply (converted_corpus_gives_same_answers
           [sample_entry 0; sample_entry 1; sample_entry 2] (sample_text 1));
    [discriminate | exact sample_entries_well_formed
    | exact sample_entries_fixed_width | reflexivity | reflexivity
    | apply hex_text_check; vm_compute; reflexivity].
Defined.



End MoreInstances.
